(** * Planisuss world: a shallow embedding of the simulation engine

    The engine of [planisuss_main.py] (classes [Specie], [Group], [Herd],
    [Pride] and [World]) is embedded as Rocq functions.

    - Python integers are [Z]; [//] and [%] are [Z.div] and [Z.modulo]
      (both floor towards minus infinity, like Python's).
    - Python floats (the social attitude and the constants it is combined
      with) are exact rationals [Q]; no statement below depends on rounding.
    - A Python exception is the [Raise] outcome of [result].
    - The [random] module is an oracle: the state [Random] holds the raw
      values still to be drawn, and each library call maps the next raw
      value into the range the library documents.
    - a [dict] is an association list in insertion order with unique keys;
      objects that the source mutates in place are rebuilt and written
      back to the container they live in. *)

From Stdlib Require Import ZArith QArith Qround Qminmax List Bool Lia.
From Stdlib Require Import Permutation Sorted.
From Stdlib Require Import Lqa.
Import ListNotations.
Open Scope Z_scope.

Set Implicit Arguments.

(* ------------------------------------------------------------------ *)
(** ** planisuss_constants.py *)

Module const.
Definition NUMCELLS_R : Z := 50.
Definition NUMCELLS_C : Z := 50.

Definition NEIGHBORHOOD_E : Z := 1.
Definition NEIGHBORHOOD_C : Z := 1.

Definition MAX_HERD : Z := 300.
Definition MAX_PRIDE : Z := 100.

Definition MAX_ENERGY_E : Z := 100.
Definition MAX_ENERGY_C : Z := 100.

Definition MAX_LIFE_E : Z := 1000.
Definition MAX_LIFE_C : Z := 1000.
Definition MIN_LIFE_E : Z := 10.
Definition MIN_LIFE_C : Z := 10.

Definition AGING_E : Z := 1.
Definition AGING_C : Z := 1.

Definition GROWING : Z := 1.

Definition HUNGER_E : Q := 11 # 10.
Definition HUNGER_C : Q := 103 # 100.
Definition EAT_E : Q := 1 # 100.
Definition EAT_C : Q := 5 # 100.
Definition WIN_FIGHT : Q := 1 # 10.

Definition MIN_MOVEMENT_E : Z := 3.
Definition MAX_MOVEMENT_E : Z := 300.
Definition MIN_MOVEMENT_C : Z := 3.
Definition MAX_MOVEMENT_C : Z := 300.

Definition JOIN_PRIDE : Q := 9 # 10.

Definition NUM_ERBAST_LB : Z := 10.
Definition NUM_ERBAST_UB : Z := 30.
Definition NUM_CARVIZ_LB : Z := 3.
Definition NUM_CARVIZ_UB : Z := 10.

Definition WATER_PROB : Q := 1 # 10.

Definition NUM_HERDS_LB : Z := 50.
Definition NUM_HERDS_UB : Z := 80.
Definition NUM_PRIDES_LB : Z := 20.
Definition NUM_PRIDES_UB : Z := 30.
End const.

(* ------------------------------------------------------------------ *)
(** ** The Python the engine relies on *)

Inductive exn : Type :=
| ZeroDivisionError
| ValueError
| IndexError.

Inductive result (A : Type) : Type :=
| Ok (a : A)
| Raise (e : exn).

Arguments Ok {A} a.
Arguments Raise {A} e.

Definition rbind {A B} (r : result A) (k : A -> result B) : result B :=
  match r with
  | Ok a => k a
  | Raise e => Raise e
  end.

(** The source of randomness: raw integers for [randint] and [choice],
    raw rationals for [random] and [uniform].  An exhausted list yields 0. *)
Record Random : Type := mkRandom {
  int_draws : list Z;
  unit_draws : list Q
}.

(** A computation that may draw random values and may raise. *)
Definition M (A : Type) : Type := Random -> result (A * Random).

Definition ret {A} (a : A) : M A := fun r => Ok (a, r).

Definition bind {A B} (m : M A) (k : A -> M B) : M B :=
  fun r => match m r with
           | Ok (a, r') => k a r'
           | Raise e => Raise e
           end.

Definition raise {A} (e : exn) : M A := fun _ => Raise e.

Definition lift {A} (x : result A) : M A :=
  fun r => match x with
           | Ok a => Ok (a, r)
           | Raise e => Raise e
           end.

Declare Scope py_scope.
Delimit Scope py_scope with py.
Notation "'let*' x := m 'in' k" := (bind m (fun x => k))
  (at level 10, x pattern, m at level 100, k at level 200) : py_scope.
Notation "'let?' x := m 'in' k" := (rbind m (fun x => k))
  (at level 10, x pattern, m at level 100, k at level 200) : py_scope.
Open Scope py_scope.

(** for-loops over a list that thread an accumulator *)
Fixpoint foldM {A B} (f : B -> A -> M B) (l : list A) (acc : B) : M B :=
  match l with
  | [] => ret acc
  | x :: l' => let* acc' := f acc x in foldM f l' acc'
  end.

Fixpoint rfold {A B} (f : B -> A -> result B) (l : list A) (acc : B) : result B :=
  match l with
  | [] => Ok acc
  | x :: l' => let? acc' := f acc x in rfold f l' acc'
  end.

(** A list comprehension [[x for x in l if p x]] whose condition may raise. *)
Fixpoint rfilter {A} (p : A -> result bool) (l : list A) : result (list A) :=
  match l with
  | [] => Ok []
  | x :: l' =>
      let? b := p x in
      let? rest := rfilter p l' in
      Ok (if b then x :: rest else rest)
  end.

Definition len {A} (l : list A) : Z := Z.of_nat (length l).

(** [range(lo, hi)] *)
Definition range (lo hi : Z) : list Z :=
  map (fun k => lo + Z.of_nat k) (seq 0 (Z.to_nat (hi - lo))).

(** [l[n]], with Python's negative indices *)
Definition py_index {A} (l : list A) (n : Z) : result A :=
  let i := if n <? 0 then n + len l else n in
  if (i <? 0) || (len l <=? i) then Raise IndexError
  else match nth_error l (Z.to_nat i) with
       | Some a => Ok a
       | None => Raise IndexError
       end.

Fixpoint update_nth {A} (n : nat) (f : A -> A) (l : list A) : list A :=
  match l, n with
  | [], _ => []
  | x :: l', O => f x :: l'
  | x :: l', S n' => x :: update_nth n' f l'
  end.

(** [l[n].field = ...]: the object at index [n] is mutated in place. *)
Definition py_update {A} (l : list A) (n : Z) (f : A -> A) : result (list A) :=
  let i := if n <? 0 then n + len l else n in
  if (i <? 0) || (len l <=? i) then Raise IndexError
  else Ok (update_nth (Z.to_nat i) f l).

(** [l[a:b]] for [0 <= a] and [0 <= b] *)
Definition slice {A} (a b : Z) (l : list A) : list A :=
  firstn (Z.to_nat (b - a)) (skipn (Z.to_nat a) l).

(** [list.sort(key=...)]: a stable sort by non-decreasing key;
    with [reverse=True] a stable sort by non-increasing key. *)
Section Sort.
Variable A : Type.
Variable key : A -> Z.
Variable reverse : bool.

Definition before (x y : A) : bool :=
  if reverse then key y <=? key x else key x <=? key y.

Fixpoint sort_insert (x : A) (l : list A) : list A :=
  match l with
  | [] => [x]
  | y :: l' => if before x y then x :: y :: l' else y :: sort_insert x l'
  end.

Definition sort (l : list A) : list A := fold_right sort_insert [] l.

(** The order that [sort] establishes *)
Definition ordered (x y : A) : Prop := before x y = true.
End Sort.

(** Comparisons of floats *)
Definition Qltb (a b : Q) : bool := negb (Qle_bool b a).
Definition Qgtb (a b : Q) : bool := Qltb b a.
Definition Qgeb (a b : Q) : bool := Qle_bool b a.

(** [a / b] on floats *)
Definition truediv (a b : Q) : result Q :=
  if Qeq_bool b 0 then Raise ZeroDivisionError else Ok (a / b)%Q.

(** [a // b] and [a % b] on integers *)
Definition floordiv (a b : Z) : result Z :=
  if b =? 0 then Raise ZeroDivisionError else Ok (a / b).

Definition pymod (a b : Z) : result Z :=
  if b =? 0 then Raise ZeroDivisionError else Ok (a mod b).

(** *** The [random] module *)

Definition next_int : M Z :=
  fun r => Ok (hd 0 (int_draws r), mkRandom (tl (int_draws r)) (unit_draws r)).

Definition next_unit : M Q :=
  fun r => Ok (hd 0%Q (unit_draws r), mkRandom (int_draws r) (tl (unit_draws r))).

(** [random.random()]: a float in [0, 1) *)
Definition random_random : M Q :=
  let* q := next_unit in ret (q - inject_Z (Qfloor q))%Q.

(** [random.randint(a, b)]: an integer in [a, b]; empty ranges raise *)
Definition random_randint (a b : Z) : M Z :=
  if b <? a then raise ValueError
  else let* k := next_int in ret (a + k mod (b - a + 1)).

(** [random.uniform(a, b)] is [a + (b - a) * random()] *)
Definition random_uniform (a b : Q) : M Q :=
  let* u := random_random in ret (a + (b - a) * u)%Q.

(** [random.choice(seq)] *)
Definition random_choice {A} (l : list A) : M A :=
  match l with
  | [] => raise IndexError
  | x :: _ => let* k := next_int in ret (nth (Z.to_nat (k mod len l)) l x)
  end.

(* ------------------------------------------------------------------ *)
(** ** ERBAST and CARVIZ *)

(** [class Specie]; [Erbast] and [Carviz] add nothing to it. *)
Record Specie : Type := mkSpecie {
  energy : Z;
  lifetime : Z;
  age : Z;
  social_attitude : Q;
  moved : bool
}.

(** [Specie.__init__(energy, lifetime, social_attitude, age=0)] *)
Definition Specie_init (energy lifetime : Z) (social_attitude : Q) : Specie :=
  mkSpecie energy lifetime 0 social_attitude false.

Definition set_energy (a : Specie) (e : Z) : Specie :=
  mkSpecie e (lifetime a) (age a) (social_attitude a) (moved a).

Definition set_age (a : Specie) (n : Z) : Specie :=
  mkSpecie (energy a) (lifetime a) n (social_attitude a) (moved a).

Definition set_social_attitude (a : Specie) (s : Q) : Specie :=
  mkSpecie (energy a) (lifetime a) (age a) s (moved a).

Definition set_moved (a : Specie) (b : bool) : Specie :=
  mkSpecie (energy a) (lifetime a) (age a) (social_attitude a) b.

(* ------------------------------------------------------------------ *)
(** ** The grid *)

Definition Cell : Type := (Z * Z)%type.

Definition cell_eqb (c d : Cell) : bool :=
  (fst c =? fst d) && (snd c =? snd d).

(** The numpy array [grid[k, i, j]]: layer 0 is the Vegetob density
    (-100 for water), layer 1 the number of Erbast, layer 2 the number of
    Carviz.  The engine only indexes it with cells of the world, so the
    array is a function of the layer, the row and the column. *)
Definition Grid : Type := Z -> Z -> Z -> Z.

Definition grid_at (grid : Grid) (k : Z) (cell : Cell) : Z :=
  grid k (fst cell) (snd cell).

(** [grid[k, cell[0], cell[1]] = v] *)
Definition grid_set (grid : Grid) (k : Z) (cell : Cell) (v : Z) : Grid :=
  fun k' i j => if (k' =? k) && cell_eqb (i, j) cell then v else grid k' i j.

(** [grid[k] = layer] *)
Definition grid_set_layer (grid : Grid) (k : Z) (layer : Z -> Z -> Z) : Grid :=
  fun k' i j => if k' =? k then layer i j else grid k' i j.

(* ------------------------------------------------------------------ *)
(** ** HERD and PRIDE *)

(** [class Group] *)
Record Group : Type := mkGroup {
  population : list Specie;
  total_energy : Z;
  total_lifetime : Z;
  total_age : Z;
  total_social_attitude : Q
}.

(** [Group.__init__], hence [Herd()] and [Pride()] *)
Definition Group_init : Group := mkGroup [] 0 0 0 0.

Definition set_population (g : Group) (l : list Specie) : Group :=
  mkGroup l (total_energy g) (total_lifetime g) (total_age g)
          (total_social_attitude g).

(** [Herd.create_animal] and [Pride.create_animal] *)
Definition create_animal (energy lifetime : Z) (social_attitude : Q) : Specie :=
  Specie_init energy lifetime social_attitude.

(** [Group.world_init] *)
Definition Group_world_init (self : Group) (grid : Grid) (cell : Cell)
    (idx_specie NUM_ANIMALS_LB NUM_ANIMALS_UB MAX_ENERGY MAX_LIFE : Z)
    : M (Group * Grid) :=
  let* num_animals := random_randint NUM_ANIMALS_LB NUM_ANIMALS_UB in
  let grid := grid_set grid idx_specie cell
                (grid_at grid idx_specie cell + num_animals) in
  let* self :=
    foldM (fun (self : Group) (_ : Z) =>
             let* energy := random_randint 0 MAX_ENERGY in
             let* lifetime := random_randint 1 MAX_LIFE in
             let* social_attitude := random_random in
             ret (set_population self
                    (population self
                     ++ [create_animal energy lifetime social_attitude])))
          (range 0 num_animals) self in
  ret (self, grid).

(** [Group.join_groups] *)
Definition Group_join_groups (group_list : list Group) (res_group : Group)
    (MAX_GROUP : Z) : Group :=
  let res_group :=
    set_population res_group
      (fold_left (fun x y => x ++ population y) group_list []) in
  if MAX_GROUP <? len (population res_group) then
    let res_group :=
      set_population res_group (sort energy true (population res_group)) in
    set_population res_group (slice 0 (MAX_GROUP + 1) (population res_group))
  else res_group.

(** [Group.update_stats] *)
Definition Group_update_stats (self : Group) : Group :=
  mkGroup (population self)
    (fold_left (fun x y => x + energy y) (population self) 0)
    (fold_left (fun x y => x + lifetime y) (population self) 0)
    (fold_left (fun x y => x + age y) (population self) 0)
    (fold_left (fun x y => x + social_attitude y)%Q (population self) 0%Q).

(** [animal.age += 1], then the monthly cost [animal.energy -= AGING]
    (the first statements of the loop body of [Group.spawning]) *)
Definition aging (animal : Specie) (AGING : Z) : Specie :=
  let animal := set_age animal (age animal + 1) in
  if (age animal) mod 10 =? 0
  then set_energy animal (energy animal - AGING)
  else animal.

(** The stats (energy, lifetime, social attitude) of the two offsprings
    that [Group.spawning] draws for a parent that reached its lifetime *)
Definition offspring_stats (animal : Specie) (MAX_LIFE : Z)
    : M ((Z * Z * Q) * (Z * Z * Q)) :=
  let* energy1 := random_randint 1 (Z.max 1 (energy animal - 1)) in
  let energy2 := energy animal - energy1 in
  let* lifetime1 :=
    random_randint 1 (Z.min (2 * lifetime animal - 1) MAX_LIFE) in
  let lifetime2 := 2 * lifetime animal - lifetime1 in
  let* social_attitude1 :=
    random_uniform (Qmax 0 (2 * social_attitude animal - 1))
                   (Qmin (2 * social_attitude animal) 1) in
  let social_attitude2 := (2 * social_attitude animal - social_attitude1)%Q in
  ret ((energy1, lifetime1, social_attitude1),
       (energy2, lifetime2, social_attitude2)).

(** One iteration of the loop of [Group.spawning]: [Ls] and [grid] are
    the list being built and the grid being updated. *)
Definition spawning_step (cell : Cell)
    (idx_specie AGING MIN_LIFE MAX_LIFE MAX_GROUP : Z)
    (acc : list Specie * Grid) (animal : Specie) : M (list Specie * Grid) :=
  let '(Ls, grid) := acc in
  let animal := aging animal AGING in
  if (energy animal =? 0) || (lifetime animal <? MIN_LIFE) then
    ret (Ls, grid_set grid idx_specie cell (grid_at grid idx_specie cell - 1))
  else if age animal =? lifetime animal then
    let* ((energy1, lifetime1, social_attitude1),
           (energy2, lifetime2, social_attitude2)) :=
      offspring_stats animal MAX_LIFE in
    if energy2 <=? energy1 then
      let Ls := Ls ++ [create_animal energy1 lifetime1 social_attitude1] in
      if grid_at grid idx_specie cell <? MAX_GROUP then
        ret (Ls ++ [create_animal energy2 lifetime2 social_attitude2],
             grid_set grid idx_specie cell (grid_at grid idx_specie cell + 1))
      else ret (Ls, grid)
    else
      let Ls := Ls ++ [create_animal energy2 lifetime2 social_attitude2] in
      if grid_at grid idx_specie cell <? MAX_GROUP then
        ret (Ls ++ [create_animal energy1 lifetime1 social_attitude1],
             grid_set grid idx_specie cell (grid_at grid idx_specie cell + 1))
      else ret (Ls, grid)
  else ret (Ls ++ [animal], grid).

(** [Group.spawning] *)
Definition Group_spawning (self : Group) (grid : Grid) (cell : Cell)
    (idx_specie AGING MIN_LIFE MAX_LIFE MAX_GROUP : Z) : M (Group * Grid) :=
  let* (Ls, grid) :=
    foldM (spawning_step cell idx_specie AGING MIN_LIFE MAX_LIFE MAX_GROUP)
          (population self) ([], grid) in
  ret (set_population self Ls, grid).

(** *** class Herd *)

(** [Herd.world_init] *)
Definition Herd_world_init (self : Group) (grid : Grid) (cell : Cell)
    : M (Group * Grid) :=
  Group_world_init self grid cell 1 const.NUM_ERBAST_LB const.NUM_ERBAST_UB
                   const.MAX_ENERGY_E const.MAX_LIFE_E.

(** What every individual that moves pays, and the flag it gets *)
Definition mark_moved (a : Specie) : Specie :=
  set_energy (set_moved a true) (energy a - 1).

Definition mark_stayed (a : Specie) : Specie := set_moved a false.

(** [animal.energy * animal.social_attitude] and
    [animal.energy / animal.social_attitude] *)
Definition energy_times_attitude (a : Specie) : Q :=
  (inject_Z (energy a) * social_attitude a)%Q.

Definition energy_over_attitude (a : Specie) : result Q :=
  truediv (inject_Z (energy a)) (social_attitude a).

(** [Herd.movement] *)
Definition Herd_movement (self : Group) (grid : Grid) (cell : Cell)
    (neighbours : list Cell) : result (list (Group * Cell)) :=
  let neighbours := sort (grid_at grid 0) true neighbours in
  match neighbours with
  | [] => Ok [(self, cell)]
  | best_cell :: _ =>
      let? (move_erbast, stay_erbast) :=
        if (grid_at grid 0 cell <? len (population self))
           && (grid_at grid 0 cell <? grid_at grid 0 best_cell)
        then
          let move_erbast :=
            filter (fun erbast =>
                      Qgeb (energy_times_attitude erbast)
                           (inject_Z const.MIN_MOVEMENT_E)
                      && (1 <? energy erbast))
                   (population self) in
          let stay_erbast :=
            filter (fun erbast =>
                      Qltb (energy_times_attitude erbast)
                           (inject_Z const.MIN_MOVEMENT_E)
                      || (energy erbast <=? 1))
                   (population self) in
          Ok (move_erbast, stay_erbast)
        else
          let? move_erbast :=
            rfilter (fun erbast =>
                       let? d := energy_over_attitude erbast in
                       Ok (Qgtb d (inject_Z const.MAX_MOVEMENT_E)
                           && (1 <? energy erbast)))
                    (population self) in
          let? stay_erbast :=
            rfilter (fun erbast =>
                       let? d := energy_over_attitude erbast in
                       Ok (Qle_bool d (inject_Z const.MAX_MOVEMENT_E)
                           || (energy erbast <=? 1)))
                    (population self) in
          Ok (move_erbast, stay_erbast)
      in
      let move_erbast := map mark_moved move_erbast in
      let stay_erbast := map mark_stayed stay_erbast in
      let other_herd := Group_init in
      let self := set_population self stay_erbast in
      let other_herd := set_population other_herd move_erbast in
      let res_herds := [(self, cell); (other_herd, best_cell)] in
      Ok (filter (fun herd_cell => 0 <? len (population (fst herd_cell)))
                 res_herds)
  end.

(** [Herd.unify] *)
Definition Herd_unify (herd_list : list Group) : Group :=
  Group_join_groups herd_list Group_init const.MAX_HERD.

(** [Herd.grazing] *)
Definition Herd_grazing (self : Group) (grid : Grid) (cell : Cell)
    : result (Group * Grid) :=
  let moved_erbast := filter moved (population self) in
  let static_erbast := filter (fun erbast => negb (moved erbast))
                              (population self) in
  let? (static_erbast, grid) :=
    if len static_erbast <=? grid_at grid 0 cell then
      let static_erbast :=
        map (fun erbast => set_energy erbast (energy erbast + 1))
            static_erbast in
      Ok (static_erbast,
          grid_set grid 0 cell (grid_at grid 0 cell - len static_erbast))
    else
      let static_erbast := sort energy false static_erbast in
      let? static_erbast :=
        rfold (fun l n =>
                 py_update l n
                   (fun erbast => set_energy erbast (energy erbast + 1)))
              (range 0 (grid_at grid 0 cell)) static_erbast in
      let? static_erbast :=
        rfold (fun l n =>
                 let? erbast := py_index l n in
                 let? s := truediv (social_attitude erbast) const.HUNGER_E in
                 py_update l n (fun erbast => set_social_attitude erbast s))
              (range (grid_at grid 0 cell) (len static_erbast))
              static_erbast in
      Ok (static_erbast, grid_set grid 0 cell 0)
  in
  Ok (set_population self (moved_erbast ++ static_erbast), grid).

(** [Herd.spawning] *)
Definition Herd_spawning (self : Group) (grid : Grid) (cell : Cell)
    : M (Group * Grid) :=
  Group_spawning self grid cell 1 const.AGING_E const.MIN_LIFE_E
                 const.MAX_LIFE_E const.MAX_HERD.

(** *** class Pride *)

(** [Pride.world_init] *)
Definition Pride_world_init (self : Group) (grid : Grid) (cell : Cell)
    : M (Group * Grid) :=
  Group_world_init self grid cell 2 const.NUM_CARVIZ_LB const.NUM_CARVIZ_UB
                   const.MAX_ENERGY_C const.MAX_LIFE_C.

(** [Pride.movement] *)
Definition Pride_movement (self : Group) (grid : Grid) (cell : Cell)
    (neighbours : list Cell) : M (list (Group * Cell)) :=
  let neighbours := sort (grid_at grid 1) true neighbours in
  match neighbours with
  | [] => ret [(self, cell)]
  | best_cell :: _ =>
      let* best_cell :=
        if grid_at grid 1 best_cell =? 0
        then random_choice neighbours
        else ret best_cell in
      let* (stay_carviz, move_carviz) :=
        lift
          (if grid_at grid 1 cell =? 0 then
             let stay_carviz :=
               filter (fun carviz =>
                         Qltb (energy_times_attitude carviz)
                              (inject_Z const.MIN_MOVEMENT_C)
                         || (energy carviz <=? 1))
                      (population self) in
             let move_carviz :=
               filter (fun carviz =>
                         Qgeb (energy_times_attitude carviz)
                              (inject_Z const.MIN_MOVEMENT_C)
                         && (1 <? energy carviz))
                      (population self) in
             Ok (stay_carviz, move_carviz)
           else
             let? stay_carviz :=
               rfilter (fun carviz =>
                          let? d := energy_over_attitude carviz in
                          Ok (Qgtb d (inject_Z const.MAX_MOVEMENT_C)
                              || (energy carviz <=? 1)))
                       (population self) in
             let? move_carviz :=
               rfilter (fun carviz =>
                          let? d := energy_over_attitude carviz in
                          Ok (Qle_bool d (inject_Z const.MAX_MOVEMENT_C)
                              && (1 <? energy carviz)))
                       (population self) in
             Ok (stay_carviz, move_carviz)) in
      let move_carviz := map mark_moved move_carviz in
      let stay_carviz := map mark_stayed stay_carviz in
      let other_pride := Group_init in
      let self := set_population self stay_carviz in
      let other_pride := set_population other_pride move_carviz in
      let res_prides := [(self, cell); (other_pride, best_cell)] in
      ret (filter (fun pride_cell => 0 <? len (population (fst pride_cell)))
                  res_prides)
  end.

(** The test of [Pride.unify] that sends two prides to join rather than
    to fight *)
Definition prides_join (pride1 pride2 : Group) : bool :=
  Qgtb (total_social_attitude pride1 + total_social_attitude pride2)
       const.JOIN_PRIDE
  && (len (population pride1) + len (population pride2) <? const.MAX_PRIDE).

(** The winner of a fight has the social attitude of its members raised. *)
Definition win_fight (pride : Group) : Group :=
  set_population pride
    (map (fun carviz =>
            set_social_attitude carviz
              (Qmin (social_attitude carviz + const.WIN_FIGHT) 1))
         (population pride)).

(** One iteration of the while-loop of [Pride.unify], for a list of at
    least two prides (the loop condition) *)
Definition Pride_unify_step (pride_list : list Group) : M (list Group) :=
  let pride_list := sort (fun pride => len (population pride)) false
                         pride_list in
  match pride_list with
  | pride1 :: pride2 :: rest =>
      let pride1 := Group_update_stats pride1 in
      let pride2 := Group_update_stats pride2 in
      if prides_join pride1 pride2 then
        ret (Group_join_groups [pride1; pride2] Group_init const.MAX_PRIDE
             :: rest)
      else
        let* pride1_fight_value := random_randint 0 (total_energy pride1) in
        let* pride2_fight_value := random_randint 0 (total_energy pride2) in
        if pride2_fight_value <=? pride1_fight_value
        then ret (win_fight pride1 :: rest)
        else ret (win_fight pride2 :: rest)
  | _ => raise IndexError
  end.

(** The while-loop of [Pride.unify]; every iteration shortens the list by
    one, so [length pride_list] iterations are always enough. *)
Fixpoint Pride_unify_loop (fuel : nat) (pride_list : list Group)
    : M (list Group) :=
  if 1 <? len pride_list then
    match fuel with
    | O => ret pride_list
    | S fuel' =>
        let* pride_list := Pride_unify_step pride_list in
        Pride_unify_loop fuel' pride_list
    end
  else ret pride_list.

(** [Pride.unify] *)
Definition Pride_unify (pride_list : list Group) : M Group :=
  let* pride_list := Pride_unify_loop (length pride_list) pride_list in
  lift (py_index pride_list 0).

(** What a Carviz gets from a hunt: [gain] points of energy, up to
    [MAX_ENERGY_C], and a higher social attitude *)
Definition feed (gain : Z) (carviz : Specie) : Specie :=
  set_social_attitude
    (set_energy carviz (Z.min (energy carviz + gain) const.MAX_ENERGY_C))
    (social_attitude carviz + const.EAT_C)%Q.

(** [Pride.hunting]; the hunted herd is mutated too, so it is returned *)
Definition Pride_hunting (self : Group) (grid : Grid) (cell : Cell)
    (hunted_herd : option Group) : result (Group * option Group * Grid) :=
  match hunted_herd with
  | None =>
      let? carvizes :=
        rfold (fun l carviz =>
                 let? s := truediv (social_attitude carviz) const.HUNGER_C in
                 Ok (l ++ [set_social_attitude carviz s]))
              (population self) [] in
      Ok (set_population self carvizes, None, grid)
  | Some hunted_herd =>
      let hunted_herd :=
        set_population hunted_herd
          (sort energy true (population hunted_herd)) in
      match population hunted_herd with
      | [] => Raise IndexError
      | prey :: remaining =>
          let hunted_herd := set_population hunted_herd remaining in
          let gained_energy := energy prey in
          let self := set_population self
                        (sort energy false (population self)) in
          let? energy_per_carviz :=
            floordiv gained_energy (len (population self)) in
          let? spare_energy :=
            pymod gained_energy (len (population self)) in
          let? carvizes :=
            rfold (fun l n => py_update l n (feed (energy_per_carviz + 1)))
                  (range 0 spare_energy) (population self) in
          let? carvizes :=
            rfold (fun l n => py_update l n (feed energy_per_carviz))
                  (range spare_energy (len (population self))) carvizes in
          Ok (set_population self carvizes, Some hunted_herd,
              grid_set grid 1 cell (grid_at grid 1 cell - 1))
      end
  end.

(** [Pride.spawning]; the source passes [idx_specie=1] here. *)
Definition Pride_spawning (self : Group) (grid : Grid) (cell : Cell)
    : M (Group * Grid) :=
  Group_spawning self grid cell 1 const.AGING_C const.MIN_LIFE_C
                 const.MAX_LIFE_C const.MAX_PRIDE.

(* ------------------------------------------------------------------ *)
(** ** The Planisuss World *)

(** A [dict] keyed by cells, in insertion order *)
Definition Dict (V : Type) : Type := list (Cell * V).

(** [d.get(k, None)] *)
Fixpoint dict_get {V} (d : Dict V) (k : Cell) : option V :=
  match d with
  | [] => None
  | (k', v) :: d' => if cell_eqb k' k then Some v else dict_get d' k
  end.

(** [d[k] = v] *)
Fixpoint dict_set {V} (d : Dict V) (k : Cell) (v : V) : Dict V :=
  match d with
  | [] => [(k, v)]
  | (k', v') :: d' =>
      if cell_eqb k' k then (k', v) :: d' else (k', v') :: dict_set d' k v
  end.

(** [del d[k]] for a key that is present *)
Definition dict_del {V} (d : Dict V) (k : Cell) : Dict V :=
  filter (fun kv => negb (cell_eqb (fst kv) k)) d.

(** [for k, v in d.items()]: the body may replace the value (or mutate it
    in place) and updates the state [s] shared by the iterations. *)
Fixpoint for_items {V W S} (body : S -> Cell -> V -> M (W * S))
    (d : Dict V) (s : S) : M (Dict W * S) :=
  match d with
  | [] => ret ([], s)
  | (k, v) :: d' =>
      let* (w, s) := body s k v in
      let* (d'', s) := for_items body d' s in
      ret ((k, w) :: d'', s)
  end.

(** [class World], without the series kept for the plots and without
    [WATER_PROB] and [n_ground_cells], which no phase of a day reads.
    Between the movement and the unify phases the values of [herds] and
    [prides] are lists of groups, elsewhere they are groups. *)
Record WorldOf (G : Type) : Type := mkWorld {
  NR : Z;
  NC : Z;
  grid : Grid;
  day : Z;
  ground_cells : list Cell;
  herds : Dict G;
  prides : Dict G
}.

Definition World : Type := WorldOf Group.

Definition set_grid {G} (self : WorldOf G) (g : Grid) : WorldOf G :=
  mkWorld (NR self) (NC self) g (day self) (ground_cells self)
          (herds self) (prides self).

Definition set_day {G} (self : WorldOf G) (d : Z) : WorldOf G :=
  mkWorld (NR self) (NC self) (grid self) d (ground_cells self)
          (herds self) (prides self).

Definition set_herds {G H} (self : WorldOf G) (h : Dict H) (p : Dict H)
    : WorldOf H :=
  mkWorld (NR self) (NC self) (grid self) (day self) (ground_cells self) h p.

(** [World.neighbourhood] *)
Definition World_neighbourhood {G} (self : WorldOf G)
    (cell_row cell_col radius : Z) : list Cell :=
  flat_map
    (fun i =>
       flat_map
         (fun j =>
            if existsb (cell_eqb (i, j)) (ground_cells self)
               && negb (cell_eqb (i, j) (cell_row, cell_col))
            then [(i, j)] else [])
         (range (Z.max 0 (cell_col - radius))
                (Z.min (cell_col + radius + 1) (NC self))))
    (range (Z.max 0 (cell_row - radius))
           (Z.min (cell_row + radius + 1) (NR self))).

(** [World.growing] *)
Definition World_growing (self : World) : World :=
  set_grid self
    (fold_left
       (fun g cell =>
          grid_set g 0 cell (Z.min (grid_at g 0 cell + const.GROWING) 100))
       (ground_cells self) (grid self)).

(** The loop of [World.overwhelming] over the keys of one of the two
    dictionaries: the cells to remove and the updated grid *)
Definition overwhelmed {G} (self : WorldOf G) (idx_specie : Z)
    (keys : list Cell) : list Cell * Grid :=
  fold_left
    (fun (acc : list Cell * Grid) cell =>
       let '(remove, g) := acc in
       let sum_vegetob :=
         fold_left (fun x y => x + grid_at g 0 y)
                   (World_neighbourhood self (fst cell) (snd cell) 1) 0 in
       if sum_vegetob =? 800
       then (remove ++ [cell], grid_set g idx_specie cell 0)
       else (remove, g))
    keys ([], grid self).

(** [World.overwhelming] *)
Definition World_overwhelming (self : World) : World :=
  let '(remove_herds, g) := overwhelmed self 1 (map fst (herds self)) in
  let self := set_grid self g in
  let self := set_herds self (fold_left dict_del remove_herds (herds self))
                        (prides self) in
  let '(remove_prides, g) := overwhelmed self 2 (map fst (prides self)) in
  let self := set_grid self g in
  set_herds self (herds self) (fold_left dict_del remove_prides (prides self)).

(** The inner loop of [World.movement]:
    [res[new_cell] = res.get(new_cell, list()) + [group]] for every group
    that the movement of one group returns *)
Definition collect_groups (res : Dict (list Group))
    (after_movement : list (Group * Cell)) : Dict (list Group) :=
  fold_left
    (fun res (new_group_cell : Group * Cell) =>
       let new_cell := snd new_group_cell in
       dict_set res new_cell
         (match dict_get res new_cell with
          | Some l => l
          | None => []
          end ++ [fst new_group_cell]))
    after_movement res.

(** [World.movement] *)
Definition World_movement (self : World) : M (WorldOf (list Group)) :=
  let* res_herds :=
    foldM (fun res_herds (cell_herd : Cell * Group) =>
             let '(cell, herd) := cell_herd in
             let neighbours :=
               World_neighbourhood self (fst cell) (snd cell)
                                   const.NEIGHBORHOOD_E in
             let* after_movement_herds :=
               lift (Herd_movement herd (grid self) cell neighbours) in
             ret (collect_groups res_herds after_movement_herds))
          (herds self) [] in
  let* res_prides :=
    foldM (fun res_prides (cell_pride : Cell * Group) =>
             let '(cell, pride) := cell_pride in
             let neighbours :=
               World_neighbourhood self (fst cell) (snd cell)
                                   const.NEIGHBORHOOD_C in
             let* after_movement_prides :=
               Pride_movement pride (grid self) cell neighbours in
             ret (collect_groups res_prides after_movement_prides))
          (prides self) [] in
  ret (set_herds self res_herds res_prides).

(** [World.update_grid] *)
Definition accumulate_animals (acc_layer : Z -> Z -> Z)
    (item : Cell * Group) : Z -> Z -> Z :=
  let '(cell, group) := item in
  fun i j => if cell_eqb (i, j) cell
             then acc_layer i j + len (population group)
             else acc_layer i j.

Definition zeros : Z -> Z -> Z := fun _ _ => 0.

Definition World_update_grid (self : World) : World :=
  let self :=
    set_grid self
      (grid_set_layer (grid self) 1
         (fold_left accumulate_animals (herds self) zeros)) in
  set_grid self
    (grid_set_layer (grid self) 2
       (fold_left accumulate_animals (prides self) zeros)).

(** [World.unify_groups] *)
Definition World_unify_groups (self : WorldOf (list Group)) : M World :=
  let* (new_herds, _) :=
    for_items (fun (_ : unit) (_ : Cell) herd_list =>
                 let* _ := lift (py_index herd_list 0) in
                 ret (Herd_unify herd_list, tt))
              (herds self) tt in
  let* (new_prides, _) :=
    for_items (fun (_ : unit) (_ : Cell) pride_list =>
                 let* _ := lift (py_index pride_list 0) in
                 let* pride := Pride_unify pride_list in
                 ret (pride, tt))
              (prides self) tt in
  ret (World_update_grid (set_herds self new_herds new_prides)).

(** [World.grazing] *)
Definition World_grazing (self : World) : M World :=
  let* (new_herds, g) :=
    for_items (fun g cell herd => lift (Herd_grazing herd g cell))
              (herds self) (grid self) in
  ret (set_grid (set_herds self new_herds (prides self)) g).

(** [World.hunting]; the state of the loop is the grid and the herds. *)
Definition World_hunting (self : World) : M World :=
  let* (new_prides, gh) :=
    for_items
      (fun (gh : Grid * Dict Group) cell pride =>
         let '(g, hs) := gh in
         let hunted_herd := dict_get hs cell in
         let* (pride_herd, g) :=
           lift (Pride_hunting pride g cell hunted_herd) in
         let '(pride, hunted_herd) := pride_herd in
         let hs := match hunted_herd with
                   | Some herd => dict_set hs cell herd
                   | None => hs
                   end in
         ret (pride, (g, hs)))
      (prides self) (grid self, herds self) in
  let '(g, hs) := gh in
  ret (set_grid (set_herds self hs new_prides) g).

(** [World.spawning] *)
Definition World_spawning (self : World) : M World :=
  let* (new_herds, g) :=
    for_items (fun g cell herd => Herd_spawning herd g cell)
              (herds self) (grid self) in
  let* (new_prides, g) :=
    for_items (fun g cell pride => Pride_spawning pride g cell)
              (prides self) g in
  ret (set_grid (set_herds self new_herds new_prides) g).

(** [World.remove_empty_groups] *)
Definition empty_cells (d : Dict Group) : list Cell :=
  map fst (filter (fun (cg : Cell * Group) =>
                     len (population (snd cg)) =? 0) d).

Definition World_remove_empty_groups (self : World) : World :=
  let remove_herds := empty_cells (herds self) in
  let self := set_herds self (fold_left dict_del remove_herds (herds self))
                        (prides self) in
  let remove_prides := empty_cells (prides self) in
  set_herds self (herds self) (fold_left dict_del remove_prides (prides self)).

(** [World.update_stats]: the stats of the groups and the two animal
    layers of the grid (the series for the plots are not modelled) *)
Definition count_layer (d : Dict Group) : Z -> Z -> Z :=
  fold_left
    (fun (layer : Z -> Z -> Z) (cg : Cell * Group) =>
       let '(cell, group) := cg in
       fun i j => if cell_eqb (i, j) cell
                  then len (population group) else layer i j)
    d zeros.

Definition World_update_stats (self : World) : World :=
  let self :=
    set_herds self
      (map (fun cg : Cell * Group => (fst cg, Group_update_stats (snd cg)))
           (herds self))
      (map (fun cg : Cell * Group => (fst cg, Group_update_stats (snd cg)))
           (prides self)) in
  let erbast_grid := count_layer (herds self) in
  let carviz_grid := count_layer (prides self) in
  let self := set_grid self (grid_set_layer (grid self) 1 erbast_grid) in
  set_grid self (grid_set_layer (grid self) 2 carviz_grid).

(** [World.a_day_on_planysuss] *)
Definition World_a_day_on_planysuss (self : World) : M World :=
  let self := World_growing self in
  let self := World_overwhelming self in
  let* moved_world := World_movement self in
  let* self := World_unify_groups moved_world in
  let* self := World_grazing self in
  let* self := World_hunting self in
  let* self := World_spawning self in
  let self := World_remove_empty_groups self in
  let self := World_update_stats self in
  ret (set_day self (day self + 1)).

(* ------------------------------------------------------------------ *)
(** ** Sample groups and worlds *)

Definition group_of (l : list Specie) : Group := set_population Group_init l.

(** A grid with Vegetob density [veg] everywhere, [erbast] Erbast and
    [carviz] Carviz in every cell *)
Definition flat_grid (veg erbast carviz : Z) : Grid :=
  fun k _ _ => if k =? 0 then veg else if k =? 1 then erbast else carviz.

Definition no_draws : Random := mkRandom [] [].

(** Two herds of 200 and 102 Erbast that meet in one cell *)
Definition crowded_herds : list Group :=
  [ group_of (map (fun k => create_animal (Z.of_nat k) 500 (1 # 2))
                  (seq 1 200));
    group_of (map (fun k => create_animal (Z.of_nat k) 400 (1 # 4))
                  (seq 1 102)) ].

(** An Erbast one day before its lifetime of 600 days *)
Definition elder : Specie := mkSpecie 50 600 599 (1 # 2) false.

(** A group of two animals of energy 50: [calm] has ratio
    [energy / social_attitude] 100, [restless] has ratio 500. *)
Definition calm : Specie := mkSpecie 50 600 5 (1 # 2) false.
Definition restless : Specie := mkSpecie 50 600 5 (1 # 10) false.
Definition resting_group : Group := group_of [calm; restless].

(** A strong Erbast and a sociable Carviz, both within the documented
    ranges [0, MAX_ENERGY] and [0, 1] *)
Definition strong_erbast : Specie := mkSpecie 100 600 5 (1 # 2) false.
Definition sociable_carviz : Specie := mkSpecie 40 600 5 (99 # 100) false.
Definition prey_herd : Group :=
  group_of [mkSpecie 10 600 5 (1 # 2) false; mkSpecie 7 600 5 (1 # 2) false].

(** Two prides of two Carviz of social attitude 0.3 *)
Definition shy_carviz (e : Z) : Specie := mkSpecie e 600 5 (3 # 10) false.
Definition shy_pride1 : Group := group_of [shy_carviz 20; shy_carviz 30].
Definition shy_pride2 : Group := group_of [shy_carviz 40; shy_carviz 50].

(** Draws for [world_init]: 10 animals of energy 50 and lifetime 500, the
    first with [random.random()] returning 0.0, the others 0.5 *)
Definition first_draws : Random :=
  mkRandom (0 :: flat_map (fun _ => [50; 499]) (seq 0 10))
           (0%Q :: repeat (1 # 2) 9).

(** A pride of five Carviz and a herd whose strongest Erbast has energy 23 *)
Definition hungry_pride : Group :=
  group_of (map (fun e => mkSpecie e 600 5 (1 # 2) false) [10; 50; 1; 7; 7]).
Definition hunted_herd23 : Group :=
  group_of (map (fun e => mkSpecie e 600 5 (1 # 2) false) [1; 23; 1]).

(** A world with four ground cells, a herd in (2, 2) and a pride in (2, 3) *)
Definition small_ground : list Cell := [(2, 2); (2, 3); (3, 2); (3, 3)].

Definition small_grid : Grid :=
  fun k i j =>
    if k =? 0 then
      if existsb (cell_eqb (i, j)) small_ground then 40 else -100
    else if k =? 1 then
      if cell_eqb (i, j) (2, 2) then 3 else 0
    else
      if cell_eqb (i, j) (2, 3) then 2 else 0.

Definition small_world : World :=
  mkWorld const.NUMCELLS_R const.NUMCELLS_C small_grid 1 small_ground
    [((2, 2), group_of [calm; restless; strong_erbast])]
    [((2, 3), group_of [sociable_carviz; shy_carviz 30])].

Definition small_draws : Random := mkRandom [1; 4; 2; 3] [1 # 3].

(** The world after the first day of [small_world] *)
Definition after_one_day : World :=
  match World_a_day_on_planysuss small_world small_draws with
  | Ok (self, _) => self
  | Raise _ => small_world
  end.

(** A world whose only herd holds an Erbast of social attitude 0 *)
Definition unsociable_world : World :=
  mkWorld const.NUMCELLS_R const.NUMCELLS_C small_grid 1 small_ground
    [((2, 2), group_of [calm; mkSpecie 50 500 0 0 false])] [].

(* ------------------------------------------------------------------ *)
(** ** Properties of the phases *)

(** The value of [energy / social_attitude] when the division is defined *)
Definition ratio (a : Specie) : Q :=
  (inject_Z (energy a) / social_attitude a)%Q.

(** All the animals that a movement returns, group after group *)
Definition animals (res : list (Group * Cell)) : list Specie :=
  flat_map (fun group_cell => population (fst group_cell)) res.

(** What a movement does to the energy of a population [before]: it splits
    into stayers, whose energy is kept, and movers, which had more than 1
    point of energy, paid 1 and are flagged as moved. *)
Definition movement_energy_spec (before : list Specie)
    (res : list (Group * Cell)) : Prop :=
  exists stayers movers stayed arrived : list Specie,
    Permutation before (stayers ++ movers)
    /\ animals res = stayed ++ arrived
    /\ Forall2 (fun a0 a => energy a = energy a0) stayers stayed
    /\ Forall2 (fun a0 a => 1 < energy a0
                            /\ energy a = energy a0 - 1
                            /\ 1 <= energy a
                            /\ moved a = true)
               movers arrived.

(** The individuals that leave a staying group, as the comments of
    [planisuss_constants.py] describe them:
    [energy / social_attitude > MAX_MOVEMENT], and an energy above 1 *)
Definition diverges (MAX_MOVEMENT : Z) (a : Specie) : bool :=
  Qgtb (ratio a) (inject_Z MAX_MOVEMENT) && (1 <? energy a).

(** The join test on the averages of the social attitudes, as the comment
    on [JOIN_PRIDE] words it *)
Definition mean_social_attitude (pride : Group) : Q :=
  (total_social_attitude pride / inject_Z (len (population pride)))%Q.

Definition means_join (pride1 pride2 : Group) : bool :=
  Qgtb (mean_social_attitude pride1 + mean_social_attitude pride2)
       const.JOIN_PRIDE
  && (len (population pride1) + len (population pride2) <? const.MAX_PRIDE).

(** The members of a pride, in ascending order of energy, after a prize has
    been shared: the first [prize mod n] get [prize // n + 1] each, the
    others [prize // n]. *)
Definition shared (prize : Z) (hunters : list Specie) : list Specie :=
  let n := len hunters in
  map (feed (prize / n + 1)) (firstn (Z.to_nat (prize mod n)) hunters)
  ++ map (feed (prize / n)) (skipn (Z.to_nat (prize mod n)) hunters).

(** What a hunt does to a pride [self] and to the herd of its cell *)
Definition hunting_spec (self herd : Group) (g : Grid) (cell : Cell) : Prop :=
  exists (prey : Specie) (remaining : list Specie),
    let prize := energy prey in
    let n := len (population self) in
    let hunters := sort energy false (population self) in
    Permutation (population herd) (prey :: remaining)
    /\ Forall (fun erbast => energy erbast <= prize) remaining
    /\ Permutation hunters (population self)
    /\ StronglySorted (fun a b => energy a <= energy b) hunters
    /\ Pride_hunting self g cell (Some herd)
       = Ok (set_population self (shared prize hunters),
             Some (set_population herd remaining),
             grid_set g 1 cell (grid_at g 1 cell - 1))
    /\ grid_at (grid_set g 1 cell (grid_at g 1 cell - 1)) 1 cell
       = grid_at g 1 cell - 1
    /\ 0 <= prize mod n < n
    /\ (prize / n + 1) * (prize mod n) + (prize / n) * (n - prize mod n)
       = prize
    /\ forall gain carviz,
         energy (feed gain carviz)
         = Z.min (energy carviz + gain) const.MAX_ENERGY_C
         /\ social_attitude (feed gain carviz)
            = (social_attitude carviz + const.EAT_C)%Q.

(** The keys of a [dict] *)
Definition keys {V} (d : Dict V) : list Cell := map fst d.

(** The size of the group of a cell, 0 when the cell has no group *)
Definition resident_count (d : Dict Group) (cell : Cell) : Z :=
  match dict_get d cell with
  | Some group => len (population group)
  | None => 0
  end.

(** The two animal layers of the grid agree with the groups. *)
Definition counts_consistent (self : World) : Prop :=
  forall cell,
    grid_at (grid self) 1 cell = resident_count (herds self) cell
    /\ grid_at (grid self) 2 cell = resident_count (prides self) cell.

(** No cell is twice a key of [herds] or of [prides]. *)
Definition well_keyed {G} (self : WorldOf G) : Prop :=
  NoDup (keys (herds self)) /\ NoDup (keys (prides self)).

(* ------------------------------------------------------------------ *)
(** ** Properties of the world *)

(** The sum that [World.overwhelming] compares with 800: the Vegetob
    density of the ground cells around [cell] *)
Definition sum_vegetob {G} (self : WorldOf G) (cell : Cell) : Z :=
  fold_left (fun x y => x + grid_at (grid self) 0 y)
            (World_neighbourhood self (fst cell) (snd cell) 1) 0.

(** The eight cells around a cell *)
Definition around (cell : Cell) : list Cell :=
  let '(i, j) := cell in
  [(i - 1, j - 1); (i - 1, j); (i - 1, j + 1);
   (i, j - 1); (i, j + 1);
   (i + 1, j - 1); (i + 1, j); (i + 1, j + 1)].

(** The cached totals of a group are those of its population. *)
Definition stats_fresh (group : Group) : Prop :=
  total_energy group = fold_left (fun x y => x + energy y) (population group) 0
  /\ total_lifetime group
     = fold_left (fun x y => x + lifetime y) (population group) 0
  /\ total_age group = fold_left (fun x y => x + age y) (population group) 0
  /\ total_social_attitude group
     = fold_left (fun x y => x + social_attitude y)%Q (population group) 0%Q.

(** What a phase leaves of the world apart from the groups and the grid *)
Definition same_frame {G H} (self : WorldOf G) (self' : WorldOf H) : Prop :=
  NR self' = NR self /\ NC self' = NC self
  /\ ground_cells self' = ground_cells self /\ day self' = day self.

(** A world after a deadly day: the herd of (2, 2) has lost all its
    animals, the herd of (2, 3) holds one *)
Definition hollow_world : World :=
  mkWorld const.NUMCELLS_R const.NUMCELLS_C small_grid 1 small_ground
    [((2, 2), group_of []); ((2, 3), group_of [calm])]
    [((3, 3), group_of [])].

(* ------------------------------------------------------------------ *)
(** ** Properties of the groups *)

(** The sum of the energies of a list of animals *)
Definition sum_energy (l : list Specie) : Z :=
  fold_left (fun x y => x + energy y) l 0.

(** An Erbast that grazed, and one that found nothing to graze *)
Definition grazed (erbast : Specie) : Specie :=
  set_energy erbast (energy erbast + 1).

Definition starved (erbast : Specie) : Specie :=
  set_social_attitude erbast (social_attitude erbast / const.HUNGER_E)%Q.

(** The Erbast of a herd that did not move today *)
Definition static (self : Group) : list Specie :=
  filter (fun erbast => negb (moved erbast)) (population self).

(** A Carviz after a day without a hunt *)
Definition hungry_carviz (carviz : Specie) : Specie :=
  set_social_attitude carviz (social_attitude carviz / const.HUNGER_C)%Q.

(** A pride within the cap whose Carviz have no negative energy *)
Definition sound_pride (pride : Group) : Prop :=
  len (population pride) <= const.MAX_PRIDE
  /\ Forall (fun carviz => 0 <= energy carviz) (population pride).

(** Three prides that meet in one cell *)
Definition meeting_prides : list Group :=
  [shy_pride1; group_of [sociable_carviz]; shy_pride2].

(** An animal as [Group.world_init] documents it *)
Definition newborn (MAX_ENERGY MAX_LIFE : Z) (animal : Specie) : Prop :=
  0 <= energy animal <= MAX_ENERGY
  /\ 1 <= lifetime animal <= MAX_LIFE
  /\ (0 <= social_attitude animal)%Q /\ (social_attitude animal < 1)%Q
  /\ age animal = 0
  /\ moved animal = false.


(** Where the groups that a movement returns may stand: in the cell of
    the group, or in a neighbour where [layer] is maximal *)
Definition at_home_or_best (g : Grid) (layer : Z) (cell : Cell)
    (neighbours : list Cell) (res : list (Group * Cell)) : Prop :=
  Forall (fun group_cell =>
            snd group_cell = cell
            \/ (In (snd group_cell) neighbours
                /\ forall n, In n neighbours ->
                             grid_at g layer n
                             <= grid_at g layer (snd group_cell)))
         res.

(** The number of animals of a list of groups, and of the groups of a
    dictionary, [count] giving the number of animals of a value *)
Definition headcount (groups : list Group) : Z :=
  fold_left (fun n group => n + len (population group)) groups 0.

Definition census {G} (count : G -> Z) (d : Dict G) : Z :=
  fold_left (fun n cg => n + count (snd cg)) d 0.

Definition size (group : Group) : Z := len (population group).

(* ------------------------------------------------------------------ *)
(** ** The creation of the world *)

(** [grid[k, i, :] = v] and [grid[k, :, j] = v] on an array of [NR] rows
    and [NC] columns *)
Definition set_row (grid : Grid) (k i NC v : Z) : Grid :=
  fun k' i' j' =>
    if (k' =? k) && (i' =? i) && (0 <=? j') && (j' <? NC)
    then v else grid k' i' j'.

Definition set_col (grid : Grid) (k j NR v : Z) : Grid :=
  fun k' i' j' =>
    if (k' =? k) && (j' =? j) && (0 <=? i') && (i' <? NR)
    then v else grid k' i' j'.

(** The cells that the two nested loops of [World.__init__] visit, in
    their order *)
Definition inner_cells (NR NC : Z) : list Cell :=
  flat_map (fun i => map (fun j => (i, j)) (range 1 (NC - 1)))
           (range 1 (NR - 1)).

(** The body of these loops: the cell becomes water or ground *)
Definition fill_cell (acc : Grid * list Cell) (cell : Cell)
    : M (Grid * list Cell) :=
  let '(grid, ground_cells) := acc in
  let* u := random_random in
  if Qle_bool u const.WATER_PROB then
    ret (grid_set grid 0 cell (-100), ground_cells)
  else
    let* n_vegetobs := random_randint 0 100 in
    ret (grid_set grid 0 cell n_vegetobs, ground_cells ++ [cell]).

(** One of the two loops of [World.__init__] that create the groups of a
    species: [occupied] is the set of the cells already chosen. *)
Definition place_group
    (world_init : Group -> Grid -> Cell -> M (Group * Grid))
    (ground_cells : list Cell)
    (acc : list Cell * Grid * Dict Group) (_ : Z)
    : M (list Cell * Grid * Dict Group) :=
  let '(occupied, grid, groups) := acc in
  let* cell :=
    random_choice
      (filter (fun x => negb (existsb (cell_eqb x) occupied)) ground_cells) in
  let occupied := cell :: occupied in
  let new_group := Group_init in
  let* (new_group, grid) := world_init new_group grid cell in
  ret (occupied, grid, dict_set groups cell new_group).

(** [World.__init__] *)
Definition World_init : M World :=
  let NR := const.NUMCELLS_R in
  let NC := const.NUMCELLS_C in
  let grid : Grid := fun _ _ _ => 0 in
  let day := 1 in
  let* (grid, ground_cells) := foldM fill_cell (inner_cells NR NC) (grid, []) in
  let grid := set_row grid 0 0 NC (-100) in
  let grid := set_row grid 0 (NR - 1) NC (-100) in
  let grid := set_col grid 0 0 NR (-100) in
  let grid := set_col grid 0 (NC - 1) NR (-100) in
  let* num_herds := random_randint const.NUM_HERDS_LB const.NUM_HERDS_UB in
  let* (occupied_grid, herds) :=
    foldM (place_group Herd_world_init ground_cells)
          (range 0 num_herds) ([], grid, []) in
  let grid := snd occupied_grid in
  let* num_prides := random_randint const.NUM_PRIDES_LB const.NUM_PRIDES_UB in
  let* (occupied_grid, prides) :=
    foldM (place_group Pride_world_init ground_cells)
          (range 0 num_prides) ([], grid, []) in
  let grid := snd occupied_grid in
  ret (mkWorld NR NC grid day ground_cells herds prides).

(** Draws for a first world: no water, density 40 everywhere, 50 herds
    and 20 prides in the first free ground cells *)
Definition plain_draws : Random :=
  mkRandom (repeat 40 2304) (repeat (1 # 2) 2304).

(** What the loop that creates the groups of a species keeps true of its
    state after [n] iterations: [g0] is the grid before the loop and
    [idx_specie] the layer of the species. *)
Definition placed (idx_specie LB UB MAX_ENERGY MAX_LIFE : Z)
    (ground_cells : list Cell) (g0 : Grid)
    (state : list Cell * Grid * Dict Group) (n : nat) : Prop :=
  let '(occupied, g, groups) := state in
  NoDup (keys groups)
  /\ (forall c, In c occupied <-> In c (keys groups))
  /\ incl (keys groups) ground_cells
  /\ length groups = n
  /\ (forall c, grid_at g idx_specie c
                = grid_at g0 idx_specie c + resident_count groups c)
  /\ (forall k c, k <> idx_specie -> grid_at g k c = grid_at g0 k c)
  /\ Forall (fun cg => LB <= size (snd cg) <= UB
                       /\ Forall (newborn MAX_ENERGY MAX_LIFE)
                                 (population (snd cg)))
            groups.

(** The ground cells of a created world and the water around them *)
Definition terrain_created (self : World) : Prop :=
  NR self = const.NUMCELLS_R /\ NC self = const.NUMCELLS_C /\ day self = 1
  /\ NoDup (ground_cells self)
  /\ (forall i j, In (i, j) (ground_cells self) ->
        1 <= i <= NR self - 2 /\ 1 <= j <= NC self - 2
        /\ 0 <= grid_at (grid self) 0 (i, j) <= 100)
  /\ (forall i j, 0 <= i < NR self -> 0 <= j < NC self ->
        ~ In (i, j) (ground_cells self) ->
        grid_at (grid self) 0 (i, j) = -100).

(** The herds and prides of a created world *)
Definition groups_created (self : World) : Prop :=
  well_keyed self
  /\ incl (keys (herds self)) (ground_cells self)
  /\ incl (keys (prides self)) (ground_cells self)
  /\ counts_consistent self
  /\ const.NUM_HERDS_LB <= len (herds self) <= const.NUM_HERDS_UB
  /\ const.NUM_PRIDES_LB <= len (prides self) <= const.NUM_PRIDES_UB
  /\ Forall (fun cg =>
               const.NUM_ERBAST_LB <= size (snd cg) <= const.NUM_ERBAST_UB
               /\ Forall (newborn const.MAX_ENERGY_E const.MAX_LIFE_E)
                         (population (snd cg)))
            (herds self)
  /\ Forall (fun cg =>
               const.NUM_CARVIZ_LB <= size (snd cg) <= const.NUM_CARVIZ_UB
               /\ Forall (newborn const.MAX_ENERGY_C const.MAX_LIFE_C)
                         (population (snd cg)))
            (prides self).

(** The world that [World.__init__] creates with [plain_draws], and the
    draws that are left *)
Definition plain_world : World :=
  match World_init plain_draws with
  | Ok (self, _) => self
  | Raise _ => small_world
  end.

Definition plain_rest : Random :=
  match World_init plain_draws with
  | Ok (_, r) => r
  | Raise _ => no_draws
  end.

(* ------------------------------------------------------------------ *)
(** ** Facts about the Python model *)

Unset Implicit Arguments.

Lemma len_nonneg {A} (l : list A) : 0 <= len l.
Proof. unfold len. lia. Qed.

Lemma len_app {A} (l1 l2 : list A) : len (l1 ++ l2) = len l1 + len l2.
Proof. unfold len. rewrite length_app. lia. Qed.

Lemma len_map {A B} (f : A -> B) (l : list A) : len (map f l) = len l.
Proof. unfold len. now rewrite length_map. Qed.

Lemma cell_eqb_eq (c d : Cell) : cell_eqb c d = true <-> c = d.
Proof.
  destruct c as [ci cj], d as [di dj]. unfold cell_eqb. simpl.
  rewrite andb_true_iff, !Z.eqb_eq. split.
  - intros [-> ->]. reflexivity.
  - intros E. inversion E. auto.
Qed.

Lemma cell_eqb_refl (c : Cell) : cell_eqb c c = true.
Proof. now apply cell_eqb_eq. Qed.

Lemma cell_eqb_neq (c d : Cell) : cell_eqb c d = false <-> c <> d.
Proof.
  rewrite <- cell_eqb_eq. destruct (cell_eqb c d); split; congruence.
Qed.

Section SortFacts.
Variable A : Type.
Variable key : A -> Z.
Variable reverse : bool.

Lemma before_total (x y : A) :
  before key reverse x y = false -> before key reverse y x = true.
Proof. unfold before. destruct reverse; intros H; lia. Qed.

Lemma before_trans (x y z : A) :
  before key reverse x y = true -> before key reverse y z = true ->
  before key reverse x z = true.
Proof. unfold before. destruct reverse; intros H1 H2; lia. Qed.

Lemma sort_insert_perm (x : A) (l : list A) :
  Permutation (sort_insert key reverse x l) (x :: l).
Proof.
  induction l as [|y l IH]; simpl.
  - reflexivity.
  - destruct (before key reverse x y).
    + reflexivity.
    + rewrite IH. apply perm_swap.
Qed.

Lemma sort_perm (l : list A) : Permutation (sort key reverse l) l.
Proof.
  induction l as [|x l IH]; simpl.
  - reflexivity.
  - rewrite sort_insert_perm. now constructor.
Qed.

Lemma sort_length (l : list A) : length (sort key reverse l) = length l.
Proof. apply Permutation_length, sort_perm. Qed.

Lemma sort_len (l : list A) : len (sort key reverse l) = len l.
Proof. unfold len. now rewrite sort_length. Qed.

Lemma sort_insert_sorted (x : A) (l : list A) :
  StronglySorted (ordered key reverse) l -> StronglySorted (ordered key reverse) (sort_insert key reverse x l).
Proof.
  induction 1 as [|y l Hs IH Hy]; simpl.
  - repeat constructor.
  - destruct (before key reverse x y) eqn:E.
    + constructor.
      * now constructor.
      * constructor; [exact E|].
        eapply Forall_impl; [|exact Hy].
        intros z Hz. now apply before_trans with y.
    + constructor; [exact IH|].
      apply (Permutation_Forall (Permutation_sym (sort_insert_perm x l))).
      constructor; [now apply before_total | exact Hy].
Qed.

Lemma sort_sorted (l : list A) : StronglySorted (ordered key reverse) (sort key reverse l).
Proof.
  induction l as [|x l IH]; simpl.
  - constructor.
  - now apply sort_insert_sorted.
Qed.

Lemma sort_nil_inv (l : list A) : sort key reverse l = [] -> l = [].
Proof.
  intros H. apply length_zero_iff_nil.
  rewrite <- sort_length, H. reflexivity.
Qed.
End SortFacts.

Lemma pooled_population (group_list : list Group) (acc : list Specie) :
  fold_left (fun x y => x ++ population y) group_list acc
  = acc ++ flat_map population group_list.
Proof.
  revert acc. induction group_list as [|g gl IH]; intros acc; simpl.
  - now rewrite app_nil_r.
  - rewrite IH. now rewrite <- app_assoc.
Qed.

(** What [Group.join_groups] keeps of an oversized pool *)
Lemma join_groups_oversized (group_list : list Group) (res_group : Group)
    (MAX_GROUP : Z) :
  0 <= MAX_GROUP ->
  MAX_GROUP < len (flat_map population group_list) ->
  len (population (Group_join_groups group_list res_group MAX_GROUP))
  = MAX_GROUP + 1.
Proof.
  intros Hmax Hlen. unfold Group_join_groups. simpl.
  rewrite pooled_population. simpl.
  destruct (Z.ltb_spec MAX_GROUP (len (flat_map population group_list)))
    as [_|Hc]; [|lia].
  simpl. unfold slice, len in *. simpl.
  rewrite length_firstn, sort_length. lia.
Qed.

Lemma join_groups_within (group_list : list Group) (res_group : Group)
    (MAX_GROUP : Z) :
  len (flat_map population group_list) <= MAX_GROUP ->
  population (Group_join_groups group_list res_group MAX_GROUP)
  = flat_map population group_list.
Proof.
  intros Hlen. unfold Group_join_groups. simpl.
  rewrite pooled_population. simpl.
  destruct (Z.ltb_spec MAX_GROUP (len (flat_map population group_list)))
    as [Hc|_]; [lia|reflexivity].
Qed.

(* ------------------------------------------------------------------ *)
(** ** Unify: the cap on the size of a group *)

(** C1. Pooling herds of 200 and 102 Erbast leaves a herd of 301, one more
    than [MAX_HERD]: [Group.join_groups] slices the sorted pool at
    [MAX_GROUP + 1], so the cap is exceeded by one. *)
Theorem herd_unify_exceeds_cap :
  len (flat_map population crowded_herds) = 302 /\
  len (population (Herd_unify crowded_herds)) = const.MAX_HERD + 1 /\
  const.MAX_HERD < len (population (Herd_unify crowded_herds)).
Proof.
  assert (H : len (flat_map population crowded_herds) = 302)
    by (vm_compute; reflexivity).
  assert (L : len (population (Herd_unify crowded_herds))
              = const.MAX_HERD + 1).
  { unfold Herd_unify. apply join_groups_oversized.
    - unfold const.MAX_HERD. lia.
    - rewrite H. unfold const.MAX_HERD. lia. }
  split; [exact H | split; [exact L | rewrite L; lia]].
Qed.

(* ------------------------------------------------------------------ *)
(** ** Spawning: what the offsprings inherit *)

Lemma random_randint_ok (a b : Z) (r : Random) :
  a <= b ->
  random_randint a b r
  = Ok (a + hd 0 (int_draws r) mod (b - a + 1),
        mkRandom (tl (int_draws r)) (unit_draws r)).
Proof.
  intros H. unfold random_randint.
  destruct (Z.ltb_spec b a); [lia|]. reflexivity.
Qed.

Lemma random_randint_range (a b k : Z) :
  a <= b -> a <= a + k mod (b - a + 1) <= b.
Proof.
  intros H. pose proof (Z.mod_pos_bound k (b - a + 1)). lia.
Qed.

(** The draws of [offspring_stats] never fail for a parent that passed the
    lifetime check of [Group.spawning]. *)
Lemma offspring_stats_ok (animal : Specie) (MAX_LIFE : Z) (r : Random) :
  1 <= lifetime animal -> 1 <= MAX_LIFE ->
  exists e1 l1 s1 r',
    offspring_stats animal MAX_LIFE r
    = Ok ((e1, l1, s1),
          (energy animal - e1, 2 * lifetime animal - l1,
           (2 * social_attitude animal - s1)%Q), r')
    /\ 1 <= e1 <= Z.max 1 (energy animal - 1)
    /\ 1 <= l1 <= Z.min (2 * lifetime animal - 1) MAX_LIFE.
Proof.
  intros Hl Hm. unfold offspring_stats, bind.
  rewrite random_randint_ok by lia.
  rewrite random_randint_ok by lia.
  unfold random_uniform, random_random, next_unit, bind, ret.
  do 4 eexists. split; [reflexivity|].
  split; apply random_randint_range; lia.
Qed.

(** C3. A parent that reproduces in [Group.spawning] (its energy is not 0
    after the aging of the day, its lifetime is not below [MIN_LIFE], its
    age reached its lifetime) has two offsprings drawn whose energies sum
    to the energy that the parent has when it reproduces and whose
    lifetimes sum to twice its lifetime; the animals that the step appends
    to the population are among these two. *)
Theorem reproduction_conserves_energy_and_lifetime
    (animal : Specie) (cell : Cell)
    (idx_specie AGING MIN_LIFE MAX_LIFE MAX_GROUP : Z)
    (Ls : list Specie) (g : Grid) (r : Random) :
  let parent := aging animal AGING in
  1 <= MIN_LIFE -> 1 <= MAX_LIFE ->
  energy parent <> 0 ->
  MIN_LIFE <= lifetime parent ->
  age parent = lifetime parent ->
  exists e1 l1 s1 e2 l2 s2 r',
    offspring_stats parent MAX_LIFE r = Ok ((e1, l1, s1), (e2, l2, s2), r')
    /\ e1 + e2 = energy parent
    /\ l1 + l2 = 2 * lifetime parent
    /\ exists inserted g',
         spawning_step cell idx_specie AGING MIN_LIFE MAX_LIFE MAX_GROUP
                       (Ls, g) animal r
         = Ok (Ls ++ inserted, g', r')
         /\ incl inserted [create_animal e1 l1 s1; create_animal e2 l2 s2].
Proof.
  intros parent Hmin Hmax He Hl Ha.
  destruct (offspring_stats_ok parent MAX_LIFE r) as (e1 & l1 & s1 & r' & E & _);
    [lia | lia |].
  exists e1, l1, s1, (energy parent - e1), (2 * lifetime parent - l1),
         (2 * social_attitude parent - s1)%Q, r'.
  split; [exact E|]. split; [lia|]. split; [lia|].
  unfold spawning_step. fold parent.
  destruct (Z.eqb_spec (energy parent) 0) as [|_]; [contradiction|].
  destruct (Z.ltb_spec (lifetime parent) MIN_LIFE) as [|_]; [lia|].
  destruct (Z.eqb_spec (age parent) (lifetime parent)) as [_|]; [|contradiction].
  cbn [orb]. unfold bind. rewrite E.
  destruct (energy parent - e1 <=? e1);
    destruct (grid_at g idx_specie cell <? MAX_GROUP); unfold ret;
    rewrite <- ?app_assoc; cbn [app];
    do 2 eexists; (split; [reflexivity|]);
    intros x Hx; simpl in *; tauto.
Qed.

Lemma reproduction_conserves_witness :
  exists e1 l1 s1 e2 l2 s2 r',
    offspring_stats (aging elder const.AGING_E) const.MAX_LIFE_E no_draws
    = Ok ((e1, l1, s1), (e2, l2, s2), r')
    /\ e1 + e2 = 49
    /\ l1 + l2 = 1200
    /\ exists inserted g',
         spawning_step (2, 2) 1 const.AGING_E const.MIN_LIFE_E
                       const.MAX_LIFE_E const.MAX_HERD
                       ([], flat_grid 50 1 0) elder no_draws
         = Ok ([] ++ inserted, g', r')
         /\ incl inserted [create_animal e1 l1 s1; create_animal e2 l2 s2].
Proof.
  apply (reproduction_conserves_energy_and_lifetime
           elder (2, 2) 1 const.AGING_E const.MIN_LIFE_E const.MAX_LIFE_E
           const.MAX_HERD [] (flat_grid 50 1 0) no_draws);
    vm_compute; congruence.
Defined.

(** C8. An Erbast of lifetime 600 that reproduces can get an offspring of
    lifetime 1199, above [MAX_LIFE_E]: the draw of [lifetime1] is bounded
    above by [MAX_LIFE] but not below by [2 * lifetime - MAX_LIFE], so
    [lifetime2 = 2 * lifetime - lifetime1] is not bounded by [MAX_LIFE]. *)
Theorem offspring_lifetime_exceeds_max_life :
  match Herd_spawning (group_of [elder]) (flat_grid 50 1 0) (2, 2) no_draws with
  | Ok (herd, _, _) =>
      map lifetime (population herd) = [1199; 1]
      /\ Exists (fun a => const.MAX_LIFE_E < lifetime a) (population herd)
  | Raise _ => False
  end.
Proof.
  vm_compute. split; [reflexivity|]. apply Exists_cons_hd. reflexivity.
Qed.

(* ------------------------------------------------------------------ *)
(** ** Movement *)

Lemma rbind_Ok_inv {A B} (m : result A) (k : A -> result B) (b : B) :
  rbind m k = Ok b -> exists a, m = Ok a /\ k a = Ok b.
Proof.
  destruct m as [a|e]; simpl; intros H; [|discriminate].
  now exists a.
Qed.

Lemma rfilter_pure {A} (p : A -> result bool) (q : A -> bool) (l : list A) :
  (forall x, In x l -> p x = Ok (q x)) -> rfilter p l = Ok (filter q l).
Proof.
  induction l as [|x l IH]; intros H; simpl.
  - reflexivity.
  - rewrite (H x) by now left. simpl.
    rewrite IH by (intros y Hy; apply H; now right). reflexivity.
Qed.

Lemma rfilter_defined {A} (p : A -> result bool) (l l' : list A) :
  rfilter p l = Ok l' -> Forall (fun x => exists b, p x = Ok b) l.
Proof.
  revert l'. induction l as [|x l IH]; intros l' H; simpl in H.
  - constructor.
  - apply rbind_Ok_inv in H. destruct H as (b & Hb & H).
    apply rbind_Ok_inv in H. destruct H as (rest & Hrest & _).
    constructor; [now exists b | now apply IH with rest].
Qed.

Lemma energy_over_attitude_ok (a : Specie) :
  ~ (social_attitude a == 0)%Q -> energy_over_attitude a = Ok (ratio a).
Proof.
  intros H. unfold energy_over_attitude, truediv, ratio.
  destruct (Qeq_bool (social_attitude a) 0) eqn:E; [|reflexivity].
  apply Qeq_bool_iff in E. contradiction.
Qed.

Lemma energy_over_attitude_defined (a : Specie) (d : Q) :
  energy_over_attitude a = Ok d -> ~ (social_attitude a == 0)%Q.
Proof.
  unfold energy_over_attitude, truediv.
  destruct (Qeq_bool (social_attitude a) 0) eqn:E; [discriminate|].
  intros _ H. apply Qeq_bool_iff in H. congruence.
Qed.

(** The two comprehensions of a staying group, when none of them raises *)
Lemma rfilter_ratio (f : Q -> Specie -> bool) (l l' : list Specie) :
  rfilter (fun a => let? d := energy_over_attitude a in Ok (f d a)) l = Ok l' ->
  l' = filter (fun a => f (ratio a) a) l
  /\ Forall (fun a => ~ (social_attitude a == 0)%Q) l.
Proof.
  intros H.
  assert (D : Forall (fun a => ~ (social_attitude a == 0)%Q) l).
  { apply rfilter_defined in H. eapply Forall_impl; [|exact H].
    intros a (b & Hb). apply rbind_Ok_inv in Hb.
    destruct Hb as (d & Hd & _). eapply energy_over_attitude_defined, Hd. }
  split; [|exact D].
  rewrite (rfilter_pure _ (fun a => f (ratio a) a)) in H.
  - now inversion H.
  - intros a Ha. rewrite Forall_forall in D.
    rewrite energy_over_attitude_ok by now apply D. reflexivity.
Qed.

Lemma rfilter_ratio_ok (f : Q -> Specie -> bool) (l : list Specie) :
  Forall (fun a => ~ (social_attitude a == 0)%Q) l ->
  rfilter (fun a => let? d := energy_over_attitude a in Ok (f d a)) l
  = Ok (filter (fun a => f (ratio a) a) l).
Proof.
  intros D. apply rfilter_pure. intros a Ha. rewrite Forall_forall in D.
  rewrite energy_over_attitude_ok by now apply D. reflexivity.
Qed.

Lemma filter_partition {A} (p : A -> bool) (l : list A) :
  Permutation l (filter (fun a => negb (p a)) l ++ filter p l).
Proof.
  induction l as [|x l IH]; simpl.
  - reflexivity.
  - destruct (p x); simpl.
    + now apply Permutation_cons_app.
    + now constructor.
Qed.

Lemma animals_nonempty (res : list (Group * Cell)) :
  animals (filter (fun group_cell => 0 <? len (population (fst group_cell)))
                  res)
  = animals res.
Proof.
  unfold animals. induction res as [|[g c] res IH]; simpl.
  - reflexivity.
  - destruct (population g) as [|a l] eqn:E; simpl.
    + exact IH.
    + rewrite E, IH. reflexivity.
Qed.

(** The split that ends both [Herd.movement] and [Pride.movement] *)
Lemma split_energy_spec (self other : Group) (cell best_cell : Cell)
    (p : Specie -> bool) (before : list Specie) :
  (forall a, p a = true -> 1 < energy a) ->
  movement_energy_spec before
    (filter (fun group_cell => 0 <? len (population (fst group_cell)))
       [(set_population self
           (map mark_stayed (filter (fun a => negb (p a)) before)), cell);
        (set_population other (map mark_moved (filter p before)), best_cell)]).
Proof.
  intros Hp.
  exists (filter (fun a => negb (p a)) before), (filter p before),
         (map mark_stayed (filter (fun a => negb (p a)) before)),
         (map mark_moved (filter p before)).
  split; [apply filter_partition|].
  split; [rewrite animals_nonempty; unfold animals; simpl;
          now rewrite app_nil_r|].
  split.
  - induction (filter (fun a => negb (p a)) before); simpl; constructor; auto.
  - assert (F : Forall (fun a => 1 < energy a) (filter p before)).
    { apply Forall_forall. intros a Ha. apply filter_In in Ha.
      now apply Hp. }
    induction F as [|a l Ha _ IH]; simpl; constructor; auto.
    unfold mark_moved. simpl. repeat split; lia.
Qed.

Lemma unmoved_energy_spec (self : Group) (cell : Cell) :
  movement_energy_spec (population self) [(self, cell)].
Proof.
  exists (population self), [], (population self), [].
  split; [now rewrite app_nil_r|].
  split; [unfold animals; simpl; now rewrite !app_nil_r|].
  split; [|constructor].
  induction (population self); constructor; auto.
Qed.

Lemma leb_negb_ltb (e : Z) : (e <=? 1) = negb (1 <? e).
Proof.
  destruct (Z.leb_spec e 1), (Z.ltb_spec 1 e); simpl; lia || reflexivity.
Qed.

Lemma herd_movement_energy_spec (self : Group) (g : Grid) (cell : Cell)
    (neighbours : list Cell) (res : list (Group * Cell)) :
  Herd_movement self g cell neighbours = Ok res ->
  movement_energy_spec (population self) res.
Proof.
  unfold Herd_movement.
  destruct (sort (grid_at g 0) true neighbours) as [|best_cell rest].
  - intros H. inversion H. apply unmoved_energy_spec.
  - destruct ((grid_at g 0 cell <? len (population self))
              && (grid_at g 0 cell <? grid_at g 0 best_cell)).
    + cbn [rbind]. intros H. inversion H. clear H.
      rewrite (filter_ext
                 (fun erbast => Qltb (energy_times_attitude erbast)
                                     (inject_Z const.MIN_MOVEMENT_E)
                                || (energy erbast <=? 1))
                 (fun a => negb (Qgeb (energy_times_attitude a)
                                      (inject_Z const.MIN_MOVEMENT_E)
                                 && (1 <? energy a)))).
      * apply (split_energy_spec self Group_init cell best_cell
                 (fun a => Qgeb (energy_times_attitude a)
                                (inject_Z const.MIN_MOVEMENT_E)
                           && (1 <? energy a))).
        intros a Ha. apply andb_true_iff in Ha. lia.
      * intros a. unfold Qltb, Qgeb. rewrite negb_andb, leb_negb_ltb.
        reflexivity.
    + intros H. apply rbind_Ok_inv in H. destruct H as ([mv st] & H & R).
      apply rbind_Ok_inv in H. destruct H as (mv' & Hm & H).
      apply rbind_Ok_inv in H. destruct H as (st' & Hs & H).
      inversion H; subst mv' st'; clear H.
      apply rfilter_ratio in Hm. destruct Hm as [-> _].
      apply rfilter_ratio in Hs. destruct Hs as [-> _].
      inversion R. clear R.
      rewrite (filter_ext
                 (fun a => Qle_bool (ratio a) (inject_Z const.MAX_MOVEMENT_E)
                           || (energy a <=? 1))
                 (fun a => negb (Qgtb (ratio a) (inject_Z const.MAX_MOVEMENT_E)
                                 && (1 <? energy a)))).
      * apply (split_energy_spec self Group_init cell best_cell
                 (fun a => Qgtb (ratio a) (inject_Z const.MAX_MOVEMENT_E)
                           && (1 <? energy a))).
        intros a Ha. apply andb_true_iff in Ha. lia.
      * intros a. unfold Qgtb, Qltb. rewrite negb_andb, negb_involutive, leb_negb_ltb.
        reflexivity.
Qed.

Lemma bind_Ok_inv {A B} (m : M A) (k : A -> M B) (r r' : Random) (b : B) :
  bind m k r = Ok (b, r') ->
  exists a r1, m r = Ok (a, r1) /\ k a r1 = Ok (b, r').
Proof.
  unfold bind. destruct (m r) as [[a r1]|e]; intros H; [|discriminate].
  now exists a, r1.
Qed.

Lemma lift_Ok_inv {A} (x : result A) (r r' : Random) (a : A) :
  lift x r = Ok (a, r') -> x = Ok a /\ r' = r.
Proof.
  unfold lift. destruct x; intros H; inversion H; auto.
Qed.

Lemma ret_Ok_inv {A} (x a : A) (r r' : Random) :
  ret x r = Ok (a, r') -> a = x /\ r' = r.
Proof. unfold ret. intros H. inversion H. auto. Qed.

Lemma pride_movement_energy_spec (self : Group) (g : Grid) (cell : Cell)
    (neighbours : list Cell) (r r' : Random) (res : list (Group * Cell)) :
  Pride_movement self g cell neighbours r = Ok (res, r') ->
  movement_energy_spec (population self) res.
Proof.
  unfold Pride_movement.
  destruct (sort (grid_at g 1) true neighbours) as [|best_cell rest].
  - intros H. apply ret_Ok_inv in H. destruct H as [-> _].
    apply unmoved_energy_spec.
  - intros H. apply bind_Ok_inv in H. destruct H as (best & r1 & _ & H).
    apply bind_Ok_inv in H. destruct H as ([st mv] & r2 & H & R).
    apply lift_Ok_inv in H. destruct H as [H _].
    apply ret_Ok_inv in R. destruct R as [-> _].
    destruct (grid_at g 1 cell =? 0).
    + inversion H. clear H.
      rewrite (filter_ext
                 (fun carviz => Qltb (energy_times_attitude carviz)
                                     (inject_Z const.MIN_MOVEMENT_C)
                                || (energy carviz <=? 1))
                 (fun a => negb (Qgeb (energy_times_attitude a)
                                      (inject_Z const.MIN_MOVEMENT_C)
                                 && (1 <? energy a)))).
      * apply (split_energy_spec self Group_init cell best
                 (fun a => Qgeb (energy_times_attitude a)
                                (inject_Z const.MIN_MOVEMENT_C)
                           && (1 <? energy a))).
        intros a Ha. apply andb_true_iff in Ha. lia.
      * intros a. unfold Qltb, Qgeb. rewrite negb_andb, leb_negb_ltb.
        reflexivity.
    + apply rbind_Ok_inv in H. destruct H as (st' & Hs & H).
      apply rbind_Ok_inv in H. destruct H as (mv' & Hm & H).
      inversion H; subst mv' st'; clear H.
      apply rfilter_ratio in Hm. destruct Hm as [-> _].
      apply rfilter_ratio in Hs. destruct Hs as [-> _].
      rewrite (filter_ext
                 (fun a => Qgtb (ratio a) (inject_Z const.MAX_MOVEMENT_C)
                           || (energy a <=? 1))
                 (fun a => negb (Qle_bool (ratio a)
                                          (inject_Z const.MAX_MOVEMENT_C)
                                 && (1 <? energy a)))).
      * apply (split_energy_spec self Group_init cell best
                 (fun a => Qle_bool (ratio a) (inject_Z const.MAX_MOVEMENT_C)
                           && (1 <? energy a))).
        intros a Ha. apply andb_true_iff in Ha. lia.
      * intros a. unfold Qgtb, Qltb. rewrite negb_andb, leb_negb_ltb.
        reflexivity.
Qed.

Lemma herd_movement_returns (self : Group) (g : Grid) (cell : Cell)
    (neighbours : list Cell) :
  Forall (fun a => ~ (social_attitude a == 0)%Q) (population self) ->
  exists res, Herd_movement self g cell neighbours = Ok res.
Proof.
  intros D. unfold Herd_movement.
  destruct (sort (grid_at g 0) true neighbours) as [|best_cell rest].
  - eexists. reflexivity.
  - destruct ((grid_at g 0 cell <? len (population self))
              && (grid_at g 0 cell <? grid_at g 0 best_cell)).
    + eexists. reflexivity.
    + rewrite !rfilter_ratio_ok by exact D. eexists. reflexivity.
Qed.

Lemma pride_movement_returns (self : Group) (g : Grid) (cell : Cell)
    (neighbours : list Cell) (r : Random) :
  Forall (fun a => ~ (social_attitude a == 0)%Q) (population self) ->
  exists res r', Pride_movement self g cell neighbours r = Ok (res, r').
Proof.
  intros D. unfold Pride_movement.
  destruct (sort (grid_at g 1) true neighbours) as [|best_cell rest].
  - do 2 eexists. reflexivity.
  - unfold bind.
    destruct (grid_at g 1 best_cell =? 0); cbn [random_choice];
      unfold bind, next_int, ret;
      (destruct (grid_at g 1 cell =? 0);
       [|rewrite !rfilter_ratio_ok by exact D]; cbn [rbind lift];
       do 2 eexists; reflexivity).
Qed.

(** C10. Whenever [Herd.movement] or [Pride.movement] returns, the
    population is split into stayers, whose energy is unchanged, and
    movers, each of which had an energy above 1, paid exactly 1 and ends
    with an energy of at least 1; and both return for every group whose
    members have a non-zero social attitude. *)
Theorem movement_never_exhausts_energy (self : Group) (g : Grid)
    (cell : Cell) (neighbours : list Cell) (r : Random) :
  (forall res,
      Herd_movement self g cell neighbours = Ok res ->
      movement_energy_spec (population self) res)
  /\ (forall res r',
        Pride_movement self g cell neighbours r = Ok (res, r') ->
        movement_energy_spec (population self) res)
  /\ (Forall (fun a => ~ (social_attitude a == 0)%Q) (population self) ->
      (exists res, Herd_movement self g cell neighbours = Ok res)
      /\ (exists res r',
            Pride_movement self g cell neighbours r = Ok (res, r'))).
Proof.
  split; [|split].
  - intros res. apply herd_movement_energy_spec.
  - intros res r'. apply pride_movement_energy_spec.
  - intros D. split.
    + now apply herd_movement_returns.
    + now apply pride_movement_returns.
Qed.

Lemma movement_never_exhausts_energy_witness :
  movement_energy_spec (population resting_group)
    [(group_of [calm], (2, 2));
     (group_of [mkSpecie 49 600 5 (1 # 10) true], (2, 3))].
Proof.
  apply (proj1 (movement_never_exhausts_energy
                  resting_group (flat_grid 50 3 2) (2, 2) [(2, 3)] no_draws)).
  vm_compute. reflexivity.
Defined.


(** C7. In a pride that stays, [calm] (ratio 100, not above
    [MAX_MOVEMENT_C] = 300) moves and pays 1 energy while [restless]
    (ratio 500) stays: the two comprehensions of the staying branch of
    [Pride.movement] are exchanged.  The same group as a herd that stays
    splits the other way round, as the comments of the source describe. *)
Theorem pride_stay_split_inverted :
  diverges const.MAX_MOVEMENT_C calm = false
  /\ diverges const.MAX_MOVEMENT_C restless = true
  /\ Pride_movement resting_group (flat_grid 50 3 2) (2, 2) [(2, 3)] no_draws
     = Ok ([(group_of [mark_stayed restless], (2, 2));
            (group_of [mark_moved calm], (2, 3))], no_draws)
  /\ Herd_movement resting_group (flat_grid 50 3 2) (2, 2) [(2, 3)]
     = Ok [(group_of [mark_stayed calm], (2, 2));
           (group_of [mark_moved restless], (2, 3))].
Proof. repeat split. Qed.

(* ------------------------------------------------------------------ *)
(** ** Runtime faults *)

(** C9. [Herd.world_init] creates an Erbast of social attitude 0 when
    [random.random()] returns 0.0, and the movement of a herd that stays
    then raises [ZeroDivisionError] on [energy / social_attitude]; so
    does the movement of a pride created the same way. *)
Theorem movement_divides_by_zero :
  match Herd_world_init Group_init (flat_grid 50 0 0) (2, 2) first_draws with
  | Ok (herd, g, _) =>
      Exists (fun a => (social_attitude a == 0)%Q) (population herd)
      /\ Herd_movement herd g (2, 2) [(2, 3)] = Raise ZeroDivisionError
  | Raise _ => False
  end
  /\ match Pride_world_init Group_init (flat_grid 50 1 0) (2, 2) first_draws with
     | Ok (pride, g, r) =>
         Exists (fun a => (social_attitude a == 0)%Q) (population pride)
         /\ Pride_movement pride g (2, 2) [(2, 3)] r = Raise ZeroDivisionError
     | Raise _ => False
     end.
Proof.
  split; vm_compute; (split; [apply Exists_cons_hd|]); reflexivity.
Qed.

(* ------------------------------------------------------------------ *)
(** ** The ranges of energy and social attitude *)

(** C4. Grazing takes an Erbast of energy [MAX_ENERGY_E] = 100 to 101, and
    a hunt takes a Carviz of social attitude 0.99 to 1.04: neither
    [Herd.grazing] nor the bonus of [Pride.hunting] is clamped. *)
Theorem grazing_and_hunting_leave_the_ranges :
  0 <= energy strong_erbast <= const.MAX_ENERGY_E
  /\ (0 <= social_attitude sociable_carviz <= 1)%Q
  /\ match Herd_grazing (group_of [strong_erbast]) (flat_grid 50 1 0)
                        (2, 2) with
     | Ok (herd, _) =>
         map energy (population herd) = [101]
         /\ Exists (fun a => const.MAX_ENERGY_E < energy a) (population herd)
     | Raise _ => False
     end
  /\ match Pride_hunting (group_of [sociable_carviz]) (flat_grid 50 2 1)
                         (2, 2) (Some prey_herd) with
     | Ok (pride, _, _) =>
         map social_attitude (population pride) = [(99 # 100) + (5 # 100)]%Q
         /\ Exists (fun a => (1 < social_attitude a)%Q) (population pride)
     | Raise _ => False
     end.
Proof.
  split; [vm_compute; split; congruence|].
  split; [vm_compute; split; congruence|].
  split; vm_compute; (split; [reflexivity|]); apply Exists_cons_hd;
    reflexivity.
Qed.

(* ------------------------------------------------------------------ *)
(** ** Unify: join or fight *)

Lemma prides_join_iff (pride1 pride2 : Group) :
  prides_join pride1 pride2 = true
  <-> (const.JOIN_PRIDE
       < total_social_attitude pride1 + total_social_attitude pride2)%Q
      /\ len (population pride1) + len (population pride2) < const.MAX_PRIDE.
Proof.
  unfold prides_join, Qgtb, Qltb.
  rewrite andb_true_iff, negb_true_iff, Z.ltb_lt.
  rewrite <- not_true_iff_false, Qle_bool_iff.
  split; intros [H1 H2]; (split; [|exact H2]).
  - now apply Qnot_le_lt.
  - now apply Qlt_not_le.
Qed.

(** Every iteration of the loop of [Pride.unify] replaces two prides by
    one. *)
Lemma unify_step_length (pride_list pride_list' : list Group)
    (r r' : Random) :
  Pride_unify_step pride_list r = Ok (pride_list', r') ->
  length pride_list = S (length pride_list').
Proof.
  unfold Pride_unify_step.
  rewrite <- (sort_length _ (fun pride => len (population pride)) false
                          pride_list).
  destruct (sort (fun pride => len (population pride)) false pride_list)
    as [|pride1 [|pride2 rest]]; try discriminate.
  destruct (prides_join (Group_update_stats pride1)
                        (Group_update_stats pride2)).
  - intros H. apply ret_Ok_inv in H. destruct H as [-> _]. reflexivity.
  - intros H. apply bind_Ok_inv in H. destruct H as (v1 & r1 & _ & H).
    apply bind_Ok_inv in H. destruct H as (v2 & r2 & _ & H).
    destruct (v2 <=? v1); apply ret_Ok_inv in H; destruct H as [-> _];
      reflexivity.
Qed.

(** The fuel of [Pride_unify_loop] is never exhausted: when the loop
    returns, its condition [len(pride_list) > 1] is false. *)
Lemma unify_loop_exits (fuel : nat) :
  forall (pride_list pride_list' : list Group) (r r' : Random),
    (length pride_list <= fuel)%nat ->
    Pride_unify_loop fuel pride_list r = Ok (pride_list', r') ->
    (1 <? len pride_list') = false.
Proof.
  induction fuel as [|fuel IH]; intros pride_list pride_list' r r' Hf H;
    simpl in H.
  - destruct (1 <? len pride_list) eqn:E.
    + unfold len in E. apply Z.ltb_lt in E. lia.
    + apply ret_Ok_inv in H. destruct H as [-> _]. exact E.
  - destruct (1 <? len pride_list) eqn:E.
    + apply bind_Ok_inv in H. destruct H as (l1 & r1 & Hs & H).
      apply unify_step_length in Hs. eapply IH; [|exact H]. lia.
    + apply ret_Ok_inv in H. destruct H as [-> _]. exact E.
Qed.

(** Two prides that join stay below [MAX_PRIDE]: the joined pride holds
    the members of both. *)
Lemma joined_prides_below_cap (pride1 pride2 : Group) :
  prides_join pride1 pride2 = true ->
  population (Group_join_groups [pride1; pride2] Group_init const.MAX_PRIDE)
  = population pride1 ++ population pride2
  /\ len (population pride1 ++ population pride2) < const.MAX_PRIDE.
Proof.
  intros H. apply prides_join_iff in H. destruct H as [_ H].
  rewrite <- len_app in H. split; [|exact H].
  rewrite join_groups_within; simpl; rewrite app_nil_r; [reflexivity|lia].
Qed.

(** C5. Two prides of two Carviz of social attitude 0.3: the averages sum
    to 0.6, not above [JOIN_PRIDE] = 0.9, but [Pride.unify] compares the
    totals, which sum to 1.2, and joins them without a fight (no draw is
    consumed, no social attitude is raised). *)
Theorem prides_join_on_totals :
  means_join (Group_update_stats shy_pride1) (Group_update_stats shy_pride2)
  = false
  /\ prides_join (Group_update_stats shy_pride1)
                 (Group_update_stats shy_pride2) = true
  /\ Pride_unify [shy_pride1; shy_pride2] (mkRandom [5; 7] [])
     = Ok (group_of [shy_carviz 20; shy_carviz 30;
                     shy_carviz 40; shy_carviz 50],
           mkRandom [5; 7] []).
Proof. repeat split. Qed.

(* ------------------------------------------------------------------ *)
(** ** Hunting *)

Lemma range_nil (lo hi : Z) : hi <= lo -> range lo hi = [].
Proof.
  intros H. unfold range. replace (Z.to_nat (hi - lo)) with 0%nat by lia.
  reflexivity.
Qed.

Lemma range_cons (lo hi : Z) : lo < hi -> range lo hi = lo :: range (lo + 1) hi.
Proof.
  intros H. unfold range.
  replace (Z.to_nat (hi - lo)) with (S (Z.to_nat (hi - (lo + 1)))) by lia.
  cbn [seq map]. f_equal; [lia|].
  rewrite <- seq_shift, map_map. apply map_ext. intros k. lia.
Qed.

Lemma update_nth_middle {A} (f : A -> A) (pre : list A) (x : A) (post : list A) :
  update_nth (length pre) f (pre ++ x :: post) = pre ++ f x :: post.
Proof.
  induction pre as [|y pre IH]; simpl.
  - reflexivity.
  - now rewrite IH.
Qed.

Lemma py_update_middle {A} (f : A -> A) (pre : list A) (x : A) (post : list A) :
  py_update (pre ++ x :: post) (len pre) f = Ok (pre ++ f x :: post).
Proof.
  unfold py_update.
  pose proof (len_nonneg pre) as Hp.
  destruct (Z.ltb_spec (len pre) 0) as [|_]; [lia|].
  destruct (Z.ltb_spec (len pre) 0) as [|_]; [lia|].
  rewrite len_app. unfold len at 2. cbn [length].
  destruct (Z.leb_spec (len pre + Z.of_nat (S (length post))) (len pre))
    as [|_]; [lia|].
  cbn [orb]. unfold len. rewrite Nat2Z.id. now rewrite update_nth_middle.
Qed.

Lemma rfold_update_segment {A} (f : A -> A) (mid pre post : list A) :
  rfold (fun l n => py_update l n f) (range (len pre) (len pre + len mid))
        (pre ++ mid ++ post)
  = Ok (pre ++ map f mid ++ post).
Proof.
  revert pre. induction mid as [|x mid IH]; intros pre.
  - rewrite range_nil by (unfold len; simpl; lia). reflexivity.
  - rewrite range_cons by (unfold len; simpl; lia).
    cbn [rfold app map]. rewrite py_update_middle. cbn [rbind].
    replace (pre ++ f x :: mid ++ post) with ((pre ++ [f x]) ++ mid ++ post)
      by (now rewrite <- app_assoc).
    replace (len pre + 1) with (len (pre ++ [f x]))
      by (rewrite len_app; reflexivity).
    replace (len pre + len (x :: mid)) with (len (pre ++ [f x]) + len mid)
      by (rewrite len_app; unfold len; simpl; lia).
    rewrite IH. now rewrite <- app_assoc.
Qed.

Lemma sorted_head_max (l : list Specie) (prey : Specie) (remaining : list Specie) :
  sort energy true l = prey :: remaining ->
  Forall (fun erbast => energy erbast <= energy prey) remaining.
Proof.
  intros H. pose proof (sort_sorted _ energy true l) as S.
  rewrite H in S. apply StronglySorted_inv in S. destruct S as [_ F].
  eapply Forall_impl; [|exact F].
  intros a Ha. unfold ordered, before in Ha. lia.
Qed.

Lemma sorted_ascending (l : list Specie) :
  StronglySorted (fun a b => energy a <= energy b) (sort energy false l).
Proof.
  pose proof (sort_sorted _ energy false l) as S.
  induction S as [|a l' S IH F]; constructor; auto.
  eapply Forall_impl; [|exact F].
  intros b Hb. unfold ordered, before in Hb. lia.
Qed.

(** C6. When a non-empty pride hunts in a cell with a non-empty herd, an
    Erbast of highest energy leaves the herd and its energy is the prize;
    with the pride in ascending order of energy, the first [prize mod n]
    members get [prize // n + 1] and the others [prize // n], which
    allocates the prize exactly; the energy of each member is capped at
    [MAX_ENERGY_C], its social attitude grows by [EAT_C], and the Erbast
    count of the cell decreases by one. *)
Theorem hunting_shares_the_prey (self herd : Group) (g : Grid) (cell : Cell) :
  population self <> [] ->
  population herd <> [] ->
  hunting_spec self herd g cell.
Proof.
  intros Hself Hherd.
  destruct (sort energy true (population herd)) as [|prey remaining] eqn:Es.
  { apply sort_nil_inv in Es. contradiction. }
  exists prey, remaining. cbv zeta.
  assert (Hn : 0 < len (population self)).
  { unfold len. destruct (population self); [contradiction|simpl; lia]. }
  pose proof (Z.mod_pos_bound (energy prey) _ Hn) as Hmod.
  split. { rewrite <- Es. symmetry. apply sort_perm. }
  split. { eapply sorted_head_max, Es. }
  split. { apply sort_perm. }
  split. { apply sorted_ascending. }
  split.
  { unfold Pride_hunting. cbn [population set_population]. rewrite Es.
    unfold floordiv, pymod. rewrite sort_len.
    destruct (Z.eqb_spec (len (population self)) 0) as [|_]; [lia|].
    cbn [rbind].
    set (hunters := sort energy false (population self)).
    set (n := len (population self)) in *.
    set (spare := energy prey mod n) in *.
    assert (Hlen : len hunters = n) by apply sort_len.
    assert (Hfirst : len (firstn (Z.to_nat spare) hunters) = spare).
    { unfold len in *. rewrite length_firstn. lia. }
    assert (Hskip : len (skipn (Z.to_nat spare) hunters) = n - spare).
    { unfold len in *. rewrite length_skipn. lia. }
    rewrite <- (firstn_skipn (Z.to_nat spare) hunters) at 1.
    pose proof (rfold_update_segment (feed (energy prey / n + 1))
                  (firstn (Z.to_nat spare) hunters) []
                  (skipn (Z.to_nat spare) hunters)) as L1.
    cbn [app] in L1. change (len (@nil Specie)) with 0 in L1.
    rewrite Hfirst in L1. cbn [Z.add] in L1. rewrite L1. cbn [rbind].
    pose proof (rfold_update_segment (feed (energy prey / n))
                  (skipn (Z.to_nat spare) hunters)
                  (map (feed (energy prey / n + 1))
                       (firstn (Z.to_nat spare) hunters)) []) as L2.
    rewrite len_map, Hfirst, Hskip, !app_nil_r in L2.
    replace (spare + (n - spare)) with n in L2 by lia.
    rewrite L2. cbn [rbind]. unfold shared. rewrite Hlen. reflexivity. }
  split.
  { unfold grid_at, grid_set. rewrite Z.eqb_refl.
    rewrite <- surjective_pairing, cell_eqb_refl. reflexivity. }
  split. { exact Hmod. }
  split.
  { pose proof (Z.div_mod (energy prey) (len (population self))). nia. }
  intros gain carviz. split; reflexivity.
Qed.

Lemma hunting_shares_the_prey_witness :
  hunting_spec hungry_pride hunted_herd23 (flat_grid 50 3 5) (2, 2).
Proof.
  apply hunting_shares_the_prey; vm_compute; congruence.
Defined.

(** The scenario of a prize of 23 shared by five Carviz *)
Example hunting_23_by_5 :
  match Pride_hunting hungry_pride (flat_grid 50 3 5) (2, 2)
                      (Some hunted_herd23) with
  | Ok (pride, herd, g) =>
      map energy (population pride) = [6; 12; 12; 14; 54]
      /\ option_map (fun h => map energy (population h)) herd = Some [1; 1]
      /\ grid_at g 1 (2, 2) = 2
  | Raise _ => False
  end.
Proof. vm_compute. repeat split. Qed.

(* ------------------------------------------------------------------ *)
(** ** The day cycle and the animal layers of the grid *)

Lemma foldM_invariant {A B} (P : B -> Prop) (f : B -> A -> M B) (l : list A) :
  (forall b a r b' r', P b -> f b a r = Ok (b', r') -> P b') ->
  forall acc r b r', P acc -> foldM f l acc r = Ok (b, r') -> P b.
Proof.
  intros Hf. induction l as [|x l IH]; intros acc r b r' Hacc H; simpl in H.
  - apply ret_Ok_inv in H. destruct H as [-> _]. exact Hacc.
  - apply bind_Ok_inv in H. destruct H as (acc' & r1 & H1 & H2).
    eapply IH; [|exact H2]. eapply Hf; eauto.
Qed.

Lemma for_items_keys {V W S} (body : S -> Cell -> V -> M (W * S))
    (d : Dict V) :
  forall s r d' s' r',
    for_items body d s r = Ok (d', s', r') -> keys d' = keys d.
Proof.
  induction d as [|[k v] d IH]; intros s r d' s' r' H; simpl in H.
  - apply ret_Ok_inv in H. destruct H as [H _]. inversion H. reflexivity.
  - apply bind_Ok_inv in H. destruct H as ([w s1] & r1 & _ & H).
    apply bind_Ok_inv in H. destruct H as ([d'' s2] & r2 & H & R).
    apply ret_Ok_inv in R. destruct R as [R _]. inversion R. subst.
    unfold keys in *. simpl. f_equal. eapply IH, H.
Qed.

Lemma for_items_invariant {V W S} (P : S -> Prop)
    (body : S -> Cell -> V -> M (W * S)) (d : Dict V) :
  (forall s k v r w s' r', P s -> body s k v r = Ok (w, s', r') -> P s') ->
  forall s r d' s' r',
    P s -> for_items body d s r = Ok (d', s', r') -> P s'.
Proof.
  intros Hb. induction d as [|[k v] d IH]; intros s r d' s' r' Hs H;
    simpl in H.
  - apply ret_Ok_inv in H. destruct H as [H _]. inversion H. now subst.
  - apply bind_Ok_inv in H. destruct H as ([w s1] & r1 & H1 & H).
    apply bind_Ok_inv in H. destruct H as ([d'' s2] & r2 & H & R).
    apply ret_Ok_inv in R. destruct R as [R _]. inversion R. subst.
    eapply IH; [|exact H]. eapply Hb; eauto.
Qed.

Lemma dict_get_absent {V} (d : Dict V) (k : Cell) :
  ~ In k (keys d) -> dict_get d k = None.
Proof.
  induction d as [|[k' v] d IH]; simpl; intros H.
  - reflexivity.
  - destruct (cell_eqb k' k) eqn:E.
    + apply cell_eqb_eq in E. tauto.
    + apply IH. tauto.
Qed.

Lemma keys_dict_set {V} (d : Dict V) (k : Cell) (v : V) :
  keys (dict_set d k v) = if existsb (fun k' => cell_eqb k' k) (keys d)
                          then keys d else keys d ++ [k].
Proof.
  induction d as [|[k' v'] d IH]; simpl.
  - reflexivity.
  - destruct (cell_eqb k' k); simpl.
    + reflexivity.
    + unfold keys in *. rewrite IH.
      destruct (existsb (fun k'0 => cell_eqb k'0 k) (map fst d)); reflexivity.
Qed.

Lemma NoDup_snoc {A} (l : list A) (x : A) :
  NoDup l -> ~ In x l -> NoDup (l ++ [x]).
Proof.
  intros Hl Hx. apply NoDup_rev in Hl.
  rewrite <- (rev_involutive (l ++ [x])). apply NoDup_rev.
  rewrite rev_app_distr. simpl. constructor; [|exact Hl].
  now rewrite <- in_rev.
Qed.

Lemma dict_set_well_keyed {V} (d : Dict V) (k : Cell) (v : V) :
  NoDup (keys d) -> NoDup (keys (dict_set d k v)).
Proof.
  intros H. rewrite keys_dict_set.
  destruct (existsb (fun k' => cell_eqb k' k) (keys d)) eqn:E; [exact H|].
  apply NoDup_snoc; [exact H|].
  intros Hin. apply not_true_iff_false in E. apply E.
  apply existsb_exists. exists k. split; [exact Hin | apply cell_eqb_refl].
Qed.

Lemma collect_groups_well_keyed (after : list (Group * Cell))
    (res : Dict (list Group)) :
  NoDup (keys res) -> NoDup (keys (collect_groups res after)).
Proof.
  unfold collect_groups. revert res.
  induction after as [|gc after IH]; intros res H; simpl.
  - exact H.
  - apply IH. now apply dict_set_well_keyed.
Qed.

Lemma dict_del_well_keyed {V} (remove : list Cell) (d : Dict V) :
  NoDup (keys d) -> NoDup (keys (fold_left dict_del remove d)).
Proof.
  revert d. induction remove as [|k remove IH]; intros d H; simpl.
  - exact H.
  - apply IH. unfold dict_del, keys in *. clear IH.
    induction d as [|[k' v] d IHd]; simpl.
    + constructor.
    + inversion H as [|? ? Hn Hd]; subst.
      destruct (cell_eqb k' k); simpl.
      * now apply IHd.
      * constructor; [|now apply IHd].
        intros Hin. apply Hn. apply in_map_iff in Hin.
        destruct Hin as (kv & <- & Hkv). apply filter_In in Hkv.
        apply in_map. tauto.
Qed.

Lemma keys_map_values {V W} (f : V -> W) (d : Dict V) :
  keys (map (fun kv : Cell * V => (fst kv, f (snd kv))) d) = keys d.
Proof. unfold keys. rewrite map_map. reflexivity. Qed.

Lemma dict_get_map_values {V W} (f : V -> W) (d : Dict V) (k : Cell) :
  dict_get (map (fun kv : Cell * V => (fst kv, f (snd kv))) d) k
  = option_map f (dict_get d k).
Proof.
  induction d as [|[k' v] d IH]; simpl.
  - reflexivity.
  - destruct (cell_eqb k' k); [reflexivity | exact IH].
Qed.

(** On a dictionary, the loop of [World.update_stats] that fills a layer
    writes in every cell the size of the group that [get] finds there. *)
Lemma count_layer_spec (d : Dict Group) (i j : Z) :
  NoDup (keys d) -> count_layer d i j = resident_count d (i, j).
Proof.
  unfold count_layer, resident_count.
  assert (G : forall layer,
             NoDup (keys d) ->
             fold_left
               (fun (layer : Z -> Z -> Z) (cg : Cell * Group) =>
                  let '(cell, group) := cg in
                  fun i j => if cell_eqb (i, j) cell
                             then len (population group) else layer i j)
               d layer i j
             = match dict_get d (i, j) with
               | Some group => len (population group)
               | None => layer i j
               end).
  { induction d as [|[k v] d IH]; intros layer H; simpl.
    - reflexivity.
    - inversion H as [|? ? Hn Hd]; subst. rewrite (IH _ Hd).
      destruct (cell_eqb k (i, j)) eqn:E.
      + apply cell_eqb_eq in E. subst k.
        rewrite dict_get_absent by exact Hn. now rewrite cell_eqb_refl.
      + destruct (dict_get d (i, j)); [reflexivity|].
        destruct (cell_eqb (i, j) k) eqn:E'; [|reflexivity].
        apply cell_eqb_eq in E'. subst k. rewrite cell_eqb_refl in E.
        discriminate. }
  intros H. now rewrite G.
Qed.

Lemma movement_well_keyed (self : World) (r r' : Random)
    (moved_world : WorldOf (list Group)) :
  World_movement self r = Ok (moved_world, r') -> well_keyed moved_world.
Proof.
  unfold World_movement. intros H.
  apply bind_Ok_inv in H. destruct H as (res_herds & r1 & Hh & H).
  apply bind_Ok_inv in H. destruct H as (res_prides & r2 & Hp & H).
  apply ret_Ok_inv in H. destruct H as [-> _].
  split; simpl.
  - revert Hh. apply (foldM_invariant (fun res => NoDup (keys res))).
    + intros res [cell herd] q res' q' Hres Hstep.
      apply bind_Ok_inv in Hstep. destruct Hstep as (after & q1 & _ & Hstep).
      apply ret_Ok_inv in Hstep. destruct Hstep as [-> _].
      now apply collect_groups_well_keyed.
    + constructor.
  - revert Hp. apply (foldM_invariant (fun res => NoDup (keys res))).
    + intros res [cell pride] q res' q' Hres Hstep.
      apply bind_Ok_inv in Hstep. destruct Hstep as (after & q1 & _ & Hstep).
      apply ret_Ok_inv in Hstep. destruct Hstep as [-> _].
      now apply collect_groups_well_keyed.
    + constructor.
Qed.

Lemma unify_groups_well_keyed (self : WorldOf (list Group)) (r r' : Random)
    (self' : World) :
  well_keyed self ->
  World_unify_groups self r = Ok (self', r') -> well_keyed self'.
Proof.
  unfold World_unify_groups. intros [Wh Wp] H.
  apply bind_Ok_inv in H. destruct H as ([new_herds u] & r1 & Hh & H).
  apply bind_Ok_inv in H. destruct H as ([new_prides u'] & r2 & Hp & H).
  apply ret_Ok_inv in H. destruct H as [-> _].
  apply for_items_keys in Hh. apply for_items_keys in Hp.
  split; simpl; congruence.
Qed.

Lemma grazing_well_keyed (self self' : World) (r r' : Random) :
  well_keyed self -> World_grazing self r = Ok (self', r') -> well_keyed self'.
Proof.
  unfold World_grazing. intros [Wh Wp] H.
  apply bind_Ok_inv in H. destruct H as ([new_herds g] & r1 & Hh & H).
  apply ret_Ok_inv in H. destruct H as [-> _].
  apply for_items_keys in Hh. split; simpl; congruence.
Qed.

Lemma hunting_well_keyed (self self' : World) (r r' : Random) :
  well_keyed self -> World_hunting self r = Ok (self', r') -> well_keyed self'.
Proof.
  unfold World_hunting. intros [Wh Wp] H.
  apply bind_Ok_inv in H. destruct H as ([new_prides [g hs]] & r1 & Hp & H).
  apply ret_Ok_inv in H. destruct H as [-> _].
  split; simpl.
  - revert Hp.
    apply (for_items_invariant
             (fun gh : Grid * Dict Group => NoDup (keys (snd gh)))).
    + intros [g0 hs0] cell pride q w [g1 hs1] q' Hs Hstep. simpl in *.
      apply bind_Ok_inv in Hstep.
      destruct Hstep as ([[pride' herd'] g2] & q1 & _ & Hstep).
      apply ret_Ok_inv in Hstep. destruct Hstep as [Hstep _].
      inversion Hstep. destruct herd'; [now apply dict_set_well_keyed|exact Hs].
    + exact Wh.
  - apply for_items_keys in Hp. congruence.
Qed.

Lemma spawning_well_keyed (self self' : World) (r r' : Random) :
  well_keyed self -> World_spawning self r = Ok (self', r') -> well_keyed self'.
Proof.
  unfold World_spawning. intros [Wh Wp] H.
  apply bind_Ok_inv in H. destruct H as ([new_herds g] & r1 & Hh & H).
  apply bind_Ok_inv in H. destruct H as ([new_prides g'] & r2 & Hp & H).
  apply ret_Ok_inv in H. destruct H as [-> _].
  apply for_items_keys in Hh. apply for_items_keys in Hp.
  split; simpl; congruence.
Qed.

Lemma remove_empty_groups_well_keyed (self : World) :
  well_keyed self -> well_keyed (World_remove_empty_groups self).
Proof.
  intros [Wh Wp]. unfold World_remove_empty_groups.
  split; simpl; now apply dict_del_well_keyed.
Qed.

(** [World.update_stats] rebuilds the two animal layers from the groups. *)
Lemma update_stats_consistent (self : World) :
  well_keyed self -> counts_consistent (World_update_stats self).
Proof.
  intros [Wh Wp] [i j]. unfold World_update_stats, grid_at, grid_set_layer.
  simpl.
  rewrite !count_layer_spec by (now rewrite keys_map_values).
  unfold resident_count. rewrite !dict_get_map_values.
  split.
  - now destruct (dict_get (herds self) (i, j)).
  - now destruct (dict_get (prides self) (i, j)).
Qed.

(** C2. Once [World.a_day_on_planysuss] has completed, in every cell the
    Erbast layer of the grid is the size of the herd of the cell and the
    Carviz layer is the size of its pride, 0 standing for no group. *)
Theorem day_leaves_counts_consistent (self self' : World) (r r' : Random) :
  World_a_day_on_planysuss self r = Ok (self', r') ->
  counts_consistent self'.
Proof.
  unfold World_a_day_on_planysuss. intros H.
  apply bind_Ok_inv in H. destruct H as (w1 & r1 & H1 & H).
  apply bind_Ok_inv in H. destruct H as (w2 & r2 & H2 & H).
  apply bind_Ok_inv in H. destruct H as (w3 & r3 & H3 & H).
  apply bind_Ok_inv in H. destruct H as (w4 & r4 & H4 & H).
  apply bind_Ok_inv in H. destruct H as (w5 & r5 & H5 & H).
  apply ret_Ok_inv in H. destruct H as [-> _].
  apply movement_well_keyed in H1.
  apply (unify_groups_well_keyed _ _ _ _ H1) in H2.
  apply (grazing_well_keyed _ _ _ _ H2) in H3.
  apply (hunting_well_keyed _ _ _ _ H3) in H4.
  apply (spawning_well_keyed _ _ _ _ H4) in H5.
  apply remove_empty_groups_well_keyed in H5.
  apply update_stats_consistent in H5.
  exact H5.
Qed.

Lemma day_leaves_counts_consistent_witness : counts_consistent after_one_day.
Proof.
  apply (day_leaves_counts_consistent
           small_world after_one_day small_draws small_draws).
  vm_compute. reflexivity.
Defined.

(** The first day of [small_world]: the herd splits, the pride joins the
    herd of (2, 2) and hunts there. *)
Example small_world_first_day :
  map (fun cg => (fst cg, map energy (population (snd cg))))
      (herds after_one_day)
  = [((2, 2), [51]); ((2, 3), [49])]
  /\ map (fun cg => (fst cg, map energy (population (snd cg))))
         (prides after_one_day)
     = [((2, 2), [80; 89])]
  /\ map (fun cell => (grid_at (grid after_one_day) 1 cell,
                       grid_at (grid after_one_day) 2 cell)) small_ground
     = [(1, 2); (1, 0); (0, 0); (0, 0)]
  /\ day after_one_day = 2.
Proof. vm_compute. repeat split. Qed.

(** A day of a world that holds an Erbast of social attitude 0 in a herd
    that stays does not complete. *)
Example day_raises_zero_division :
  World_a_day_on_planysuss unsociable_world no_draws = Raise ZeroDivisionError.
Proof. vm_compute. reflexivity. Qed.

(* ------------------------------------------------------------------ *)
(** ** The terrain: neighbourhoods, growing and overwhelming *)

Lemma in_range (lo hi k : Z) : In k (range lo hi) <-> lo <= k < hi.
Proof.
  unfold range. rewrite in_map_iff. split.
  - intros (n & <- & Hn). apply in_seq in Hn. lia.
  - intros H. exists (Z.to_nat (k - lo)). split; [lia|].
    apply in_seq. lia.
Qed.

Lemma range_NoDup (lo hi : Z) : NoDup (range lo hi).
Proof.
  unfold range. apply NoDup_map_NoDup_ForallPairs; [|apply seq_NoDup].
  intros a b _ _ H. lia.
Qed.

Lemma NoDup_flat_map_tag {A B} (tag : B -> A) (f : A -> list B)
    (l : list A) :
  NoDup l ->
  (forall a, NoDup (f a)) ->
  (forall a b, In b (f a) -> tag b = a) ->
  NoDup (flat_map f l).
Proof.
  intros Hl Hf Ht. induction Hl as [|a l Ha Hl IH]; simpl.
  - constructor.
  - apply NoDup_app; [apply Hf | exact IH |].
    intros b Hb Hb'. apply in_flat_map in Hb'.
    destruct Hb' as (a' & Ha' & Hb'). apply Ht in Hb. apply Ht in Hb'.
    congruence.
Qed.

Lemma in_neighbourhood {G} (self : WorldOf G)
    (cell_row cell_col radius i j : Z) :
  In (i, j) (World_neighbourhood self cell_row cell_col radius)
  <-> In (i, j) (ground_cells self)
      /\ (i, j) <> (cell_row, cell_col)
      /\ 0 <= i < NR self /\ 0 <= j < NC self
      /\ cell_row - radius <= i <= cell_row + radius
      /\ cell_col - radius <= j <= cell_col + radius.
Proof.
  unfold World_neighbourhood. rewrite in_flat_map. split.
  - intros (i' & Hi & H). apply in_flat_map in H.
    destruct H as (j' & Hj & H).
    apply in_range in Hi. apply in_range in Hj.
    destruct (existsb (cell_eqb (i', j')) (ground_cells self)
              && negb (cell_eqb (i', j') (cell_row, cell_col))) eqn:E;
      [|contradiction].
    destruct H as [H|[]]. inversion H; subst i' j'. clear H.
    apply andb_true_iff in E. destruct E as [Eg En].
    apply existsb_exists in Eg. destruct Eg as (c & Hc & Ec).
    apply cell_eqb_eq in Ec. subst c.
    apply negb_true_iff, cell_eqb_neq in En.
    repeat split; auto; lia.
  - intros (Hg & Hn & Hi & Hj & Hr & Hc).
    exists i. split; [apply in_range; lia|].
    apply in_flat_map. exists j. split; [apply in_range; lia|].
    assert (E : existsb (cell_eqb (i, j)) (ground_cells self)
                && negb (cell_eqb (i, j) (cell_row, cell_col)) = true).
    { apply andb_true_iff. split.
      - apply existsb_exists. exists (i, j). split; [exact Hg|].
        apply cell_eqb_refl.
      - apply negb_true_iff, cell_eqb_neq. exact Hn. }
    rewrite E. now left.
Qed.

Lemma neighbourhood_NoDup {G} (self : WorldOf G)
    (cell_row cell_col radius : Z) :
  NoDup (World_neighbourhood self cell_row cell_col radius).
Proof.
  unfold World_neighbourhood.
  apply (NoDup_flat_map_tag fst); [apply range_NoDup | |].
  - intros i. apply (NoDup_flat_map_tag snd); [apply range_NoDup | |].
    + intros j. destruct (_ && _); repeat constructor. intros [].
    + intros j b Hb. destruct (_ && _); [|contradiction].
      destruct Hb as [<-|[]]. reflexivity.
  - intros i b Hb. apply in_flat_map in Hb. destruct Hb as (j & _ & Hb).
    destruct (_ && _); [|contradiction]. destruct Hb as [<-|[]]. reflexivity.
Qed.

(** [World.neighbourhood] returns, each once, the ground cells of the
    array, other than the cell itself, whose row and column are at most
    [radius] away. *)
Theorem neighbourhood_spec {G} (self : WorldOf G)
    (cell_row cell_col radius : Z) :
  NoDup (World_neighbourhood self cell_row cell_col radius)
  /\ forall i j,
       In (i, j) (World_neighbourhood self cell_row cell_col radius)
       <-> In (i, j) (ground_cells self)
           /\ (i, j) <> (cell_row, cell_col)
           /\ 0 <= i < NR self /\ 0 <= j < NC self
           /\ cell_row - radius <= i <= cell_row + radius
           /\ cell_col - radius <= j <= cell_col + radius.
Proof.
  split; [apply neighbourhood_NoDup|]. intros i j. apply in_neighbourhood.
Qed.

Lemma grid_at_set (g : Grid) (k k' : Z) (cell cell' : Cell) (v : Z) :
  grid_at (grid_set g k cell v) k' cell'
  = if (k' =? k) && cell_eqb cell' cell then v else grid_at g k' cell'.
Proof. destruct cell'. reflexivity. Qed.

Lemma grid_at_set_other_layer (g : Grid) (k k' : Z) (cell cell' : Cell)
    (v : Z) :
  k' <> k -> grid_at (grid_set g k cell v) k' cell' = grid_at g k' cell'.
Proof.
  intros H. rewrite grid_at_set.
  destruct (Z.eqb_spec k' k); [contradiction|reflexivity].
Qed.

(** [World.growing] raises the density of every ground cell by [GROWING],
    up to 100, and touches nothing else of the grid. *)
Theorem growing_spec (self : World) (cell : Cell) :
  NoDup (ground_cells self) ->
  (In cell (ground_cells self) ->
   grid_at (grid (World_growing self)) 0 cell
   = Z.min (grid_at (grid self) 0 cell + const.GROWING) 100)
  /\ (~ In cell (ground_cells self) ->
      grid_at (grid (World_growing self)) 0 cell = grid_at (grid self) 0 cell)
  /\ (forall k, k <> 0 ->
      grid_at (grid (World_growing self)) k cell = grid_at (grid self) k cell)
  /\ herds (World_growing self) = herds self
  /\ prides (World_growing self) = prides self.
Proof.
  intros Hnd. unfold World_growing. simpl.
  set (grow := fun g c =>
                 grid_set g 0 c (Z.min (grid_at g 0 c + const.GROWING) 100)).
  assert (L0 : forall l g, ~ In cell l ->
                 grid_at (fold_left grow l g) 0 cell = grid_at g 0 cell).
  { induction l as [|c l IH]; intros g Hn; simpl; [reflexivity|].
    rewrite IH by (intros X; apply Hn; now right).
    unfold grow. rewrite grid_at_set.
    destruct (cell_eqb cell c) eqn:E; [|now rewrite andb_false_r].
    apply cell_eqb_eq in E. subst c. exfalso. apply Hn. now left. }
  split; [|split; [|split; [|split; reflexivity]]].
  - revert Hnd. generalize (grid self) as g.
    induction (ground_cells self) as [|c l IH]; intros g Hnd Hin;
      [contradiction|].
    inversion Hnd as [|? ? Hc Hl]; subst. simpl.
    destruct Hin as [->|Hin].
    + rewrite L0 by exact Hc. unfold grow. rewrite grid_at_set.
      now rewrite Z.eqb_refl, cell_eqb_refl.
    + rewrite (IH _ Hl Hin). unfold grow. rewrite grid_at_set.
      destruct (cell_eqb cell c) eqn:E; [|now rewrite andb_false_r].
      apply cell_eqb_eq in E. subst c. contradiction.
  - intros Hn. now apply L0.
  - intros k Hk. clear Hnd. generalize (grid self) as g.
    induction (ground_cells self) as [|c l IH]; intros g; simpl;
      [reflexivity|].
    rewrite IH. unfold grow. now apply grid_at_set_other_layer.
Qed.

Lemma growing_spec_witness :
  grid_at (grid (World_growing small_world)) 0 (2, 2) = 41
  /\ grid_at (grid (World_growing small_world)) 0 (0, 0) = -100.
Proof.
  destruct (growing_spec small_world (2, 2)) as (H1 & _).
  { vm_compute. repeat constructor; simpl; intuition congruence. }
  destruct (growing_spec small_world (0, 0)) as (_ & H2 & _).
  { vm_compute. repeat constructor; simpl; intuition congruence. }
  split.
  - rewrite H1; [reflexivity | vm_compute; tauto].
  - rewrite H2; [reflexivity | vm_compute; intuition congruence].
Defined.

(** Deleting the keys of [remove] one after the other *)
Lemma fold_dict_del {V} (remove : list Cell) (d : Dict V) :
  fold_left dict_del remove d
  = filter (fun kv => negb (existsb (cell_eqb (fst kv)) remove)) d.
Proof.
  revert d. induction remove as [|k remove IH]; intros d; simpl.
  - induction d as [|kv d IHd]; simpl; [reflexivity | now rewrite <- IHd].
  - rewrite IH. unfold dict_del. clear IH.
    induction d as [|kv d IHd]; simpl; [reflexivity|].
    destruct (cell_eqb (fst kv) k); simpl.
    + exact IHd.
    + destruct (existsb (cell_eqb (fst kv)) remove); simpl;
        [exact IHd | now rewrite IHd].
Qed.

Lemma existsb_filter_key (p : Cell -> bool) (l : list Cell) (k : Cell) :
  In k l -> existsb (cell_eqb k) (filter p l) = p k.
Proof.
  intros Hin. destruct (p k) eqn:E.
  - apply existsb_exists. exists k. split; [|apply cell_eqb_refl].
    apply filter_In. now split.
  - apply not_true_iff_false. intros H. apply existsb_exists in H.
    destruct H as (k' & Hk' & Ek). apply cell_eqb_eq in Ek. subst k'.
    apply filter_In in Hk'. destruct Hk' as [_ Hk']. congruence.
Qed.

Lemma existsb_filter_cell (p : Cell -> bool) (l : list Cell) (k : Cell) :
  existsb (cell_eqb k) (filter p l) = existsb (cell_eqb k) l && p k.
Proof.
  induction l as [|c l IH]; simpl; [reflexivity|].
  destruct (cell_eqb k c) eqn:E.
  - apply cell_eqb_eq in E. subst c. destruct (p k) eqn:Ep; simpl.
    + now rewrite cell_eqb_refl.
    + rewrite IH. now rewrite andb_false_r.
  - destruct (p c); simpl; [rewrite E|]; exact IH.
Qed.

(** The loop of [World.overwhelming] over the keys of a dictionary *)
Lemma overwhelmed_spec {G} (self : WorldOf G) (idx_specie : Z)
    (cells : list Cell) :
  idx_specie <> 0 ->
  fst (overwhelmed self idx_specie cells)
  = filter (fun cell => sum_vegetob self cell =? 800) cells
  /\ forall k cell,
       grid_at (snd (overwhelmed self idx_specie cells)) k cell
       = if (k =? idx_specie)
            && existsb (cell_eqb cell)
                 (filter (fun cell => sum_vegetob self cell =? 800) cells)
         then 0 else grid_at (grid self) k cell.
Proof.
  intros Hidx. unfold overwhelmed.
  set (step := fun (acc : list Cell * Grid) (cell : Cell) =>
                 let '(remove, g) := acc in
                 let sum :=
                   fold_left (fun x y => x + grid_at g 0 y)
                     (World_neighbourhood self (fst cell) (snd cell) 1) 0 in
                 if sum =? 800
                 then (remove ++ [cell], grid_set g idx_specie cell 0)
                 else (remove, g)).
  assert (Hsum : forall (g : Grid) l a,
             (forall c, grid_at g 0 c = grid_at (grid self) 0 c) ->
             fold_left (fun x y => x + grid_at g 0 y) l a
             = fold_left (fun x y => x + grid_at (grid self) 0 y) l a).
  { intros g l. induction l as [|y l IH]; intros a Hg; simpl;
      [reflexivity|]. rewrite Hg. now apply IH. }
  assert (L : forall cells remove g,
             (forall c, grid_at g 0 c = grid_at (grid self) 0 c) ->
             fst (fold_left step cells (remove, g))
             = remove ++ filter (fun cell => sum_vegetob self cell =? 800) cells
             /\ forall k cell,
                  grid_at (snd (fold_left step cells (remove, g))) k cell
                  = if (k =? idx_specie)
                       && existsb (cell_eqb cell)
                            (filter (fun cell => sum_vegetob self cell =? 800)
                                    cells)
                    then 0 else grid_at g k cell).
  { clear cells. induction cells as [|c cells IH]; intros remove g Hg; simpl.
    - split; [now rewrite app_nil_r|].
      intros k cell. now rewrite andb_false_r.
    - rewrite (Hsum g _ 0 Hg). fold (sum_vegetob self c).
      destruct (sum_vegetob self c =? 800) eqn:E.
      + destruct (IH (remove ++ [c]) (grid_set g idx_specie c 0)) as [H1 H2].
        { intros c'. rewrite grid_at_set_other_layer by congruence.
          apply Hg. }
        split; [rewrite H1; now rewrite <- app_assoc|].
        intros k cell. rewrite H2, grid_at_set. cbn [existsb].
        destruct (k =? idx_specie); cbn [andb]; [|reflexivity].
        destruct (cell_eqb cell c); cbn [orb]; [|reflexivity].
        now destruct (existsb _ _).
      + apply IH. exact Hg. }
  destruct (L cells [] (grid self)) as [H1 H2]; [reflexivity|].
  split; [exact H1 | exact H2].
Qed.

(** [World.overwhelming] removes the herds and prides of the cells whose
    ground neighbours have densities that sum to 800, sets the count of
    their animals to 0 in the grid, and keeps everything else. *)
Theorem overwhelming_spec (self : World) :
  herds (World_overwhelming self)
  = filter (fun cg => negb (sum_vegetob self (fst cg) =? 800)) (herds self)
  /\ prides (World_overwhelming self)
     = filter (fun cg => negb (sum_vegetob self (fst cg) =? 800))
              (prides self)
  /\ forall cell,
       grid_at (grid (World_overwhelming self)) 0 cell
       = grid_at (grid self) 0 cell
       /\ grid_at (grid (World_overwhelming self)) 1 cell
          = (if existsb (cell_eqb cell) (keys (herds self))
                && (sum_vegetob self cell =? 800)
             then 0 else grid_at (grid self) 1 cell)
       /\ grid_at (grid (World_overwhelming self)) 2 cell
          = (if existsb (cell_eqb cell) (keys (prides self))
                && (sum_vegetob self cell =? 800)
             then 0 else grid_at (grid self) 2 cell).
Proof.
  unfold World_overwhelming.
  destruct (overwhelmed_spec self 1 (map fst (herds self))) as [Hr1 Hg1];
    [discriminate|].
  destruct (overwhelmed self 1 (map fst (herds self)))
    as [remove_herds g1] eqn:E1.
  simpl in Hr1, Hg1.
  set (self2 := set_herds (set_grid self g1)
                  (fold_left dict_del remove_herds
                             (herds (set_grid self g1)))
                  (prides (set_grid self g1))).
  assert (Hs : forall cell, sum_vegetob self2 cell = sum_vegetob self cell).
  { intros cell. unfold sum_vegetob.
    change (World_neighbourhood self2 (fst cell) (snd cell) 1)
      with (World_neighbourhood self (fst cell) (snd cell) 1).
    generalize 0 at 2 4.
    induction (World_neighbourhood self (fst cell) (snd cell) 1)
      as [|y l IH]; intros a; simpl; [reflexivity|].
    rewrite IH. f_equal. f_equal. change (grid self2) with g1.
    rewrite Hg1. reflexivity. }
  destruct (overwhelmed_spec self2 2 (map fst (prides self2))) as [Hr2 Hg2];
    [discriminate|].
  destruct (overwhelmed self2 2 (map fst (prides self2)))
    as [remove_prides g2] eqn:E2.
  simpl in Hr2, Hg2. cbn [herds prides grid set_grid set_herds].
  subst remove_herds remove_prides.
  split; [|split].
  - unfold self2. cbn [herds prides grid set_grid set_herds].
    rewrite fold_dict_del.
    apply filter_ext_in. intros [k v] Hin. cbn [fst].
    rewrite existsb_filter_key; [reflexivity|].
    apply in_map_iff. now exists (k, v).
  - change (prides self2) with (prides self). rewrite fold_dict_del.
    apply filter_ext_in. intros [k v] Hin. cbn [fst].
    rewrite existsb_filter_key; [now rewrite Hs|].
    apply in_map_iff. now exists (k, v).
  - intros cell. change (prides self2) with (prides self) in Hg2.
    rewrite !Hg2, !Hg1. cbn [Z.eqb andb].
    rewrite !existsb_filter_cell, Hs. unfold keys.
    repeat split.
Qed.

Lemma around_NoDup (cell : Cell) : NoDup (around cell).
Proof.
  destruct cell as [i j]. unfold around.
  repeat (constructor;
          [simpl; intros H;
           repeat (destruct H as [H|H]; [inversion H; lia|]); exact H|]).
  constructor.
Qed.

Lemma neighbourhood_around {G} (self : WorldOf G) (cell : Cell) :
  incl (World_neighbourhood self (fst cell) (snd cell) 1) (around cell).
Proof.
  destruct cell as [r c]. intros [i j] H. apply in_neighbourhood in H.
  destruct H as (Hg & Hn & Hbi & Hbj & Hi & Hj). cbn [fst snd] in *.
  assert (Ci : i = r - 1 \/ i = r \/ i = r + 1) by lia.
  assert (Cj : j = c - 1 \/ j = c \/ j = c + 1) by lia.
  unfold around. simpl.
  destruct Ci as [ -> | [ -> | -> ] ], Cj as [ -> | [ -> | -> ] ]; tauto.
Qed.

Lemma sum_at_most (f : Cell -> Z) (l : list Cell) (a : Z) :
  (forall y, In y l -> f y <= 100) ->
  fold_left (fun x y => x + f y) l a <= a + 100 * len l
  /\ (fold_left (fun x y => x + f y) l a = a + 100 * len l ->
      forall y, In y l -> f y = 100).
Proof.
  revert a. induction l as [|z l IH]; intros a Hf.
  - simpl. unfold len. simpl. split; [lia|]. intros _ y [].
  - cbn [fold_left].
    destruct (IH (a + f z)) as [H1 H2]; [intros y Hy; apply Hf; now right|].
    assert (Hz : f z <= 100) by (apply Hf; now left).
    replace (len (z :: l)) with (len l + 1) by (unfold len; simpl; lia).
    split; [lia|].
    intros E y [<-|Hy].
    + lia.
    + apply H2; [lia | exact Hy].
Qed.

Lemma sum_all_100 (f : Cell -> Z) (l : list Cell) (a : Z) :
  (forall y, In y l -> f y = 100) ->
  fold_left (fun x y => x + f y) l a = a + 100 * len l.
Proof.
  revert a. induction l as [|z l IH]; intros a Hf.
  - unfold len. simpl. lia.
  - cbn [fold_left]. rewrite IH by (intros y Hy; apply Hf; now right).
    rewrite (Hf z) by now left. unfold len. simpl length. lia.
Qed.

(** When no ground cell has a density above 100, the sum that
    [World.overwhelming] compares with 800 reaches it exactly when the
    eight cells around the cell are all ground cells of the array with
    density 100: a group next to water or to the border is never
    overwhelmed. *)
Theorem overwhelming_needs_eight_full_neighbours {G} (self : WorldOf G)
    (cell : Cell) :
  (forall c, In c (ground_cells self) -> grid_at (grid self) 0 c <= 100) ->
  (sum_vegetob self cell = 800
   <-> forall n, In n (around cell) ->
         In n (World_neighbourhood self (fst cell) (snd cell) 1)
         /\ grid_at (grid self) 0 n = 100).
Proof.
  intros Hveg. unfold sum_vegetob.
  set (N := World_neighbourhood self (fst cell) (snd cell) 1).
  assert (Hground : forall y, In y N -> grid_at (grid self) 0 y <= 100).
  { intros [i j] Hy. apply Hveg. apply in_neighbourhood in Hy. tauto. }
  assert (Hincl : incl N (around cell)) by apply neighbourhood_around.
  assert (HN : NoDup N) by apply neighbourhood_NoDup.
  assert (Hlen : (length N <= 8)%nat).
  { apply (NoDup_incl_length HN) in Hincl.
    destruct cell. exact Hincl. }
  destruct (sum_at_most (grid_at (grid self) 0) N 0 Hground) as [Hle Heq].
  split.
  - intros Hsum.
    assert (L8 : length N = 8%nat) by (unfold len in Hle; lia).
    assert (Hback : incl (around cell) N).
    { apply NoDup_length_incl; [exact HN | | exact Hincl].
      rewrite L8. destruct cell. simpl. lia. }
    intros n Hn. split; [now apply Hback|].
    apply Heq; [unfold len; lia | now apply Hback].
  - intros Hall.
    assert (Hback : incl (around cell) N) by (intros n Hn; now apply Hall).
    assert (L8 : length N = 8%nat).
    { apply (NoDup_incl_length (around_NoDup cell)) in Hback.
      destruct cell. simpl in Hback. lia. }
    rewrite sum_all_100; [unfold len; lia|].
    intros y Hy. apply Hall. now apply Hincl.
Qed.

Lemma overwhelming_needs_eight_witness :
  sum_vegetob small_world (2, 2) <> 800.
Proof.
  intros H.
  assert (Hv : forall c, In c (ground_cells small_world) ->
                         grid_at (grid small_world) 0 c <= 100).
  { intros c Hc. vm_compute in Hc.
    repeat (destruct Hc as [<-|Hc]; [vm_compute; congruence|]).
    contradiction. }
  destruct (proj1 (overwhelming_needs_eight_full_neighbours
                     small_world (2, 2) Hv) H (1, 1)) as [_ E];
    [now left|].
  vm_compute in E. congruence.
Defined.

(* ------------------------------------------------------------------ *)
(** ** The groups of the world *)

Lemma well_keyed_value {V} (d : Dict V) (k : Cell) (v v' : V) :
  NoDup (keys d) -> In (k, v) d -> In (k, v') d -> v = v'.
Proof.
  induction d as [|[k0 v0] d IH]; intros Hnd H1 H2; [contradiction|].
  inversion Hnd as [|? ? Hk Hd]; subst.
  assert (Hout : forall w, In (k0, w) d -> False).
  { intros w Hw. apply Hk. unfold keys. apply in_map_iff.
    now exists (k0, w). }
  destruct H1 as [H1|H1], H2 as [H2|H2].
  - congruence.
  - inversion H1; subst. exfalso. eapply Hout, H2.
  - inversion H2; subst. exfalso. eapply Hout, H1.
  - now apply IH.
Qed.

Lemma existsb_filter_entry {V} (p : Cell * V -> bool) (d : Dict V)
    (k : Cell) (v : V) :
  NoDup (keys d) -> In (k, v) d ->
  existsb (cell_eqb k) (map fst (filter p d)) = p (k, v).
Proof.
  intros Hnd Hin. destruct (p (k, v)) eqn:E.
  - apply existsb_exists. exists k. split; [|apply cell_eqb_refl].
    apply in_map_iff. exists (k, v). split; [reflexivity|].
    apply filter_In. now split.
  - apply not_true_iff_false. intros H. apply existsb_exists in H.
    destruct H as (k' & Hk' & Ek). apply cell_eqb_eq in Ek. subst k'.
    apply in_map_iff in Hk'. destruct Hk' as ([k' v'] & Hfst & Hf).
    simpl in Hfst. subst k'. apply filter_In in Hf. destruct Hf as [Hd Hp].
    rewrite (well_keyed_value d k v v' Hnd Hin Hd) in E. congruence.
Qed.

Lemma remove_empty_groups_filter (self : World) :
  well_keyed self ->
  herds (World_remove_empty_groups self)
  = filter (fun cg => negb (len (population (snd cg)) =? 0)) (herds self)
  /\ prides (World_remove_empty_groups self)
     = filter (fun cg => negb (len (population (snd cg)) =? 0)) (prides self)
  /\ grid (World_remove_empty_groups self) = grid self.
Proof.
  intros [Wh Wp]. unfold World_remove_empty_groups, empty_cells.
  cbn [herds prides grid set_herds]. rewrite !fold_dict_del.
  split; [|split; [|reflexivity]].
  - apply filter_ext_in. intros [k v] Hin. cbn [fst].
    now rewrite (existsb_filter_entry _ _ k v Wh Hin).
  - apply filter_ext_in. intros [k v] Hin. cbn [fst].
    now rewrite (existsb_filter_entry _ _ k v Wp Hin).
Qed.

(** [World.remove_empty_groups] keeps the groups that have animals, in
    their order, and drops the others; no cell becomes a key twice and
    the grid is not touched. *)
Theorem remove_empty_groups_spec (self : World) :
  well_keyed self ->
  herds (World_remove_empty_groups self)
  = filter (fun cg => negb (len (population (snd cg)) =? 0)) (herds self)
  /\ prides (World_remove_empty_groups self)
     = filter (fun cg => negb (len (population (snd cg)) =? 0)) (prides self)
  /\ grid (World_remove_empty_groups self) = grid self
  /\ well_keyed (World_remove_empty_groups self).
Proof.
  intros W. destruct (remove_empty_groups_filter self W) as (Hh & Hp & Hg).
  repeat split; try assumption;
    now apply remove_empty_groups_well_keyed.
Qed.

Lemma remove_empty_groups_witness :
  herds (World_remove_empty_groups hollow_world) = [((2, 3), group_of [calm])]
  /\ prides (World_remove_empty_groups hollow_world) = [].
Proof.
  assert (W : well_keyed hollow_world).
  { split; vm_compute; repeat constructor; simpl; intuition congruence. }
  destruct (remove_empty_groups_spec hollow_world W) as (Hh & Hp & _ & _).
  rewrite Hh, Hp. split; reflexivity.
Defined.

(** The accumulation of [World.update_grid] over a dictionary *)
Lemma accumulate_animals_spec (d : Dict Group) (layer : Z -> Z -> Z)
    (i j : Z) :
  NoDup (keys d) ->
  fold_left accumulate_animals d layer i j
  = layer i j + resident_count d (i, j).
Proof.
  unfold resident_count. revert layer.
  induction d as [|[k v] d IH]; intros layer H; simpl.
  - lia.
  - inversion H as [|? ? Hn Hd]; subst. rewrite (IH _ Hd).
    destruct (cell_eqb k (i, j)) eqn:E.
    + apply cell_eqb_eq in E. subst k.
      rewrite dict_get_absent by exact Hn. rewrite cell_eqb_refl. lia.
    + destruct (cell_eqb (i, j) k) eqn:E'; [|reflexivity].
      apply cell_eqb_eq in E'. subst k. rewrite cell_eqb_refl in E.
      discriminate.
Qed.

Lemma update_grid_consistent (self : World) :
  well_keyed self -> counts_consistent (World_update_grid self).
Proof.
  intros [Wh Wp] [i j]. unfold World_update_grid, grid_at, grid_set_layer.
  simpl. rewrite !accumulate_animals_spec by assumption.
  unfold zeros. split; reflexivity.
Qed.

(** After the movement and unify phases every cell has at most one herd
    and one pride, and the animal layers of the grid, which
    [World.update_grid] rebuilds, give their sizes. *)
Theorem unify_leaves_counts_consistent (self : World)
    (moved_world : WorldOf (list Group)) (self' : World)
    (r r1 r' : Random) :
  World_movement self r = Ok (moved_world, r1) ->
  World_unify_groups moved_world r1 = Ok (self', r') ->
  well_keyed self' /\ counts_consistent self'.
Proof.
  intros Hm Hu. apply movement_well_keyed in Hm.
  split; [eapply unify_groups_well_keyed; eauto|].
  destruct Hm as [Wh Wp]. unfold World_unify_groups in Hu.
  apply bind_Ok_inv in Hu. destruct Hu as ([new_herds u] & q1 & Hh & Hu).
  apply bind_Ok_inv in Hu. destruct Hu as ([new_prides u'] & q2 & Hp & Hu).
  apply ret_Ok_inv in Hu. destruct Hu as [-> _].
  apply for_items_keys in Hh. apply for_items_keys in Hp.
  apply update_grid_consistent. split; simpl; congruence.
Qed.

Lemma unify_leaves_counts_consistent_witness :
  match World_movement small_world small_draws with
  | Ok (moved_world, r1) =>
      match World_unify_groups moved_world r1 with
      | Ok (self', _) => well_keyed self' /\ counts_consistent self'
      | Raise _ => False
      end
  | Raise _ => False
  end.
Proof.
  destruct (World_movement small_world small_draws) as [[moved_world r1]|e]
    eqn:Hm; [|vm_compute in Hm; discriminate].
  destruct (World_unify_groups moved_world r1) as [[self' r']|e] eqn:Hu.
  - exact (unify_leaves_counts_consistent _ _ _ _ _ _ Hm Hu).
  - vm_compute in Hm. inversion Hm; subst. vm_compute in Hu. discriminate.
Defined.

Lemma same_frame_refl {G} (self : WorldOf G) : same_frame self self.
Proof. repeat split. Qed.

Lemma same_frame_trans {G H K} (a : WorldOf G) (b : WorldOf H)
    (c : WorldOf K) :
  same_frame a b -> same_frame b c -> same_frame a c.
Proof.
  unfold same_frame. intros (H1 & H2 & H3 & H4) (H5 & H6 & H7 & H8).
  repeat split; congruence.
Qed.

Lemma overwhelming_frame (self : World) :
  same_frame self (World_overwhelming self).
Proof.
  unfold World_overwhelming.
  destruct (overwhelmed self 1 (map fst (herds self))) as [rh g1].
  destruct (overwhelmed _ 2 _) as [rp g2]. repeat split.
Qed.

Lemma movement_frame (self : World) (r r' : Random)
    (moved_world : WorldOf (list Group)) :
  World_movement self r = Ok (moved_world, r') -> same_frame self moved_world.
Proof.
  unfold World_movement. intros H.
  apply bind_Ok_inv in H. destruct H as (res_herds & r1 & _ & H).
  apply bind_Ok_inv in H. destruct H as (res_prides & r2 & _ & H).
  apply ret_Ok_inv in H. destruct H as [-> _]. repeat split.
Qed.

Lemma unify_groups_frame (self : WorldOf (list Group)) (r r' : Random)
    (self' : World) :
  World_unify_groups self r = Ok (self', r') -> same_frame self self'.
Proof.
  unfold World_unify_groups. intros H.
  apply bind_Ok_inv in H. destruct H as ([new_herds u] & r1 & _ & H).
  apply bind_Ok_inv in H. destruct H as ([new_prides u'] & r2 & _ & H).
  apply ret_Ok_inv in H. destruct H as [-> _]. repeat split.
Qed.

Lemma grazing_frame (self self' : World) (r r' : Random) :
  World_grazing self r = Ok (self', r') -> same_frame self self'.
Proof.
  unfold World_grazing. intros H.
  apply bind_Ok_inv in H. destruct H as ([new_herds g] & r1 & _ & H).
  apply ret_Ok_inv in H. destruct H as [-> _]. repeat split.
Qed.

Lemma hunting_frame (self self' : World) (r r' : Random) :
  World_hunting self r = Ok (self', r') -> same_frame self self'.
Proof.
  unfold World_hunting. intros H.
  apply bind_Ok_inv in H. destruct H as ([new_prides [g hs]] & r1 & _ & H).
  apply ret_Ok_inv in H. destruct H as [-> _]. repeat split.
Qed.

Lemma spawning_frame (self self' : World) (r r' : Random) :
  World_spawning self r = Ok (self', r') -> same_frame self self'.
Proof.
  unfold World_spawning. intros H.
  apply bind_Ok_inv in H. destruct H as ([new_herds g] & r1 & _ & H).
  apply bind_Ok_inv in H. destruct H as ([new_prides g'] & r2 & _ & H).
  apply ret_Ok_inv in H. destruct H as [-> _]. repeat split.
Qed.

Lemma update_stats_fresh (d : Dict Group) :
  Forall (fun cg : Cell * Group => stats_fresh (snd cg))
         (map (fun cg : Cell * Group => (fst cg, Group_update_stats (snd cg)))
              d).
Proof.
  apply Forall_forall. intros cg H. apply in_map_iff in H.
  destruct H as (cg0 & <- & _). repeat split.
Qed.

Lemma filter_nonempty_groups (d : Dict Group) :
  Forall (fun cg : Cell * Group => population (snd cg) <> [])
         (map (fun cg : Cell * Group => (fst cg, Group_update_stats (snd cg)))
              (filter (fun cg => negb (len (population (snd cg)) =? 0)) d)).
Proof.
  apply Forall_forall. intros cg H. apply in_map_iff in H.
  destruct H as (cg0 & <- & H). apply filter_In in H. destruct H as [_ H].
  simpl. intros E. rewrite E in H. discriminate.
Qed.

(** A completed day leaves no group without animals, leaves every group
    with totals that are those of its population, advances the day by one
    and keeps the shape of the array and the ground cells. *)
Theorem day_leaves_groups_clean (self self' : World) (r r' : Random) :
  World_a_day_on_planysuss self r = Ok (self', r') ->
  Forall (fun cg => population (snd cg) <> [] /\ stats_fresh (snd cg))
         (herds self' ++ prides self')
  /\ day self' = day self + 1
  /\ NR self' = NR self /\ NC self' = NC self
  /\ ground_cells self' = ground_cells self.
Proof.
  unfold World_a_day_on_planysuss. intros H.
  apply bind_Ok_inv in H. destruct H as (w1 & r1 & H1 & H).
  apply bind_Ok_inv in H. destruct H as (w2 & r2 & H2 & H).
  apply bind_Ok_inv in H. destruct H as (w3 & r3 & H3 & H).
  apply bind_Ok_inv in H. destruct H as (w4 & r4 & H4 & H).
  apply bind_Ok_inv in H. destruct H as (w5 & r5 & H5 & H).
  apply ret_Ok_inv in H. destruct H as [-> _].
  assert (F : same_frame self (World_remove_empty_groups w5)).
  { apply same_frame_trans with w5; [|repeat split].
    eapply same_frame_trans;
      [apply (overwhelming_frame (World_growing self))|].
    eapply same_frame_trans; [eapply movement_frame, H1|].
    eapply same_frame_trans; [eapply unify_groups_frame, H2|].
    eapply same_frame_trans; [eapply grazing_frame, H3|].
    eapply same_frame_trans; [eapply hunting_frame, H4|].
    eapply spawning_frame, H5. }
  apply movement_well_keyed in H1.
  apply (unify_groups_well_keyed _ _ _ _ H1) in H2.
  apply (grazing_well_keyed _ _ _ _ H2) in H3.
  apply (hunting_well_keyed _ _ _ _ H3) in H4.
  apply (spawning_well_keyed _ _ _ _ H4) in H5.
  destruct (remove_empty_groups_filter w5 H5) as (Hh & Hp & _).
  destruct F as (F1 & F2 & F3 & F4).
  unfold World_update_stats.
  cbn [herds prides day NR NC ground_cells set_day set_grid set_herds].
  rewrite Hh, Hp.
  split; [|repeat split; [now rewrite F4 | exact F1 | exact F2 | exact F3]].
  apply Forall_app. split; apply Forall_forall; intros cg Hcg.
  - split.
    + revert cg Hcg. apply Forall_forall, filter_nonempty_groups.
    + revert cg Hcg. apply Forall_forall, update_stats_fresh.
  - split.
    + revert cg Hcg. apply Forall_forall, filter_nonempty_groups.
    + revert cg Hcg. apply Forall_forall, update_stats_fresh.
Qed.

Lemma day_leaves_groups_clean_witness :
  Forall (fun cg => population (snd cg) <> [] /\ stats_fresh (snd cg))
         (herds after_one_day ++ prides after_one_day)
  /\ day after_one_day = day small_world + 1
  /\ NR after_one_day = NR small_world /\ NC after_one_day = NC small_world
  /\ ground_cells after_one_day = ground_cells small_world.
Proof.
  apply (day_leaves_groups_clean small_world after_one_day
                                 small_draws small_draws).
  vm_compute. reflexivity.
Defined.

(* ------------------------------------------------------------------ *)
(** ** Grazing *)

Lemma sum_energy_from (l : list Specie) (a : Z) :
  fold_left (fun x y => x + energy y) l a = a + sum_energy l.
Proof.
  unfold sum_energy. revert a. induction l as [|x l IH]; intros a; simpl.
  - lia.
  - rewrite IH, (IH (energy x)). lia.
Qed.

Lemma sum_energy_cons (x : Specie) (l : list Specie) :
  sum_energy (x :: l) = energy x + sum_energy l.
Proof. unfold sum_energy at 1. simpl. rewrite sum_energy_from. lia. Qed.

Lemma sum_energy_app (l1 l2 : list Specie) :
  sum_energy (l1 ++ l2) = sum_energy l1 + sum_energy l2.
Proof.
  induction l1 as [|x l1 IH]; simpl.
  - reflexivity.
  - rewrite !sum_energy_cons, IH. lia.
Qed.

Lemma sum_energy_perm (l1 l2 : list Specie) :
  Permutation l1 l2 -> sum_energy l1 = sum_energy l2.
Proof.
  induction 1; rewrite ?sum_energy_cons; lia.
Qed.

Lemma sum_energy_grazed (l : list Specie) :
  sum_energy (map grazed l) = sum_energy l + len l.
Proof.
  induction l as [|x l IH]; simpl; [reflexivity|].
  rewrite !sum_energy_cons, IH. unfold len. simpl length. simpl energy. lia.
Qed.

Lemma sum_energy_starved (l : list Specie) :
  sum_energy (map starved l) = sum_energy l.
Proof.
  induction l as [|x l IH]; simpl; [reflexivity|].
  now rewrite !sum_energy_cons, IH.
Qed.

Lemma py_index_middle {A} (pre : list A) (x : A) (post : list A) :
  py_index (pre ++ x :: post) (len pre) = Ok x.
Proof.
  unfold py_index.
  pose proof (len_nonneg pre) as Hp.
  destruct (Z.ltb_spec (len pre) 0) as [|_]; [lia|].
  destruct (Z.ltb_spec (len pre) 0) as [|_]; [lia|].
  rewrite len_app. unfold len at 2. cbn [length].
  destruct (Z.leb_spec (len pre + Z.of_nat (S (length post))) (len pre))
    as [|_]; [lia|].
  cbn [orb]. unfold len. rewrite Nat2Z.id.
  rewrite nth_error_app2 by lia. now rewrite Nat.sub_diag.
Qed.

(** The second loop of the scarce branch of [Herd.grazing] *)
Lemma rfold_starve_segment (mid pre post : list Specie) :
  rfold (fun l n =>
           let? erbast := py_index l n in
           let? s := truediv (social_attitude erbast) const.HUNGER_E in
           py_update l n (fun erbast => set_social_attitude erbast s))
        (range (len pre) (len pre + len mid)) (pre ++ mid ++ post)
  = Ok (pre ++ map starved mid ++ post).
Proof.
  revert pre. induction mid as [|x mid IH]; intros pre.
  - rewrite range_nil by (unfold len; simpl; lia). reflexivity.
  - rewrite range_cons by (unfold len; simpl; lia).
    cbn [rfold app map]. rewrite py_index_middle. cbn [rbind].
    unfold truediv at 1.
    change (Qeq_bool const.HUNGER_E 0) with false. cbn [rbind].
    rewrite py_update_middle. cbn [rbind].
    replace (pre ++ set_social_attitude x
                      (social_attitude x / const.HUNGER_E)%Q :: mid ++ post)
      with ((pre ++ [starved x]) ++ mid ++ post)
      by (now rewrite <- app_assoc).
    replace (len pre + 1) with (len (pre ++ [starved x]))
      by (rewrite len_app; reflexivity).
    replace (len pre + len (x :: mid))
      with (len (pre ++ [starved x]) + len mid)
      by (rewrite len_app; unfold len; simpl; lia).
    rewrite IH. now rewrite <- app_assoc.
Qed.

Lemma grid_at_set_elsewhere (g : Grid) (k k' : Z) (cell cell' : Cell)
    (v : Z) :
  (k', cell') <> (k, cell) ->
  grid_at (grid_set g k cell v) k' cell' = grid_at g k' cell'.
Proof.
  intros H. rewrite grid_at_set.
  destruct (Z.eqb_spec k' k) as [->|]; [|reflexivity].
  destruct (cell_eqb cell' cell) eqn:E; [|reflexivity].
  apply cell_eqb_eq in E. congruence.
Qed.

(** [Herd.grazing] on a cell of density [v >= 0]: the Erbast that moved
    are left alone; when [v] covers the others each gets 1 point of energy
    and the density drops by their number; otherwise the [v] weakest get
    1 point each, the others have their social attitude divided by
    [HUNGER_E], and the density drops to 0.  The energy gained by the
    herd is the density lost by the cell, and no other entry of the grid
    changes. *)
Theorem grazing_spec (self : Group) (g : Grid) (cell : Cell) :
  0 <= grid_at g 0 cell ->
  exists herd' g',
    Herd_grazing self g cell = Ok (herd', g')
    /\ population herd'
       = filter moved (population self)
         ++ (if len (static self) <=? grid_at g 0 cell
             then map grazed (static self)
             else map grazed
                      (firstn (Z.to_nat (grid_at g 0 cell))
                              (sort energy false (static self)))
                  ++ map starved
                       (skipn (Z.to_nat (grid_at g 0 cell))
                              (sort energy false (static self))))
    /\ grid_at g' 0 cell = Z.max 0 (grid_at g 0 cell - len (static self))
    /\ (forall k c, (k, c) <> (0, cell) -> grid_at g' k c = grid_at g k c)
    /\ sum_energy (population herd') - sum_energy (population self)
       = grid_at g 0 cell - grid_at g' 0 cell.
Proof.
  intros Hv. unfold Herd_grazing. fold (static self).
  set (v := grid_at g 0 cell) in *.
  assert (Hpop : sum_energy (population self)
                 = sum_energy (filter moved (population self))
                   + sum_energy (static self)).
  { rewrite (sum_energy_perm _ _
               (filter_partition (fun a => negb (moved a)) (population self))).
    rewrite sum_energy_app. fold (static self).
    rewrite (filter_ext (fun a => negb (negb (moved a))) moved)
      by (intros a; apply negb_involutive).
    reflexivity. }
  destruct (Z.leb_spec (len (static self)) v) as [Hle|Hgt].
  - cbn [rbind]. do 2 eexists. split; [reflexivity|].
    cbn [population set_population].
    split; [reflexivity|]. rewrite grid_at_set, Z.eqb_refl, cell_eqb_refl.
    cbn [andb]. rewrite !len_map.
    split; [lia|]. split; [intros k c H; now apply grid_at_set_elsewhere|].
    rewrite sum_energy_app. fold grazed. rewrite sum_energy_grazed. lia.
  - set (hungry := sort energy false (static self)).
    assert (Hlen : len hungry = len (static self)) by apply sort_len.
    assert (Hfirst : len (firstn (Z.to_nat v) hungry) = v).
    { unfold len in *. rewrite length_firstn. lia. }
    assert (Hskip : len (skipn (Z.to_nat v) hungry) = len hungry - v).
    { unfold len in *. rewrite length_skipn. lia. }
    pose proof (rfold_update_segment
                  (fun erbast => set_energy erbast (energy erbast + 1))
                  (firstn (Z.to_nat v) hungry) []
                  (skipn (Z.to_nat v) hungry)) as L1.
    cbn [app] in L1. change (len (@nil Specie)) with 0 in L1.
    rewrite Hfirst, firstn_skipn in L1. cbn [Z.add] in L1.
    rewrite L1. cbn [rbind].
    pose proof (rfold_starve_segment
                  (skipn (Z.to_nat v) hungry)
                  (map grazed (firstn (Z.to_nat v) hungry)) []) as L2.
    rewrite len_map, Hfirst, Hskip, !app_nil_r in L2.
    replace (v + (len hungry - v)) with (len hungry) in L2 by lia.
    fold grazed.
    replace (len (map grazed (firstn (Z.to_nat v) hungry)
                  ++ skipn (Z.to_nat v) hungry))
      with (len hungry)
      by (rewrite len_app, len_map, Hfirst, Hskip; lia).
    rewrite L2. cbn [rbind]. do 2 eexists. split; [reflexivity|].
    cbn [population set_population].
    split; [reflexivity|]. rewrite grid_at_set, Z.eqb_refl, cell_eqb_refl.
    cbn [andb].
    split; [lia|]. split; [intros k c H; now apply grid_at_set_elsewhere|].
    rewrite !sum_energy_app, sum_energy_grazed, sum_energy_starved, Hfirst.
    assert (Hh : sum_energy hungry = sum_energy (static self))
      by apply sum_energy_perm, sort_perm.
    rewrite <- (firstn_skipn (Z.to_nat v) hungry), sum_energy_app in Hh.
    lia.
Qed.

Lemma grazing_spec_witness :
  match Herd_grazing (group_of [strong_erbast; calm; restless])
                     (flat_grid 2 3 0) (2, 2) with
  | Ok (herd, g) =>
      map energy (population herd) = [51; 51; 100]
      /\ grid_at g 0 (2, 2) = 0
  | Raise _ => False
  end.
Proof.
  destruct (grazing_spec (group_of [strong_erbast; calm; restless])
                         (flat_grid 2 3 0) (2, 2))
    as (herd' & g' & E & Hp & Hg & _); [vm_compute; congruence|].
  rewrite E, Hp, Hg. split; reflexivity.
Defined.

(* ------------------------------------------------------------------ *)
(** ** Hunting without a herd, and the pool of a merge *)

(** [Pride.hunting] in a cell without a herd never fails: it divides the
    social attitude of every Carviz by [HUNGER_C] and changes neither an
    energy nor the grid. *)
Theorem hunting_without_herd (self : Group) (g : Grid) (cell : Cell) :
  Pride_hunting self g cell None
  = Ok (set_population self (map hungry_carviz (population self)), None, g)
  /\ map energy (map hungry_carviz (population self))
     = map energy (population self).
Proof.
  split.
  - unfold Pride_hunting.
    assert (L : forall l acc,
               rfold (fun l carviz =>
                        let? s := truediv (social_attitude carviz)
                                          const.HUNGER_C in
                        Ok (l ++ [set_social_attitude carviz s])) l acc
               = Ok (acc ++ map hungry_carviz l)).
    { induction l as [|x l IH]; intros acc; cbn [rfold map].
      - now rewrite app_nil_r.
      - unfold truediv at 1. change (Qeq_bool const.HUNGER_C 0) with false.
        cbn [rbind]. rewrite IH, <- app_assoc. reflexivity. }
    rewrite L. reflexivity.
  - rewrite map_map. apply map_ext. reflexivity.
Qed.

Lemma sorted_app_order {A} (R : A -> A -> Prop) (l1 l2 : list A) :
  StronglySorted R (l1 ++ l2) ->
  forall a b, In a l1 -> In b l2 -> R a b.
Proof.
  induction l1 as [|x l1 IH]; intros S a b Ha Hb; [contradiction|].
  simpl in S. apply StronglySorted_inv in S. destruct S as [S F].
  destruct Ha as [<-|Ha].
  - rewrite Forall_forall in F. apply F, in_or_app. now right.
  - now apply IH.
Qed.

(** [Group.join_groups] loses nobody when the pool has at most
    [MAX_GROUP + 1] animals; from a larger pool it keeps [MAX_GROUP + 1]
    animals, and nobody it drops has more energy than somebody it keeps. *)
Theorem join_groups_keeps_strongest (group_list : list Group)
    (res_group : Group) (MAX_GROUP : Z) :
  0 <= MAX_GROUP ->
  exists dropped,
    Permutation (flat_map population group_list)
      (population (Group_join_groups group_list res_group MAX_GROUP)
       ++ dropped)
    /\ len (population (Group_join_groups group_list res_group MAX_GROUP))
       = Z.min (len (flat_map population group_list)) (MAX_GROUP + 1)
    /\ forall kept lost,
         In kept (population
                    (Group_join_groups group_list res_group MAX_GROUP)) ->
         In lost dropped -> energy lost <= energy kept.
Proof.
  intros Hmax.
  destruct (Z.leb_spec (len (flat_map population group_list)) MAX_GROUP)
    as [Hle|Hgt].
  - exists []. rewrite join_groups_within by exact Hle.
    rewrite app_nil_r. split; [reflexivity|]. split; [lia|].
    intros kept lost _ [].
  - set (pool := flat_map population group_list) in *.
    exists (skipn (Z.to_nat (MAX_GROUP + 1)) (sort energy true pool)).
    assert (E : population (Group_join_groups group_list res_group MAX_GROUP)
                = firstn (Z.to_nat (MAX_GROUP + 1)) (sort energy true pool)).
    { unfold Group_join_groups. cbn [population set_population].
      rewrite pooled_population. cbn [app]. fold pool.
      destruct (Z.ltb_spec MAX_GROUP (len pool)) as [_|]; [|lia].
      cbn [population set_population]. unfold slice.
      rewrite Z.sub_0_r. reflexivity. }
    rewrite E, firstn_skipn. split; [symmetry; apply sort_perm|].
    split.
    + unfold len in *. rewrite length_firstn, sort_length. lia.
    + intros kept lost Hk Hl.
      pose proof (sort_sorted _ energy true pool) as S.
      rewrite <- (firstn_skipn (Z.to_nat (MAX_GROUP + 1))) in S.
      pose proof (sorted_app_order _ _ _ S kept lost Hk Hl) as H.
      unfold ordered, before in H. lia.
Qed.

Lemma join_groups_keeps_strongest_witness :
  exists dropped,
    Permutation (flat_map population crowded_herds)
      (population (Group_join_groups crowded_herds Group_init const.MAX_HERD)
       ++ dropped)
    /\ len (population
              (Group_join_groups crowded_herds Group_init const.MAX_HERD))
       = Z.min (len (flat_map population crowded_herds)) (const.MAX_HERD + 1)
    /\ forall kept lost,
         In kept (population
                    (Group_join_groups crowded_herds Group_init
                                       const.MAX_HERD)) ->
         In lost dropped -> energy lost <= energy kept.
Proof.
  apply join_groups_keeps_strongest. vm_compute. congruence.
Defined.

(* ------------------------------------------------------------------ *)
(** ** Unify: prides within the cap *)

Lemma sum_energy_nonneg (l : list Specie) :
  Forall (fun a => 0 <= energy a) l -> 0 <= sum_energy l.
Proof.
  induction 1 as [|x l Hx _ IH].
  - unfold sum_energy. simpl. lia.
  - rewrite sum_energy_cons. lia.
Qed.

Lemma win_fight_sound (pride : Group) :
  sound_pride pride -> sound_pride (win_fight (Group_update_stats pride)).
Proof.
  intros [Hl He]. unfold sound_pride, win_fight.
  cbn [population set_population Group_update_stats].
  split; [now rewrite len_map|].
  apply Forall_forall. intros a Ha. apply in_map_iff in Ha.
  destruct Ha as (a0 & <- & Ha0). rewrite Forall_forall in He.
  simpl. now apply He.
Qed.

(** One iteration of the loop of [Pride.unify] on sound prides *)
Lemma unify_step_sound (pride_list : list Group) (r : Random) :
  Forall sound_pride pride_list ->
  (2 <= length pride_list)%nat ->
  exists pride_list' r',
    Pride_unify_step pride_list r = Ok (pride_list', r')
    /\ Forall sound_pride pride_list'
    /\ length pride_list = S (length pride_list').
Proof.
  intros Hs Hlen. unfold Pride_unify_step.
  pose proof (sort_perm _ (fun pride => len (population pride)) false
                        pride_list) as P.
  rewrite <- (Permutation_length P) in *.
  apply (Permutation_Forall (Permutation_sym P)) in Hs.
  destruct (sort (fun pride => len (population pride)) false pride_list)
    as [|pride1 [|pride2 rest]]; [simpl in Hlen; lia | simpl in Hlen; lia|].
  inversion Hs as [|? ? S1 Hs']; subst.
  inversion Hs' as [|? ? S2 Hrest]; subst.
  destruct (prides_join (Group_update_stats pride1)
                        (Group_update_stats pride2)) eqn:J.
  - do 2 eexists. split; [reflexivity|]. split; [|reflexivity].
    constructor; [|exact Hrest].
    apply joined_prides_below_cap in J. destruct J as [Jp Jl].
    cbn [population Group_update_stats] in Jp, Jl.
    unfold sound_pride. rewrite Jp. split; [lia|].
    apply Forall_app. split; [apply S1 | apply S2].
  - unfold bind.
    rewrite random_randint_ok
      by (cbn [total_energy Group_update_stats];
          apply (sum_energy_nonneg _ (proj2 S1))).
    rewrite random_randint_ok
      by (cbn [total_energy Group_update_stats];
          apply (sum_energy_nonneg _ (proj2 S2))).
    destruct (_ <=? _); do 2 eexists;
      (split; [reflexivity|]; split; [|reflexivity]);
      (constructor; [|exact Hrest]); now apply win_fight_sound.
Qed.

Lemma unify_loop_sound (fuel : nat) :
  forall (pride_list : list Group) (r : Random),
    Forall sound_pride pride_list ->
    (length pride_list <= fuel)%nat ->
    pride_list <> [] ->
    exists pride r',
      Pride_unify_loop fuel pride_list r = Ok ([pride], r')
      /\ sound_pride pride.
Proof.
  induction fuel as [|fuel IH]; intros pride_list r Hs Hf Hne.
  - destruct pride_list; [contradiction | simpl in Hf; lia].
  - cbn [Pride_unify_loop].
    destruct (Z.ltb_spec 1 (len pride_list)) as [H1|H1].
    + unfold len in H1.
      destruct (unify_step_sound pride_list r Hs) as (l' & r1 & E & Hs' & L);
        [lia|].
      unfold bind. rewrite E. apply IH; [exact Hs' | lia|].
      intros ->. simpl in L. lia.
    + destruct pride_list as [|pride [|p2 rest]];
        [contradiction | | unfold len in H1; simpl in H1; lia].
      do 2 eexists. split; [reflexivity|]. now inversion Hs.
Qed.

(** [Pride.unify] on a non-empty list of prides that are within
    [MAX_PRIDE] and hold no Carviz of negative energy never fails, and
    the pride that is left is within [MAX_PRIDE] too: neither a join nor
    a fight takes a pride over the cap. *)
Theorem pride_unify_within_cap (pride_list : list Group) (r : Random) :
  pride_list <> [] ->
  Forall sound_pride pride_list ->
  exists pride r',
    Pride_unify pride_list r = Ok (pride, r')
    /\ len (population pride) <= const.MAX_PRIDE
    /\ Forall (fun carviz => 0 <= energy carviz) (population pride).
Proof.
  intros Hne Hs. unfold Pride_unify, bind.
  destruct (unify_loop_sound (length pride_list) pride_list r Hs
                             (Nat.le_refl _) Hne)
    as (pride & r' & E & [Hl He]).
  rewrite E. exists pride, r'. split; [reflexivity|]. now split.
Qed.

Lemma pride_unify_within_cap_witness :
  exists pride r',
    Pride_unify meeting_prides (mkRandom [5; 7; 1; 200] []) = Ok (pride, r')
    /\ len (population pride) <= const.MAX_PRIDE
    /\ Forall (fun carviz => 0 <= energy carviz) (population pride).
Proof.
  apply pride_unify_within_cap.
  - discriminate.
  - repeat constructor; vm_compute; congruence.
Defined.

(* ------------------------------------------------------------------ *)
(** ** The animals of the first day *)

(** [random.random()] is in [0, 1). *)
Lemma random_random_range (r : Random) :
  exists u r', random_random r = Ok (u, r') /\ (0 <= u)%Q /\ (u < 1)%Q.
Proof.
  unfold random_random, bind, next_unit, ret.
  set (q := hd 0%Q (unit_draws r)).
  do 2 eexists. split; [reflexivity|].
  pose proof (Qfloor_le q) as H1. pose proof (Qlt_floor q) as H2.
  rewrite inject_Z_plus in H2. change (inject_Z 1) with 1%Q in H2.
  split; lra.
Qed.

Lemma range_length (n : Z) : len (range 0 n) = Z.max 0 n.
Proof.
  unfold range, len. rewrite length_map, length_seq. lia.
Qed.

(** The loop of [Group.world_init] appends one documented animal per
    iteration. *)
Lemma world_init_loop (MAX_ENERGY MAX_LIFE : Z) (l : list Z) :
  0 <= MAX_ENERGY -> 1 <= MAX_LIFE ->
  forall (self : Group) (r : Random),
  exists self' r' new,
    foldM (fun (self : Group) (_ : Z) =>
             let* energy := random_randint 0 MAX_ENERGY in
             let* lifetime := random_randint 1 MAX_LIFE in
             let* social_attitude := random_random in
             ret (set_population self
                    (population self
                     ++ [create_animal energy lifetime social_attitude])))
          l self r = Ok (self', r')
    /\ population self' = population self ++ new
    /\ len new = len l
    /\ Forall (newborn MAX_ENERGY MAX_LIFE) new.
Proof.
  intros He Hl. induction l as [|x l IH]; intros self r.
  - exists self, r, []. split; [reflexivity|].
    split; [now rewrite app_nil_r|]. split; [reflexivity|constructor].
  - cbn [foldM]. unfold bind at 1. unfold bind at 1.
    rewrite random_randint_ok by lia. unfold bind at 1.
    rewrite random_randint_ok by lia. unfold bind at 1.
    match goal with
    | |- context [random_random ?q] =>
        destruct (random_random_range q) as (u & r3 & E & Hu0 & Hu1)
    end.
    rewrite E. unfold ret at 1.
    match goal with
    | |- context [foldM _ l ?s ?q] => destruct (IH s q)
                                        as (self' & r' & new & F & Hp & Hn & Hf)
    end.
    rewrite F. cbn [population set_population] in Hp.
    eexists self', r', (_ :: new). split; [reflexivity|].
    split; [rewrite Hp, <- app_assoc; reflexivity|].
    split; [unfold len in *; simpl; lia|].
    constructor; [|exact Hf].
    unfold newborn, create_animal, Specie_init.
    cbn [energy lifetime age social_attitude moved].
    pose proof (random_randint_range 0 MAX_ENERGY (hd 0 (int_draws r))).
    match goal with
    | |- context [1 + ?k mod (MAX_LIFE - 1 + 1)] =>
        pose proof (random_randint_range 1 MAX_LIFE k)
    end.
    repeat split; try lia; assumption.
Qed.

(** [Group.world_init] with bounds [0 <= LB <= UB] creates between [LB]
    and [UB] animals as documented and adds their number to the count of
    the cell in the grid. *)
Lemma group_world_init_spec (self : Group) (g : Grid) (cell : Cell)
    (idx_specie LB UB MAX_ENERGY MAX_LIFE : Z) (r : Random) :
  0 <= LB <= UB -> 0 <= MAX_ENERGY -> 1 <= MAX_LIFE ->
  exists self' g' r' new,
    Group_world_init self g cell idx_specie LB UB MAX_ENERGY MAX_LIFE r
    = Ok (self', g', r')
    /\ population self' = population self ++ new
    /\ LB <= len new <= UB
    /\ Forall (newborn MAX_ENERGY MAX_LIFE) new
    /\ grid_at g' idx_specie cell = grid_at g idx_specie cell + len new
    /\ forall k c, (k, c) <> (idx_specie, cell) ->
                   grid_at g' k c = grid_at g k c.
Proof.
  intros Hb He Hl. unfold Group_world_init. unfold bind at 1.
  rewrite random_randint_ok by lia.
  set (n := LB + hd 0 (int_draws r) mod (UB - LB + 1)).
  assert (Hn : LB <= n <= UB) by (apply random_randint_range; lia).
  unfold bind at 1.
  match goal with
  | |- context [foldM _ (range 0 n) self ?q] =>
      destruct (world_init_loop MAX_ENERGY MAX_LIFE (range 0 n) He Hl self q)
        as (self' & r' & new & F & Hp & Hlen & Hf)
  end.
  rewrite F. unfold ret.
  rewrite range_length in Hlen.
  exists self', (grid_set g idx_specie cell (grid_at g idx_specie cell + n)),
         r', new.
  split; [reflexivity|]. split; [exact Hp|]. split; [lia|].
  split; [exact Hf|].
  split.
  - rewrite grid_at_set, Z.eqb_refl, cell_eqb_refl. cbn [andb]. lia.
  - intros k c H. now apply grid_at_set_elsewhere.
Qed.

(** [Herd.world_init] never fails: it creates between 10 and 30 Erbast
    with energy in [0, 100], lifetime in [1, 1000], social attitude in
    [0, 1), age 0 and not moved, and adds their number to the Erbast
    count of the cell; [Pride.world_init] does the same with 3 to 10
    Carviz and the Carviz count.  Nothing else of the grid changes. *)
Theorem world_init_spec (self : Group) (g : Grid) (cell : Cell) (r : Random) :
  (exists self' g' r' new,
      Herd_world_init self g cell r = Ok (self', g', r')
      /\ population self' = population self ++ new
      /\ const.NUM_ERBAST_LB <= len new <= const.NUM_ERBAST_UB
      /\ Forall (newborn const.MAX_ENERGY_E const.MAX_LIFE_E) new
      /\ grid_at g' 1 cell = grid_at g 1 cell + len new
      /\ forall k c, (k, c) <> (1, cell) -> grid_at g' k c = grid_at g k c)
  /\ (exists self' g' r' new,
        Pride_world_init self g cell r = Ok (self', g', r')
        /\ population self' = population self ++ new
        /\ const.NUM_CARVIZ_LB <= len new <= const.NUM_CARVIZ_UB
        /\ Forall (newborn const.MAX_ENERGY_C const.MAX_LIFE_C) new
        /\ grid_at g' 2 cell = grid_at g 2 cell + len new
        /\ forall k c, (k, c) <> (2, cell) -> grid_at g' k c = grid_at g k c).
Proof.
  split; apply group_world_init_spec; vm_compute; intuition congruence.
Qed.

(* ------------------------------------------------------------------ *)
(** ** Spawning: the count of the cell and the cap *)

(** One iteration of the loop of [Group.spawning]: it never fails, and
    the count of the cell follows the number of animals: one less for the
    animal that is processed, one more for each animal that is appended. *)
Lemma spawning_step_spec (cell : Cell)
    (idx_specie AGING MIN_LIFE MAX_LIFE MAX_GROUP : Z)
    (Ls : list Specie) (g : Grid) (animal : Specie) (r : Random) :
  1 <= MIN_LIFE -> 1 <= MAX_LIFE ->
  exists added g' r',
    spawning_step cell idx_specie AGING MIN_LIFE MAX_LIFE MAX_GROUP
                  (Ls, g) animal r
    = Ok (Ls ++ added, g', r')
    /\ grid_at g' idx_specie cell
       = grid_at g idx_specie cell + len added - 1
    /\ (forall k c, (k, c) <> (idx_specie, cell) ->
                    grid_at g' k c = grid_at g k c)
    /\ (grid_at g idx_specie cell <= MAX_GROUP ->
        grid_at g' idx_specie cell <= MAX_GROUP).
Proof.
  intros Hmin Hmax. unfold spawning_step.
  set (parent := aging animal AGING).
  assert (Hset : forall v,
             grid_at (grid_set g idx_specie cell v) idx_specie cell = v).
  { intros v. rewrite grid_at_set, Z.eqb_refl, cell_eqb_refl. reflexivity. }
  destruct ((energy parent =? 0) || (lifetime parent <? MIN_LIFE)) eqn:D.
  - exists [], (grid_set g idx_specie cell (grid_at g idx_specie cell - 1)),
           r.
    rewrite app_nil_r, Hset. split; [reflexivity|].
    split; [unfold len; simpl; lia|].
    split; [intros k c H; now apply grid_at_set_elsewhere | lia].
  - apply orb_false_iff in D. destruct D as [_ D]. apply Z.ltb_ge in D.
    destruct (age parent =? lifetime parent).
    + destruct (offspring_stats_ok parent MAX_LIFE r)
        as (e1 & l1 & s1 & r' & E & _); [lia | lia|].
      unfold bind. rewrite E.
      destruct (energy parent - e1 <=? e1);
        destruct (Z.ltb_spec (grid_at g idx_specie cell) MAX_GROUP);
        unfold ret; rewrite <- ?app_assoc; cbn [app];
        do 3 eexists; (split; [reflexivity|]); rewrite ?Hset;
        (split; [unfold len; simpl; lia|]);
        (split; [intros k c Hkc; try reflexivity;
                 now apply grid_at_set_elsewhere | lia]).
    + exists [parent], g, r. split; [reflexivity|].
      split; [unfold len; simpl; lia|]. split; [reflexivity | lia].
Qed.

Lemma spawning_loop_spec (cell : Cell)
    (idx_specie AGING MIN_LIFE MAX_LIFE MAX_GROUP : Z) (l : list Specie) :
  1 <= MIN_LIFE -> 1 <= MAX_LIFE ->
  forall (Ls : list Specie) (g : Grid) (r : Random),
  exists Ls' g' r',
    foldM (spawning_step cell idx_specie AGING MIN_LIFE MAX_LIFE MAX_GROUP)
          l (Ls, g) r
    = Ok (Ls', g', r')
    /\ grid_at g' idx_specie cell - grid_at g idx_specie cell
       = len Ls' - len Ls - len l
    /\ (forall k c, (k, c) <> (idx_specie, cell) ->
                    grid_at g' k c = grid_at g k c)
    /\ (grid_at g idx_specie cell <= MAX_GROUP ->
        grid_at g' idx_specie cell <= MAX_GROUP).
Proof.
  intros Hmin Hmax. induction l as [|animal l IH]; intros Ls g r.
  - exists Ls, g, r. split; [reflexivity|].
    split; [unfold len; simpl; lia|]. split; [reflexivity | lia].
  - destruct (spawning_step_spec cell idx_specie AGING MIN_LIFE MAX_LIFE
                MAX_GROUP Ls g animal r Hmin Hmax)
      as (added & g1 & r1 & E & Hc & Hf & Hm).
    destruct (IH (Ls ++ added) g1 r1) as (Ls' & g' & r' & F & Hc' & Hf' & Hm').
    exists Ls', g', r'. cbn [foldM]. unfold bind. rewrite E.
    split; [exact F|].
    split; [rewrite len_app in Hc'; unfold len in *; simpl length; lia|].
    split; [intros k c H; rewrite Hf' by exact H; now apply Hf | tauto].
Qed.

(** [Group.spawning] never fails when [MIN_LIFE] and [MAX_LIFE] are at
    least 1.  The count of the cell in the layer [idx_specie] changes by
    what the size of the group changes, and nothing else of the grid
    changes; so a group whose size is the count of its cell and at most
    [MAX_GROUP] is at most [MAX_GROUP] after the phase. *)
Theorem spawning_spec (self : Group) (g : Grid) (cell : Cell)
    (idx_specie AGING MIN_LIFE MAX_LIFE MAX_GROUP : Z) (r : Random) :
  1 <= MIN_LIFE -> 1 <= MAX_LIFE ->
  exists self' g' r',
    Group_spawning self g cell idx_specie AGING MIN_LIFE MAX_LIFE MAX_GROUP r
    = Ok (self', g', r')
    /\ grid_at g' idx_specie cell - grid_at g idx_specie cell
       = len (population self') - len (population self)
    /\ (forall k c, (k, c) <> (idx_specie, cell) ->
                    grid_at g' k c = grid_at g k c)
    /\ (grid_at g idx_specie cell = len (population self) ->
        len (population self) <= MAX_GROUP ->
        len (population self') <= MAX_GROUP).
Proof.
  intros Hmin Hmax. unfold Group_spawning, bind.
  destruct (spawning_loop_spec cell idx_specie AGING MIN_LIFE MAX_LIFE
              MAX_GROUP (population self) Hmin Hmax [] g r)
    as (Ls' & g' & r' & F & Hc & Hf & Hm).
  rewrite F. exists (set_population self Ls'), g', r'.
  cbn [population set_population]. split; [reflexivity|].
  change (len (@nil Specie)) with 0 in Hc.
  split; [lia|]. split; [exact Hf | lia].
Qed.

Lemma spawning_spec_witness :
  exists self' g' r',
    Herd_spawning (group_of [elder; calm]) (flat_grid 50 2 0) (2, 2) no_draws
    = Ok (self', g', r')
    /\ grid_at g' 1 (2, 2) - grid_at (flat_grid 50 2 0) 1 (2, 2)
       = len (population self') - len (population (group_of [elder; calm]))
    /\ (forall k c, (k, c) <> (1, (2, 2)) ->
                    grid_at g' k c = grid_at (flat_grid 50 2 0) k c)
    /\ (grid_at (flat_grid 50 2 0) 1 (2, 2)
        = len (population (group_of [elder; calm])) ->
        len (population (group_of [elder; calm])) <= const.MAX_HERD ->
        len (population self') <= const.MAX_HERD).
Proof.
  apply spawning_spec; vm_compute; congruence.
Defined.

Lemma uniform_between (lo hi u : Q) :
  (lo <= hi)%Q -> (0 <= u)%Q -> (u < 1)%Q ->
  (lo <= lo + (hi - lo) * u)%Q /\ (lo + (hi - lo) * u <= hi)%Q.
Proof.
  intros H H0 H1.
  assert (P : (0 <= (hi - lo) * u)%Q)
    by (apply Qmult_le_0_compat; lra).
  assert (P' : (0 <= (hi - lo) * (1 - u))%Q)
    by (apply Qmult_le_0_compat; lra).
  split; lra.
Qed.

(** The draws of [Group.spawning] for a parent with a lifetime of at
    least 1 and a social attitude in [0, 1] never fail; both social
    attitudes drawn are in [0, 1] and sum to twice the parent's, the
    first lifetime is in [1, MAX_LIFE] and the second at least 1, and a
    parent with at least 2 points of energy gives at least 1 to each
    offspring. *)
Theorem offspring_stats_ranges (animal : Specie) (MAX_LIFE : Z) (r : Random) :
  1 <= lifetime animal -> 1 <= MAX_LIFE ->
  (0 <= social_attitude animal)%Q -> (social_attitude animal <= 1)%Q ->
  exists e1 l1 s1 e2 l2 s2 r',
    offspring_stats animal MAX_LIFE r = Ok ((e1, l1, s1), (e2, l2, s2), r')
    /\ (0 <= s1)%Q /\ (s1 <= 1)%Q /\ (0 <= s2)%Q /\ (s2 <= 1)%Q
    /\ (s1 + s2 == 2 * social_attitude animal)%Q
    /\ 1 <= l1 <= MAX_LIFE /\ 1 <= l2
    /\ 1 <= e1
    /\ (2 <= energy animal -> 1 <= e2).
Proof.
  intros Hl Hm Hs0 Hs1. unfold offspring_stats, bind.
  rewrite random_randint_ok by lia.
  rewrite random_randint_ok by lia.
  unfold random_uniform, bind.
  match goal with
  | |- context [random_random ?q] =>
      destruct (random_random_range q) as (u & r' & E & Hu0 & Hu1)
  end.
  rewrite E. unfold ret.
  pose proof (random_randint_range 1 (Z.max 1 (energy animal - 1))
                (hd 0 (int_draws r))) as He.
  match goal with
  | |- context [1 + ?k mod (Z.min (2 * lifetime animal - 1) MAX_LIFE - 1 + 1)]
    => pose proof (random_randint_range
                     1 (Z.min (2 * lifetime animal - 1) MAX_LIFE) k) as Hl1
  end.
  set (s := social_attitude animal) in *.
  set (lo := Qmax 0 (2 * s - 1)).
  set (hi := Qmin (2 * s) 1).
  assert (Hlo : (0 <= lo)%Q /\ (2 * s - 1 <= lo)%Q /\ (lo <= s)%Q).
  { unfold lo. destruct (Q.max_spec 0 (2 * s - 1)) as [[H1 H2]|[H1 H2]];
      rewrite H2; repeat split; lra. }
  assert (Hhi : (hi <= 1)%Q /\ (hi <= 2 * s)%Q /\ (s <= hi)%Q).
  { unfold hi. destruct (Q.min_spec (2 * s) 1) as [[H1 H2]|[H1 H2]];
      rewrite H2; repeat split; lra. }
  destruct (uniform_between lo hi u) as [U1 U2]; [lra | lra | lra|].
  do 7 eexists. split; [reflexivity|].
  repeat split; try lra; try lia.
Qed.

Lemma offspring_stats_ranges_witness :
  exists e1 l1 s1 e2 l2 s2 r',
    offspring_stats (aging elder const.AGING_E) const.MAX_LIFE_E
                    (mkRandom [30; 700] [2 # 3])
    = Ok ((e1, l1, s1), (e2, l2, s2), r')
    /\ (0 <= s1)%Q /\ (s1 <= 1)%Q /\ (0 <= s2)%Q /\ (s2 <= 1)%Q
    /\ (s1 + s2 == 2 * social_attitude (aging elder const.AGING_E))%Q
    /\ 1 <= l1 <= const.MAX_LIFE_E /\ 1 <= l2
    /\ 1 <= e1
    /\ (2 <= energy (aging elder const.AGING_E) -> 1 <= e2).
Proof.
  apply offspring_stats_ranges; vm_compute; congruence.
Defined.

(* ------------------------------------------------------------------ *)
(** ** Movement: who goes and where *)




(** The head of a list sorted with [reverse=True] is one of its elements
    and has the largest key. *)
Lemma sort_reverse_head {A} (key : A -> Z) (l : list A) (best : A)
    (rest : list A) :
  sort key true l = best :: rest ->
  In best l /\ forall x, In x l -> key x <= key best.
Proof.
  intros H. pose proof (sort_perm _ key true l) as P.
  pose proof (sort_sorted _ key true l) as S. rewrite H in P, S.
  split; [apply (Permutation_in _ P); now left|].
  intros x Hx. apply (Permutation_in _ (Permutation_sym P)) in Hx.
  apply StronglySorted_inv in S. destruct S as [_ F].
  destruct Hx as [<-|Hx]; [lia|].
  rewrite Forall_forall in F. specialize (F x Hx).
  unfold ordered, before in F. lia.
Qed.

(** A movement neither loses nor duplicates an animal. *)
Lemma energy_spec_headcount (before : list Specie)
    (res : list (Group * Cell)) :
  movement_energy_spec before res -> len (animals res) = len before.
Proof.
  intros (stayers & movers & stayed & arrived & P & E & F1 & F2).
  rewrite E. unfold len. rewrite (Permutation_length P), !length_app.
  apply Forall2_length in F1. apply Forall2_length in F2. lia.
Qed.

(** [Herd.movement] returns at most two herds; each stands in the cell of
    the herd or in a neighbour of maximal density, and none is empty
    unless the herd itself was. *)
Theorem herd_movement_destination (self : Group) (g : Grid) (cell : Cell)
    (neighbours : list Cell) (res : list (Group * Cell)) :
  Herd_movement self g cell neighbours = Ok res ->
  at_home_or_best g 0 cell neighbours res
  /\ (length res <= 2)%nat
  /\ (population self <> [] ->
      res <> []
      /\ Forall (fun group_cell => population (fst group_cell) <> []) res).
Proof.
  intros Hres.
  pose proof (energy_spec_headcount _ _
                (herd_movement_energy_spec _ _ _ _ _ Hres)) as Hcount.
  revert Hres. unfold Herd_movement, at_home_or_best.
  destruct (sort (grid_at g 0) true neighbours) as [|best_cell rest] eqn:Es.
  - intros H. injection H as <-. split; [|split].
    + constructor; [now left | constructor].
    + simpl. lia.
    + intros Hne. split; [discriminate|]. now constructor.
  - apply sort_reverse_head in Es. destruct Es as [Hin Hmax].
    intros H. apply rbind_Ok_inv in H. destruct H as ([mv st] & _ & H).
    injection H as <-.
    split; [|split].
    + destruct (0 <? len (map mark_stayed st)),
               (0 <? len (map mark_moved mv));
        repeat (constructor; [first [now left | right; now split]|]);
        constructor.
    + destruct (0 <? len (map mark_stayed st)),
               (0 <? len (map mark_moved mv)); simpl; lia.
    + intros Hne. split.
      * intros E. rewrite E in Hcount. unfold animals, len in Hcount.
        simpl in Hcount. destruct (population self); [contradiction|].
        simpl in Hcount. lia.
      * destruct (0 <? len (map mark_stayed st)) eqn:E1,
                 (0 <? len (map mark_moved mv)) eqn:E2;
          repeat (constructor;
                  [cbn [fst population set_population]; intros E;
                   rewrite E in *; discriminate|]);
          constructor.
Qed.

Lemma herd_movement_destination_witness :
  at_home_or_best (flat_grid 50 3 2) 0 (2, 2) [(2, 3)]
    [(group_of [mark_stayed calm], (2, 2));
     (group_of [mark_moved restless], (2, 3))].
Proof.
  apply (proj1 (herd_movement_destination
                  resting_group (flat_grid 50 3 2) (2, 2) [(2, 3)]
                  [(group_of [mark_stayed calm], (2, 2));
                   (group_of [mark_moved restless], (2, 3))]
                  eq_refl)).
Defined.

(** [random.choice] on a non-empty list returns one of its elements. *)
Lemma random_choice_in {A} (l : list A) (r : Random) :
  l <> [] ->
  exists x r', random_choice l r = Ok (x, r') /\ In x l.
Proof.
  destruct l as [|x0 l]; [contradiction|]. intros _.
  unfold random_choice, bind, next_int, ret.
  do 2 eexists. split; [reflexivity|].
  apply nth_In.
  pose proof (Z.mod_pos_bound (hd 0 (int_draws r)) (len (x0 :: l))).
  unfold len in *. simpl length in *. lia.
Qed.

(** The cell that [Pride.movement] picks for the Carviz that leave: the
    neighbour with the most Erbast, or any neighbour when that one has
    none *)
Lemma pride_destination (g : Grid) (neighbours rest : list Cell)
    (best_cell : Cell) (r : Random) :
  sort (grid_at g 1) true neighbours = best_cell :: rest ->
  exists dest r',
    (if grid_at g 1 best_cell =? 0
     then random_choice (best_cell :: rest)
     else ret best_cell) r = Ok (dest, r')
    /\ In dest neighbours
    /\ (grid_at g 1 best_cell <> 0 -> dest = best_cell /\ r' = r)
    /\ ((forall n, In n neighbours -> 0 <= grid_at g 1 n) ->
        forall n, In n neighbours -> grid_at g 1 n <= grid_at g 1 dest).
Proof.
  intros Es. pose proof (sort_perm _ (grid_at g 1) true neighbours) as P.
  rewrite Es in P.
  apply sort_reverse_head in Es. destruct Es as [Hin Hmax].
  destruct (Z.eqb_spec (grid_at g 1 best_cell) 0) as [E0|N0].
  - destruct (random_choice_in (best_cell :: rest) r) as (d & r' & E & Hd);
      [discriminate|].
    exists d, r'. split; [exact E|].
    apply (Permutation_in _ P) in Hd.
    split; [exact Hd|]. split; [contradiction|].
    intros Hpos n Hn. specialize (Hmax n Hn).
    specialize (Hpos d Hd). lia.
  - exists best_cell, r. split; [reflexivity|]. split; [exact Hin|].
    split; [now split|]. intros _. exact Hmax.
Qed.



(** [Pride.movement] returns at most two prides; when no neighbour has a
    negative count of Erbast, each stands in the cell of the pride or in
    a neighbour where the count is maximal; none is empty unless the
    pride itself was. *)
Theorem pride_movement_destination (self : Group) (g : Grid) (cell : Cell)
    (neighbours : list Cell) (r r' : Random) (res : list (Group * Cell)) :
  (forall n, In n neighbours -> 0 <= grid_at g 1 n) ->
  Pride_movement self g cell neighbours r = Ok (res, r') ->
  at_home_or_best g 1 cell neighbours res
  /\ (length res <= 2)%nat
  /\ (population self <> [] ->
      res <> []
      /\ Forall (fun group_cell => population (fst group_cell) <> []) res).
Proof.
  intros Hpos Hres.
  pose proof (energy_spec_headcount _ _
                (pride_movement_energy_spec _ _ _ _ _ _ _ Hres)) as Hcount.
  revert Hres. unfold Pride_movement, at_home_or_best.
  destruct (sort (grid_at g 1) true neighbours) as [|best_cell rest] eqn:Es.
  - intros H. apply ret_Ok_inv in H. destruct H as [-> _]. split; [|split].
    + constructor; [now left | constructor].
    + simpl. lia.
    + intros Hne. split; [discriminate|]. now constructor.
  - destruct (pride_destination g neighbours rest best_cell r Es)
      as (dest & r1 & E & Hd & _ & Hmax).
    specialize (Hmax Hpos).
    intros H. unfold bind at 1 in H. rewrite E in H.
    apply bind_Ok_inv in H. destruct H as ([st mv] & r2 & _ & H).
    apply ret_Ok_inv in H. destruct H as [-> _].
    cbn [filter fst population set_population] in *.
    split; [|split].
    + destruct (0 <? len (map mark_stayed st)),
               (0 <? len (map mark_moved mv));
        repeat (constructor; [first [now left | right; now split]|]);
        constructor.
    + destruct (0 <? len (map mark_stayed st)),
               (0 <? len (map mark_moved mv)); simpl; lia.
    + intros Hne. split.
      * intros E0. rewrite E0 in Hcount. unfold animals, len in Hcount.
        simpl in Hcount. destruct (population self); [contradiction|].
        simpl in Hcount. lia.
      * destruct (0 <? len (map mark_stayed st)) eqn:E1,
                 (0 <? len (map mark_moved mv)) eqn:E2;
          repeat (constructor;
                  [cbn [fst population set_population]; intros E0;
                   rewrite E0 in *; discriminate|]);
          constructor.
Qed.

Lemma pride_movement_destination_witness :
  at_home_or_best (flat_grid 50 3 2) 1 (2, 2) [(2, 3)]
    [(group_of [mark_stayed restless], (2, 2));
     (group_of [mark_moved calm], (2, 3))].
Proof.
  apply (proj1 (pride_movement_destination
                  resting_group (flat_grid 50 3 2) (2, 2) [(2, 3)]
                  no_draws no_draws
                  [(group_of [mark_stayed restless], (2, 2));
                   (group_of [mark_moved calm], (2, 3))]
                  ltac:(intros n Hn; vm_compute; congruence)
                  eq_refl)).
Defined.

Lemma census_from {G} (count : G -> Z) (d : Dict G) (a : Z) :
  fold_left (fun n cg => n + count (snd cg)) d a = a + census count d.
Proof.
  unfold census. revert a. induction d as [|cg d IH]; intros a; simpl.
  - lia.
  - rewrite IH, (IH (count (snd cg))). lia.
Qed.

Lemma census_cons {G} (count : G -> Z) (k : Cell) (v : G) (d : Dict G) :
  census count ((k, v) :: d) = count v + census count d.
Proof. unfold census at 1. simpl. rewrite census_from. lia. Qed.

Lemma headcount_snoc (groups : list Group) (group : Group) :
  headcount (groups ++ [group]) = headcount groups + size group.
Proof.
  unfold headcount, size. rewrite fold_left_app. reflexivity.
Qed.

Lemma census_collect_one (res : Dict (list Group)) (k : Cell)
    (group : Group) :
  census headcount
    (dict_set res k (match dict_get res k with
                     | Some l => l
                     | None => []
                     end ++ [group]))
  = census headcount res + size group.
Proof.
  induction res as [|[k' l] res IH]; simpl.
  - rewrite census_cons. unfold census, headcount, size. simpl. lia.
  - destruct (cell_eqb k' k).
    + rewrite !census_cons, headcount_snoc. lia.
    + rewrite !census_cons, IH. lia.
Qed.

Lemma census_collect (after : list (Group * Cell)) :
  forall res : Dict (list Group),
    census headcount (collect_groups res after)
    = census headcount res + len (animals after).
Proof.
  unfold collect_groups.
  induction after as [|[group k] after IH]; intros res; simpl.
  - unfold animals, len. simpl. lia.
  - rewrite IH. cbn [fst snd]. rewrite census_collect_one.
    unfold animals. cbn [flat_map fst]. rewrite len_app. unfold size. lia.
Qed.

(** The loop of [World.movement] over the groups of one species *)
Lemma movement_loop_census
    (move : Group -> Cell -> M (list (Group * Cell))) (d : Dict Group) :
  (forall group cell r res r',
      move group cell r = Ok (res, r') -> len (animals res) = size group) ->
  forall (acc : Dict (list Group)) (r : Random) res r',
    foldM (fun acc (cell_group : Cell * Group) =>
             let '(cell, group) := cell_group in
             let* after := move group cell in
             ret (collect_groups acc after))
          d acc r = Ok (res, r') ->
    census headcount res = census headcount acc + census size d.
Proof.
  intros Hmove. induction d as [|[cell group] d IH];
    intros acc r res r' H; cbn [foldM] in H.
  - apply ret_Ok_inv in H. destruct H as [-> _].
    unfold census at 3. simpl. lia.
  - apply bind_Ok_inv in H. destruct H as (acc' & r1 & Hstep & H).
    apply bind_Ok_inv in Hstep. destruct Hstep as (after & r2 & Hm & Hstep).
    apply ret_Ok_inv in Hstep. destruct Hstep as [-> _].
    apply IH in H. rewrite H, census_collect, census_cons.
    rewrite (Hmove _ _ _ _ _ Hm). lia.
Qed.

(** [World.movement] neither loses nor duplicates an animal: the herds it
    leaves hold as many Erbast as before, the prides as many Carviz, and
    the grid is not touched. *)
Theorem movement_conserves_animals (self : World)
    (moved_world : WorldOf (list Group)) (r r' : Random) :
  World_movement self r = Ok (moved_world, r') ->
  census headcount (herds moved_world) = census size (herds self)
  /\ census headcount (prides moved_world) = census size (prides self)
  /\ grid moved_world = grid self.
Proof.
  unfold World_movement. intros H.
  apply bind_Ok_inv in H. destruct H as (res_herds & r1 & Hh & H).
  apply bind_Ok_inv in H. destruct H as (res_prides & r2 & Hp & H).
  apply ret_Ok_inv in H. destruct H as [-> _].
  cbn [herds prides grid set_herds].
  split; [|split; [|reflexivity]].
  - apply (movement_loop_census
             (fun group cell =>
                lift (Herd_movement group (grid self) cell
                        (World_neighbourhood self (fst cell) (snd cell)
                           const.NEIGHBORHOOD_E)))) in Hh.
    + exact Hh.
    + intros group cell q res q' E. apply lift_Ok_inv in E.
      destruct E as [E _].
      apply (energy_spec_headcount _ _
               (herd_movement_energy_spec _ _ _ _ _ E)).
  - apply (movement_loop_census
             (fun group cell =>
                Pride_movement group (grid self) cell
                  (World_neighbourhood self (fst cell) (snd cell)
                     const.NEIGHBORHOOD_C))) in Hp.
    + exact Hp.
    + intros group cell q res q' E.
      apply (energy_spec_headcount _ _
               (pride_movement_energy_spec _ _ _ _ _ _ _ E)).
Qed.

Lemma movement_conserves_animals_witness :
  match World_movement small_world small_draws with
  | Ok (moved_world, _) =>
      census headcount (herds moved_world) = 3
      /\ census headcount (prides moved_world) = 2
  | Raise _ => False
  end.
Proof.
  destruct (World_movement small_world small_draws) as [[moved_world r']|e]
    eqn:E; [|vm_compute in E; discriminate].
  destruct (movement_conserves_animals _ _ _ _ E) as (Hh & Hp & _).
  rewrite Hh, Hp. split; reflexivity.
Defined.

(* ------------------------------------------------------------------ *)
(** ** The creation of the world *)

Lemma in_inner_cells (NR NC i j : Z) :
  In (i, j) (inner_cells NR NC) <-> 1 <= i < NR - 1 /\ 1 <= j < NC - 1.
Proof.
  unfold inner_cells. rewrite in_flat_map. split.
  - intros (i' & Hi & H). apply in_map_iff in H. destruct H as (j' & E & Hj).
    inversion E; subst. apply in_range in Hi. apply in_range in Hj. lia.
  - intros [Hi Hj]. exists i. split; [now apply in_range|].
    apply in_map_iff. exists j. split; [reflexivity | now apply in_range].
Qed.

Lemma inner_cells_NoDup (NR NC : Z) : NoDup (inner_cells NR NC).
Proof.
  unfold inner_cells.
  apply (NoDup_flat_map_tag fst); [apply range_NoDup | |].
  - intros i. apply NoDup_map_NoDup_ForallPairs; [|apply range_NoDup].
    intros a b _ _ E. now inversion E.
  - intros i b Hb. apply in_map_iff in Hb. destruct Hb as (j & <- & _).
    reflexivity.
Qed.

(** The nested loops of [World.__init__] over a list of distinct cells:
    the cells that join [ground_cells] get a density in [0, 100], the
    others become water, and the rest of the grid is not touched. *)
Lemma fill_loop (cells : list Cell) :
  NoDup cells ->
  forall (g g' : Grid) (ground ground' : list Cell) (r r' : Random),
    foldM fill_cell cells (g, ground) r = Ok (g', ground', r') ->
    exists new,
      ground' = ground ++ new
      /\ NoDup new
      /\ incl new cells
      /\ (forall c, In c new -> 0 <= grid_at g' 0 c <= 100)
      /\ (forall c, In c cells -> ~ In c new -> grid_at g' 0 c = -100)
      /\ (forall k c, ~ (k = 0 /\ In c cells) ->
                      grid_at g' k c = grid_at g k c).
Proof.
  induction 1 as [|cell cells Hc Hnd IH]; intros g g' ground ground' r r' H.
  - apply ret_Ok_inv in H. destruct H as [H _]. inversion H; subst.
    exists []. rewrite app_nil_r.
    split; [reflexivity|]. split; [constructor|].
    split; [intros c []|]. split; [intros c []|].
    split; [intros c [] | intros k c _; reflexivity].
  - cbn [foldM] in H. apply bind_Ok_inv in H.
    destruct H as ([g1 ground1] & r1 & Hstep & H).
    apply IH in H. destruct H as (new & -> & Hn & Hi & Hv & Hw & Hf).
    assert (Hcell : grid_at g' 0 cell = grid_at g1 0 cell).
    { apply Hf. intros [_ F]. contradiction. }
    unfold fill_cell in Hstep. apply bind_Ok_inv in Hstep.
    destruct Hstep as (u & r2 & _ & Hstep).
    destruct (Qle_bool u const.WATER_PROB).
    + apply ret_Ok_inv in Hstep. destruct Hstep as [Hstep _].
      inversion Hstep; subst g1 ground1. clear Hstep.
      exists new. split; [reflexivity|]. split; [exact Hn|].
      split; [intros c Hin; right; now apply Hi|].
      split; [exact Hv|]. split.
      * intros c [<-|Hin] Hnot; [|now apply Hw].
        rewrite Hcell, grid_at_set, Z.eqb_refl, cell_eqb_refl. reflexivity.
      * intros k c Hkc. rewrite Hf by (intros [-> F]; apply Hkc; split;
                                        [reflexivity | now right]).
        apply grid_at_set_elsewhere. intros E. inversion E; subst.
        apply Hkc. split; [reflexivity | now left].
    + apply bind_Ok_inv in Hstep. destruct Hstep as (n & r3 & Hn3 & Hstep).
      apply ret_Ok_inv in Hstep. destruct Hstep as [Hstep _].
      inversion Hstep; subst g1 ground1. clear Hstep.
      assert (Hrange : 0 <= n <= 100).
      { rewrite random_randint_ok in Hn3 by lia.
        injection Hn3 as <- _.
        pose proof (Z.mod_pos_bound (hd 0 (int_draws r2)) 101). lia. }
      exists (cell :: new). split; [now rewrite <- app_assoc|].
      split; [constructor; [intros F; apply Hc; now apply Hi | exact Hn]|].
      split; [intros c [<-|Hin]; [now left | right; now apply Hi]|].
      split; [|split].
      * intros c [<-|Hin]; [|now apply Hv].
        rewrite Hcell, grid_at_set, Z.eqb_refl, cell_eqb_refl. cbn [andb].
        lia.
      * intros c [<-|Hin] Hnot; [exfalso; apply Hnot; now left|].
        apply Hw; [exact Hin|]. intros F. apply Hnot. now right.
      * intros k c Hkc. rewrite Hf by (intros [-> F]; apply Hkc; split;
                                        [reflexivity | now right]).
        apply grid_at_set_elsewhere. intros E. inversion E; subst.
        apply Hkc. split; [reflexivity | now left].
Qed.

(** The four assignments of [World.__init__] that put water on the border *)
Lemma border_spec (g : Grid) (NR NC k i j : Z) :
  1 <= NR -> 1 <= NC ->
  grid_at (set_col (set_col (set_row (set_row g 0 0 NC (-100))
                                     0 (NR - 1) NC (-100))
                            0 0 NR (-100))
                   0 (NC - 1) NR (-100)) k (i, j)
  = if (k =? 0) && (0 <=? i) && (i <? NR) && (0 <=? j) && (j <? NC)
       && ((i =? 0) || (i =? NR - 1) || (j =? 0) || (j =? NC - 1))
    then -100 else grid_at g k (i, j).
Proof.
  intros HR HC. unfold grid_at, set_col, set_row. cbn [fst snd].
  destruct (k =? 0); cbn [andb]; [|reflexivity].
  destruct (Z.leb_spec 0 i), (Z.ltb_spec i NR), (Z.leb_spec 0 j),
           (Z.ltb_spec j NC), (Z.eqb_spec i 0), (Z.eqb_spec i (NR - 1)),
           (Z.eqb_spec j 0), (Z.eqb_spec j (NC - 1));
    cbn [andb orb]; try reflexivity; lia.
Qed.

Lemma dict_set_absent {V} (d : Dict V) (k : Cell) (v : V) :
  ~ In k (keys d) -> dict_set d k v = d ++ [(k, v)].
Proof.
  induction d as [|[k' v'] d IH]; simpl; intros H; [reflexivity|].
  destruct (cell_eqb k' k) eqn:E.
  - apply cell_eqb_eq in E. tauto.
  - rewrite IH by tauto. reflexivity.
Qed.

Lemma dict_get_snoc {V} (d : Dict V) (k k' : Cell) (v : V) :
  ~ In k (keys d) ->
  dict_get (d ++ [(k, v)]) k'
  = if cell_eqb k k' then Some v else dict_get d k'.
Proof.
  induction d as [|[k0 v0] d IH]; simpl; intros H; [reflexivity|].
  rewrite IH by tauto.
  destruct (cell_eqb k0 k') eqn:E0; [|reflexivity].
  destruct (cell_eqb k k') eqn:E; [|reflexivity].
  apply cell_eqb_eq in E0, E. subst. tauto.
Qed.

Lemma random_choice_Ok_in {A} (l : list A) (r r' : Random) (x : A) :
  random_choice l r = Ok (x, r') -> In x l.
Proof.
  intros H. destruct l as [|x0 l]; [discriminate|].
  destruct (random_choice_in (x0 :: l) r) as (y & q & E & Hy);
    [discriminate|].
  rewrite E in H. now inversion H; subst.
Qed.

(** One of the two loops of [World.__init__] that create groups, for a
    [world_init] that behaves as [Group.world_init] does *)
Lemma place_loop (world_init : Group -> Grid -> Cell -> M (Group * Grid))
    (idx_specie LB UB MAX_ENERGY MAX_LIFE : Z)
    (ground_cells : list Cell) (g0 : Grid) :
  (forall self g cell r,
      exists self' g' r' new,
        world_init self g cell r = Ok (self', g', r')
        /\ population self' = population self ++ new
        /\ LB <= len new <= UB
        /\ Forall (newborn MAX_ENERGY MAX_LIFE) new
        /\ grid_at g' idx_specie cell = grid_at g idx_specie cell + len new
        /\ forall k c, (k, c) <> (idx_specie, cell) ->
                       grid_at g' k c = grid_at g k c) ->
  forall (l : list Z) state (n : nat) (r : Random) state' r',
    placed idx_specie LB UB MAX_ENERGY MAX_LIFE ground_cells g0 state n ->
    foldM (place_group world_init ground_cells) l state r = Ok (state', r') ->
    placed idx_specie LB UB MAX_ENERGY MAX_LIFE ground_cells g0 state'
           (n + length l).
Proof.
  intros Hinit. induction l as [|x l IH]; intros state n r state' r' P H.
  - apply ret_Ok_inv in H. destruct H as [-> _]. simpl.
    now rewrite Nat.add_0_r.
  - cbn [foldM] in H. apply bind_Ok_inv in H.
    destruct H as (state1 & r1 & Hstep & H).
    replace (n + length (x :: l))%nat with (S n + length l)%nat
      by (simpl; lia).
    apply (IH state1 (S n) r1 state' r'); [|exact H]. clear IH H.
    destruct state as [[occupied g] groups].
    destruct P as (Hnd & Hocc & Hincl & Hlen & Hcount & Hframe & Hall).
    unfold place_group in Hstep. apply bind_Ok_inv in Hstep.
    destruct Hstep as (cell & r2 & Hchoice & Hstep).
    apply random_choice_Ok_in, filter_In in Hchoice.
    destruct Hchoice as [Hground Hfree].
    assert (Hnew : ~ In cell (keys groups)).
    { intros F. apply Hocc in F. apply negb_true_iff in Hfree.
      apply not_true_iff_false in Hfree. apply Hfree.
      apply existsb_exists. exists cell. split; [exact F|].
      apply cell_eqb_refl. }
    destruct (Hinit Group_init g cell r2)
      as (group & g1 & r3 & new & E & Hp & Hn & Hf & Hc & Hfr).
    unfold bind in Hstep. rewrite E in Hstep.
    apply ret_Ok_inv in Hstep. destruct Hstep as [-> _].
    cbn [population Group_init app] in Hp.
    unfold placed. rewrite dict_set_absent by exact Hnew.
    unfold keys in *. rewrite map_app. cbn [map fst].
    split; [apply NoDup_snoc; assumption|].
    split.
    { intros c. rewrite in_app_iff. simpl. rewrite <- Hocc. tauto. }
    split.
    { intros c Hc0. apply in_app_or in Hc0.
      destruct Hc0 as [Hc0|[<-|[]]]; [now apply Hincl | exact Hground]. }
    split; [rewrite length_app; simpl; lia|].
    split.
    { intros c. unfold resident_count. rewrite dict_get_snoc by exact Hnew.
      destruct (cell_eqb cell c) eqn:Ec.
      - apply cell_eqb_eq in Ec. subst c. rewrite Hc, Hcount.
        unfold resident_count. rewrite dict_get_absent by exact Hnew.
        rewrite Hp. lia.
      - rewrite Hfr; [apply Hcount|].
        intros F. inversion F; subst. rewrite cell_eqb_refl in Ec.
        discriminate. }
    split.
    { intros k c Hk. rewrite Hfr by congruence. now apply Hframe. }
    apply Forall_app. split; [exact Hall|].
    constructor; [|constructor]. cbn [snd]. unfold size. rewrite Hp.
    split; assumption.
Qed.

Lemma randint_Ok_range (a b v : Z) (r r' : Random) :
  random_randint a b r = Ok (v, r') -> a <= v <= b.
Proof.
  unfold random_randint. destruct (Z.ltb_spec b a) as [|Hab]; [discriminate|].
  intros H. apply bind_Ok_inv in H. destruct H as (k & r1 & _ & H).
  apply ret_Ok_inv in H. destruct H as [-> _].
  apply random_randint_range. lia.
Qed.

Lemma placed_start (idx_specie LB UB MAX_ENERGY MAX_LIFE : Z)
    (ground_cells : list Cell) (g0 : Grid) :
  placed idx_specie LB UB MAX_ENERGY MAX_LIFE ground_cells g0 ([], g0, [])
         0.
Proof.
  unfold placed. split; [constructor|]. split; [tauto|].
  split; [intros c []|]. split; [reflexivity|].
  split; [intros c; unfold resident_count; simpl; lia|].
  split; [reflexivity | constructor].
Qed.

(** What [World.__init__] has built when it returns *)
Lemma world_init_inv (r r' : Random) (self : World) :
  World_init r = Ok (self, r') -> terrain_created self /\ groups_created self.
Proof.
  unfold World_init. intros H.
  apply bind_Ok_inv in H. destruct H as ([g1 ground] & r1 & Hfill & H).
  apply bind_Ok_inv in H. destruct H as (num_herds & r2 & Hnh & H).
  apply bind_Ok_inv in H. destruct H as ([[occ_h gh] hs] & r3 & Hherds & H).
  apply bind_Ok_inv in H. destruct H as (num_prides & r4 & Hnp & H).
  apply bind_Ok_inv in H. destruct H as ([[occ_p gp] ps] & r5 & Hprides & H).
  apply ret_Ok_inv in H. destruct H as [-> _]. cbn [snd] in *.
  apply randint_Ok_range in Hnh, Hnp.
  apply (fill_loop _ (inner_cells_NoDup _ _)) in Hfill.
  destruct Hfill as (new & Eg & Hnd & Hin & Hveg & Hwater & Hrest).
  cbn [app] in Eg. subst new.
  set (gb := set_col _ 0 (const.NUMCELLS_C - 1) const.NUMCELLS_R (-100)) in *.
  assert (Hgb : forall k i j,
             grid_at gb k (i, j)
             = if (k =? 0) && (0 <=? i) && (i <? const.NUMCELLS_R)
                  && (0 <=? j) && (j <? const.NUMCELLS_C)
                  && ((i =? 0) || (i =? const.NUMCELLS_R - 1)
                      || (j =? 0) || (j =? const.NUMCELLS_C - 1))
               then -100 else grid_at g1 k (i, j)).
  { intros k i j. apply border_spec; unfold const.NUMCELLS_R,
                                       const.NUMCELLS_C; lia. }
  clearbody gb.
  apply (place_loop Herd_world_init 1 const.NUM_ERBAST_LB const.NUM_ERBAST_UB
           const.MAX_ENERGY_E const.MAX_LIFE_E ground gb) with (n := 0%nat)
    in Hherds.
  2:{ intros s g c q. apply group_world_init_spec;
        vm_compute; intuition congruence. }
  2:{ apply placed_start. }
  apply (place_loop Pride_world_init 2 const.NUM_CARVIZ_LB const.NUM_CARVIZ_UB
           const.MAX_ENERGY_C const.MAX_LIFE_C ground gh) with (n := 0%nat)
    in Hprides.
  2:{ intros s g c q. apply group_world_init_spec;
        vm_compute; intuition congruence. }
  2:{ apply placed_start. }
  destruct Hherds as (Hh1 & _ & Hh3 & Hh4 & Hh5 & Hh6 & Hh7).
  destruct Hprides as (Hp1 & _ & Hp3 & Hp4 & Hp5 & Hp6 & Hp7).
  unfold range in Hh4, Hp4. rewrite length_map, length_seq in Hh4, Hp4.
  assert (Hg0 : forall c, grid_at gp 0 c = grid_at gb 0 c).
  { intros c. rewrite Hp6, Hh6 by discriminate. reflexivity. }
  assert (Hinner : forall i j, In (i, j) ground ->
                     1 <= i <= const.NUMCELLS_R - 2
                     /\ 1 <= j <= const.NUMCELLS_C - 2).
  { intros i j Hc. apply Hin, in_inner_cells in Hc. lia. }
  split.
  - unfold terrain_created. cbn [NR NC day ground_cells grid].
    split; [reflexivity|]. split; [reflexivity|]. split; [reflexivity|].
    split; [exact Hnd|]. split.
    + intros i j Hc. destruct (Hinner i j Hc) as [Hi Hj].
      split; [exact Hi|]. split; [exact Hj|].
      rewrite Hg0, Hgb.
      destruct (Z.eqb_spec i 0), (Z.eqb_spec i (const.NUMCELLS_R - 1)),
               (Z.eqb_spec j 0), (Z.eqb_spec j (const.NUMCELLS_C - 1));
        try lia.
      cbn [orb]. rewrite andb_false_r. now apply Hveg.
    + intros i j Hi Hj Hc. rewrite Hg0, Hgb. cbn [Z.eqb andb].
      destruct (Z.leb_spec 0 i), (Z.ltb_spec i const.NUMCELLS_R),
               (Z.leb_spec 0 j), (Z.ltb_spec j const.NUMCELLS_C); try lia.
      cbn [andb].
      destruct (Z.eqb_spec i 0), (Z.eqb_spec i (const.NUMCELLS_R - 1)),
               (Z.eqb_spec j 0), (Z.eqb_spec j (const.NUMCELLS_C - 1));
        cbn [orb]; try reflexivity.
      apply Hwater; [|exact Hc]. apply in_inner_cells. lia.
  - unfold groups_created. cbn [herds prides ground_cells grid].
    split; [split; assumption|]. split; [exact Hh3|]. split; [exact Hp3|].
    split.
    { intros [i j]. cbn [grid herds prides]. split.
      - rewrite Hp6, Hh5, Hgb by discriminate. cbn [Z.eqb andb].
        rewrite Hrest by (intros [F _]; discriminate). unfold grid_at. lia.
      - rewrite Hp5, Hh6, Hgb by discriminate. cbn [Z.eqb andb].
        rewrite Hrest by (intros [F _]; discriminate). unfold grid_at. lia. }
    unfold len. rewrite Hh4, Hp4.
    unfold const.NUM_HERDS_LB, const.NUM_HERDS_UB, const.NUM_PRIDES_LB,
      const.NUM_PRIDES_UB in *.
    repeat split; try lia; assumption.
Qed.

(** When [World.__init__] returns, the array has 50 rows and 50 columns
    and the day is 1; the ground cells are distinct cells off the border
    with a density in [0, 100], and every other cell of the array, the
    border included, is water (-100). *)
Theorem world_created_terrain (r r' : Random) (self : World) :
  World_init r = Ok (self, r') -> terrain_created self.
Proof. intros H. apply (world_init_inv r r' self H). Qed.

Lemma world_created_terrain_witness : terrain_created plain_world.
Proof.
  apply (world_created_terrain plain_draws plain_rest plain_world).
  vm_compute. reflexivity.
Defined.

(** When [World.__init__] returns, there are 50 to 80 herds of 10 to 30
    Erbast and 20 to 30 prides of 3 to 10 Carviz, every animal as
    [Group.world_init] documents it; the herds stand on distinct ground
    cells, and so do the prides; and the animal layers of the grid give
    the sizes of the groups. *)
Theorem world_created_groups (r r' : Random) (self : World) :
  World_init r = Ok (self, r') -> groups_created self.
Proof. intros H. apply (world_init_inv r r' self H). Qed.

Lemma world_created_groups_witness : groups_created plain_world.
Proof.
  apply (world_created_groups plain_draws plain_rest plain_world).
  vm_compute. reflexivity.
Defined.

(** [World.__init__] fails when every inner cell becomes water: no
    ground cell is left for [random.choice]. *)
Example world_without_ground : World_init no_draws = Raise IndexError.
Proof. vm_compute. reflexivity. Qed.
